(** * VibeCraft: chunked voxel world, terrain generation, meshing, ray casts

    A shallow embedding of [src/world/World.ts], [src/world/Chunk.ts] and
    [src/world/SimplexNoise.ts], and the properties of the specification
    stated over it.

    Conventions of the embedding.
    - A JavaScript [number] that only ever holds an integer (voxel and chunk
      coordinates, array indices, permutation entries) is a [Z]; a [number]
      that holds a fraction (noise values, terrain heights, ray positions,
      results of [Math.random()]) is a rational [Q] with exact arithmetic.
      IEEE rounding is not modelled. [Qred] keeps a fraction in lowest terms
      and does not change its value.
    - [Math.floor] is [Qfloor]; on integers [Math.floor(x / S)] is [x / S]
      ([Z.div] rounds down) and [x % S] is [Z.rem] (sign of the dividend).
    - [Math.random()] is a global sequence [random : nat -> Q]; the state that
      is threaded through the code is the number of draws made so far.
    - [Map<string, Chunk>] is a [gmap string Chunk]; the key is the template
      string of the source.
    - The THREE.js scene graph, materials and textures are not modelled. The
      geometry of a chunk is the list of quads [updateMesh] emits. *)

From Stdlib Require Import ZArith QArith Qround Qfield Qabs Lia Lqa Ascii.
From stdpp Require Import base tactics option list list_numbers.
From stdpp Require Import strings pretty gmap.

Local Open Scope Z_scope.

(** ** Numbers *)

Module Num.

(** [a < b] on fractions, as a boolean. *)
Definition Qltb (a b : Q) : bool := negb (Qle_bool b a).

(** [Math.max], [Math.min]. *)
Definition Qmax (a b : Q) : Q := if Qle_bool a b then b else a.
Definition Qmin (a b : Q) : Q := if Qle_bool a b then a else b.

(** [arr[i]] for an integer-valued index. *)
Definition nth_Z {A} (l : list A) (i : Z) : option A :=
  if i <? 0 then None else l !! Z.to_nat i.

(** [arr[i] = v]; the callers check the bounds first, and a write outside
    the array is never performed by the code. *)
Definition set_Z {A} (l : list A) (i : Z) (v : A) : list A :=
  if i <? 0 then l else <[Z.to_nat i := v]> l.

End Num.

Import Num.

(** ** Block kinds *)

(** Modelled from the spec: the [BlockType] enumeration. [BlockType.ts] is not
    among the sources; the kinds are those the sources name
    ([BlockType.AIR], [BlockType.BEDROCK], ...). *)
Inductive BlockType : Set :=
  | AIR | DIRT | GRASS | STONE | WOOD | LEAVES | WATER | SAND | GLASS | BRICK
  | BEDROCK.

Global Instance BlockType_eq_dec : EqDecision BlockType.
Proof. solve_decision. Defined.

Global Instance BlockType_inhabited : Inhabited BlockType := populate AIR.

(** [[BlockType.WATER, BlockType.GLASS, BlockType.LEAVES].includes(t)] *)
Definition isTransparent (t : BlockType) : bool :=
  match t with
  | WATER | GLASS | LEAVES => true
  | _ => false
  end.

(** ** SimplexNoise.ts *)

Module SimplexNoise.

Record t := mk { perm : list Z; gradP : list (list Z) }.

Definition grad3 : list (list Z) :=
  [ [1; 1; 0]; [-1; 1; 0]; [1; -1; 0]; [-1; -1; 0];
    [1; 0; 1]; [-1; 0; 1]; [1; 0; -1]; [-1; 0; -1];
    [0; 1; 1]; [0; -1; 1]; [0; 1; -1]; [0; -1; -1] ].

(** [seed(seed)]: the seed is scaled and floored, then the permutation
    table and the gradient table are filled. *)
Definition seedInt (seed : Q) : Z :=
  let seed1 :=
    if Qltb 0 seed && Qltb seed 1 then (seed * 65536)%Q else seed in
  let seed2 := Qfloor seed1 in
  if seed2 <? 256 then Z.lor seed2 (Z.shiftl seed2 8) else seed2.

(** The body of the loop that fills [perm]: the value stored at [p[i]]
    and [p[i + 256]]. *)
Definition permEntry (seed i : Z) : Z :=
  let v := if negb (Z.land i 1 =? 0) then Z.lxor (3 * i) seed
           else Z.lxor i seed in
  Z.rem v 256.

Definition seed (s : Q) : t :=
  let sd := seedInt s in
  let half := (permEntry sd) <$> seqZ 0 256 in
  let p := half ++ half in
  {| perm := p;
     gradP := (fun pi => default [] (nth_Z grad3 (Z.rem pi 12))) <$> p |}.

(** [constructor(seed = Math.random())] with the seed given. *)
Definition new (s : Q) : t := seed s.

(** [this.perm[i]] and [this.gradP[i]]; the indices the code uses are
    inside the tables. *)
Definition permAt (n : t) (i : Z) : Z := default 0 (nth_Z (perm n) i).
Definition gradAt (n : t) (i : Z) : list Z := default [] (nth_Z (gradP n) i).

Definition dot (g : list Z) (x y : Q) : Q :=
  let g0 := default 0 (nth_Z g 0) in
  let g1 := default 0 (nth_Z g 1) in
  (inject_Z g0 * x + inject_Z g1 * y)%Q.

Definition fade (t : Q) : Q :=
  (t * t * t * (t * (t * 6 - 15) + 10))%Q.

Definition lerp (a b t : Q) : Q := (a + t * (b - a))%Q.

(** [noise(x, y)]: 2D Perlin noise. *)
Definition noise (n : t) (x y : Q) : Q :=
  let X0 := Qfloor x in
  let Y0 := Qfloor y in
  let x := (x - inject_Z X0)%Q in
  let y := (y - inject_Z Y0)%Q in
  let X := Z.land X0 255 in
  let Y := Z.land Y0 255 in
  let n00 := dot (gradAt n (Z.land (X + permAt n Y) 511)) x y in
  let n01 := dot (gradAt n (Z.land (X + permAt n (Y + 1)) 511)) x (y - 1) in
  let n10 := dot (gradAt n (Z.land (X + 1 + permAt n Y) 511)) (x - 1) y in
  let n11 :=
    dot (gradAt n (Z.land (X + 1 + permAt n (Y + 1)) 511)) (x - 1) (y - 1) in
  let u := fade x in
  Qred (lerp (lerp n00 n10 u) (lerp n01 n11 u) (fade y)).

End SimplexNoise.

(** ** Data of Chunk.ts and World.ts *)

(** One quad of the geometry [updateMesh] builds: the block kind and the index
    [i] into [directions] are the two parts of the batch key
    [`${blockType}_${i}`], and [(x, y, z)] is the local voxel the quad belongs
    to. The vertex positions, normals, uvs and indices pushed for the quad are
    functions of these five values. *)
Record Quad := mkQuad {
  quadBlock : BlockType;
  quadFace : Z;
  quadX : Z;
  quadY : Z;
  quadZ : Z
}.

Global Instance Quad_eq_dec : EqDecision Quad.
Proof. solve_decision. Defined.

(** The fields of [class Chunk]. [scene] and [textureManager] are not
    modelled. The back-reference [world] is not a field here: the methods
    that follow it take the world behind it as an argument.
    [meshBuilds] is a ghost field counting the calls of [updateMesh] on the
    object. *)
Record Chunk := mkChunk {
  chunkX : Z;
  chunkZ : Z;
  size : Z;
  height : Z;
  blocks : list (list (list BlockType));
  mesh : list Quad;
  simplex : SimplexNoise.t;
  meshBuilds : nat
}.

(** The fields of [class World]: the chunk map. *)
Record World := mkWorld {
  chunks : gmap string Chunk
}.

Definition CHUNK_SIZE : Z := 16.
Definition WORLD_HEIGHT : Z := 128.
Definition RENDER_DISTANCE : Z := 3.

(** [`${chunkX},${chunkZ}`] *)
Definition chunkKey (chunkX chunkZ : Z) : string :=
  pretty chunkX +:+ "," +:+ pretty chunkZ.

Definition withBlocks (c : Chunk) (b : list (list (list BlockType))) : Chunk :=
  mkChunk (chunkX c) (chunkZ c) (size c) (height c) b (mesh c) (simplex c)
          (meshBuilds c).

(** [this.chunks.set(key, chunk)], also used to write a mutated chunk object
    back to the map that holds it. *)
Definition withChunk (w : World) (key : string) (c : Chunk) : World :=
  mkWorld (<[key := c]> (chunks w)).

(** [this.blocks[x][y][z]]; the code reads inside the array only. *)
Definition blockAt (b : list (list (list BlockType))) (x y z : Z) : BlockType :=
  default AIR (plane ← nth_Z b x; row ← nth_Z plane y; nth_Z row z).

(** [this.blocks[x][y][z] = v] *)
Definition setBlockAt (b : list (list (list BlockType))) (x y z : Z)
    (v : BlockType) : list (list (list BlockType)) :=
  match nth_Z b x with
  | Some plane =>
      match nth_Z plane y with
      | Some row => set_Z b x (set_Z plane y (set_Z row z v))
      | None => b
      end
  | None => b
  end.

(** [Chunk.getBlock]: block at local chunk coordinates. *)
Definition Chunk_getBlock (c : Chunk) (x y z : Z) : BlockType :=
  if (x <? 0) || (x >=? size c) || (y <? 0) || (y >=? height c)
     || (z <? 0) || (z >=? size c)
  then AIR
  else blockAt (blocks c) x y z.

(** [World.getBlock]: block at world coordinates. *)
Definition World_getBlock (w : World) (x y z : Z) : BlockType :=
  if (y <? 0) || (y >=? WORLD_HEIGHT) then AIR
  else
    let chunkX := x / CHUNK_SIZE in
    let chunkZ := z / CHUNK_SIZE in
    let chunkKey := chunkKey chunkX chunkZ in
    match chunks w !! chunkKey with
    | None => AIR
    | Some chunk =>
        let localX := Z.rem x CHUNK_SIZE in
        let localZ := Z.rem z CHUNK_SIZE in
        let adjustedLocalX :=
          if localX <? 0 then localX + CHUNK_SIZE else localX in
        let adjustedLocalZ :=
          if localZ <? 0 then localZ + CHUNK_SIZE else localZ in
        Chunk_getBlock chunk adjustedLocalX y adjustedLocalZ
    end.

(** ** Chunk.ts: meshing *)

(** [isFaceVisible]; [W] is [this.world] ([None] for [null]). *)
Definition isFaceVisible (W : option World) (c : Chunk)
    (x y z dx dy dz : Z) : bool :=
  let nx := x + dx in
  let ny := y + dy in
  let nz := z + dz in
  if (nx <? 0) || (nx >=? size c) || (ny <? 0) || (ny >=? height c)
     || (nz <? 0) || (nz >=? size c)
  then
    let worldX := chunkX c * size c + x in
    let worldZ := chunkZ c * size c + z in
    let adjacentWorldX := worldX + dx in
    let adjacentWorldY := ny in
    let adjacentWorldZ := worldZ + dz in
    match W with
    | Some world =>
        let adjacentBlockType :=
          World_getBlock world adjacentWorldX adjacentWorldY adjacentWorldZ in
        if decide (adjacentBlockType = AIR) then true
        else
          let currentBlockType := blockAt (blocks c) x y z in
          if bool_decide (currentBlockType <> adjacentBlockType)
             && isTransparent adjacentBlockType
          then true
          else false
    | None => true
    end
  else
    let adjacentType := blockAt (blocks c) nx ny nz in
    let currentType := blockAt (blocks c) x y z in
    if decide (adjacentType = AIR) then true
    else if bool_decide (currentType <> adjacentType)
            && isTransparent currentType && isTransparent adjacentType
    then true
    else bool_decide (currentType <> adjacentType)
         && isTransparent adjacentType.

(** The [directions] table of [updateMesh] ([dir] of each entry). *)
Definition directions : list (Z * Z * Z) :=
  [ (1, 0, 0); (-1, 0, 0); (0, 1, 0); (0, -1, 0); (0, 0, 1); (0, 0, -1) ].

(** The body of the three loops of [updateMesh] for one voxel: air is skipped,
    and one quad is pushed for each visible face. *)
Definition voxelQuads (W : option World) (c : Chunk) (x y z : Z) : list Quad :=
  let blockType := blockAt (blocks c) x y z in
  if decide (blockType = AIR) then []
  else
    i ← seqZ 0 6;
    match nth_Z directions i with
    | Some (dx, dy, dz) =>
        if isFaceVisible W c x y z dx dy dz
        then [mkQuad blockType i x y z]
        else []
    | None => []
    end.

(** The quads [updateMesh] emits, in emission order. *)
Definition buildQuads (W : option World) (c : Chunk) : list Quad :=
  x ← seqZ 0 (size c);
  y ← seqZ 0 (height c);
  z ← seqZ 0 (size c);
  voxelQuads W c x y z.

(** [updateMesh]: the old geometry is cleared and replaced. *)
Definition updateMesh (W : option World) (c : Chunk) : Chunk :=
  mkChunk (chunkX c) (chunkZ c) (size c) (height c) (blocks c)
          (buildQuads W c) (simplex c) (S (meshBuilds c)).

(** [Chunk.setBlock]. [view c'] is the world behind [this.world] once this
    chunk object is in state [c']: the chunk in the map of its world is the
    object being mutated. *)
Definition Chunk_setBlock (view : Chunk -> option World) (c : Chunk)
    (x y z : Z) (type : BlockType) : Chunk :=
  if (x <? 0) || (x >=? size c) || (y <? 0) || (y >=? height c)
     || (z <? 0) || (z >=? size c)
  then c
  else
    let c1 := withBlocks c (setBlockAt (blocks c) x y z type) in
    updateMesh (view c1) c1.

(** ** Chunk.ts: construction and terrain generation *)

Section Generation.

(** [Math.random()]: the [n]-th call returns [random n]. *)
Variable random : nat -> Q.

(** [new Chunk(scene, textureManager, chunkX, chunkZ, size, height)]:
    the noise source is seeded by one draw, and the block array is filled
    with air. *)
Definition Chunk_new (chunkX chunkZ size height : Z) (n : nat) : Chunk * nat :=
  (mkChunk chunkX chunkZ size height
     (replicate (Z.to_nat size)
        (replicate (Z.to_nat height) (replicate (Z.to_nat size) AIR)))
     [] (SimplexNoise.new (random n)) 0,
   S n).

(** [getTerrainHeight] *)
Definition getTerrainHeight (c : Chunk) (x z : Z) : Q :=
  let largeScale := 0.01%Q in
  let largeMagnitude := 20%Q in
  let largeNoise :=
    (SimplexNoise.noise (simplex c) (inject_Z x * largeScale)
       (inject_Z z * largeScale) * largeMagnitude)%Q in
  let mediumScale := 0.05%Q in
  let mediumMagnitude := 10%Q in
  let mediumNoise :=
    (SimplexNoise.noise (simplex c) (inject_Z x * mediumScale)
       (inject_Z z * mediumScale) * mediumMagnitude)%Q in
  let smallScale := 0.2%Q in
  let smallMagnitude := 3%Q in
  let smallNoise :=
    (SimplexNoise.noise (simplex c) (inject_Z x * smallScale)
       (inject_Z z * smallScale) * smallMagnitude)%Q in
  let baseHeight := 10%Q in
  let terrainHeight :=
    (baseHeight + largeNoise + mediumNoise + smallNoise)%Q in
  Qmax 1 (Qmin (inject_Z (height c - 1)) (Qred terrainHeight)).

(** The chain of conditions in the [y] loop of [generate]: the kind written
    to [blocks[x][y][z]] for a column of terrain height [terrainHeight]. *)
Definition terrainBlock (y : Z) (terrainHeight : Q) : BlockType :=
  if y =? 0 then BEDROCK
  else if Qltb (inject_Z y) (terrainHeight - 4) then STONE
  else if Qltb (inject_Z y) (terrainHeight - 1) then DIRT
  else if y =? Qfloor (terrainHeight - 1) then
    if Qltb terrainHeight 12 then SAND
    else if Qltb 24 terrainHeight then STONE
    else GRASS
  else if (y <? 10) && Qltb terrainHeight 10 then WATER
  else AIR.

(** The [y] loop of [generate] for the column [(x, z)]. *)
Definition fillColumn (c : Chunk) (x z : Z) (terrainHeight : Q)
    (b : list (list (list BlockType))) : list (list (list BlockType)) :=
  fold_left (fun b y => setBlockAt b x y z (terrainBlock y terrainHeight))
            (seqZ 0 (height c)) b.

(** The leaves of [generateTree]: the three loops over the cube of radius
    [leafRadius]. [Math.sqrt(d) <= leafRadius] on the integer [d] is
    [d <= leafRadius * leafRadius]. *)
Definition treeLeaves (c : Chunk) (x y z trunkHeight : Z)
    (b : list (list (list BlockType))) : list (list (list BlockType)) :=
  let leafRadius := 2 in
  fold_left (fun b lX =>
    fold_left (fun b lY =>
      fold_left (fun b lZ =>
        if lX * lX + lY * lY + lZ * lZ <=? leafRadius * leafRadius then
          let worldX := x + lX in
          let worldY := y + trunkHeight + lY in
          let worldZ := z + lZ in
          if (worldX >=? 0) && (worldX <? size c)
             && (worldY >=? 0) && (worldY <? height c)
             && (worldZ >=? 0) && (worldZ <? size c)
          then
            if negb ((lX =? 0) && (lZ =? 0) && (lY <? 0))
            then setBlockAt b worldX worldY worldZ LEAVES
            else b
          else b
        else b)
        (seqZ (- leafRadius) (2 * leafRadius + 1)) b)
      (seqZ (- leafRadius) (2 * leafRadius + 1)) b)
    (seqZ (- leafRadius) (2 * leafRadius + 1)) b.

(** [generateTree] *)
Definition generateTree (c : Chunk) (x y z : Z)
    (st : list (list (list BlockType)) * nat)
    : list (list (list BlockType)) * nat :=
  let '(b, n) := st in
  if (x <? 2) || (x >=? size c - 2) || (z <? 2) || (z >=? size c - 2)
     || (y + 5 >=? height c)
  then (b, n)
  else
    let trunkHeight := 4 + Qfloor (random n * 3) in
    let b1 :=
      fold_left (fun b tY => setBlockAt b x (y + tY) z WOOD)
                (seqZ 0 trunkHeight) b in
    (treeLeaves c x y z trunkHeight b1, S n).

(** The body of the [x], [z] loops of [generate]. *)
Definition generateColumn (c : Chunk) (x z : Z)
    (st : list (list (list BlockType)) * nat)
    : list (list (list BlockType)) * nat :=
  let '(b, n) := st in
  let worldX := chunkX c * size c in
  let worldZ := chunkZ c * size c in
  let absX := worldX + x in
  let absZ := worldZ + z in
  let terrainHeight := getTerrainHeight c absX absZ in
  let b1 := fillColumn c x z terrainHeight b in
  if decide (blockAt b1 x (Qfloor (terrainHeight - 1)) z = GRASS) then
    if Qltb (random n) 0.02
    then generateTree c x (Qfloor terrainHeight) z (b1, S n)
    else (b1, S n)
  else (b1, n).

(** The block array [generate] leaves, before the mesh is built. *)
Definition generateBlocks (c : Chunk) (n : nat)
    : list (list (list BlockType)) * nat :=
  fold_left (fun st x =>
    fold_left (fun st z => generateColumn c x z st) (seqZ 0 (size c)) st)
    (seqZ 0 (size c)) (blocks c, n).

(** [generate]; [view] as in [Chunk_setBlock]. *)
Definition Chunk_generate (view : Chunk -> option World) (c : Chunk)
    (n : nat) : Chunk * nat :=
  let '(b, n') := generateBlocks c n in
  let c1 := withBlocks c b in
  (updateMesh (view c1) c1, n').

End Generation.

(** ** World.ts *)

(** [THREE.Vector3], as far as the sources use it. *)
Record Vector3 := mkVector3 { vx : Q; vy : Q; vz : Q }.

Definition Vector3_add (a b : Vector3) : Vector3 :=
  mkVector3 (vx a + vx b) (vy a + vy b) (vz a + vz b).
Definition Vector3_sub (a b : Vector3) : Vector3 :=
  mkVector3 (vx a - vx b) (vy a - vy b) (vz a - vz b).
Definition Vector3_multiplyScalar (a : Vector3) (s : Q) : Vector3 :=
  mkVector3 (vx a * s) (vy a * s) (vz a * s).

(** The result of [raycast]. *)
Record Hit := mkHit {
  position : Vector3;
  normal : Vector3;
  blockType : BlockType
}.

(** The world behind the back-reference of the chunk stored under [key], once
    that chunk object is in state [c]. *)
Definition self (w : World) (key : string) (c : Chunk) : option World :=
  Some (withChunk w key c).

(** [neighborChunk.updateMesh()] on the chunk object stored under [key]. *)
Definition updateMeshAt (w : World) (key : string) : World :=
  match chunks w !! key with
  | Some neighborChunk =>
      withChunk w key (updateMesh (self w key neighborChunk) neighborChunk)
  | None => w
  end.

(** [updateNeighborChunksIfNeeded] *)
Definition updateNeighborChunksIfNeeded (w : World) (x y z : Z) : World :=
  let localX := Z.rem x CHUNK_SIZE in
  let localZ := Z.rem z CHUNK_SIZE in
  if (localX =? 0) || (localX =? CHUNK_SIZE - 1)
     || (localZ =? 0) || (localZ =? CHUNK_SIZE - 1)
  then
    let directions := [ (-1, 0); (1, 0); (0, -1); (0, 1) ] in
    let chunkX := x / CHUNK_SIZE in
    let chunkZ := z / CHUNK_SIZE in
    fold_left
      (fun w d => updateMeshAt w (chunkKey (chunkX + d.1) (chunkZ + d.2)))
      directions w
  else w.

(** [World.setBlock] *)
Definition World_setBlock (w : World) (x y z : Z) (type : BlockType) : World :=
  if (y <? 0) || (y >=? WORLD_HEIGHT) then w
  else
    let chunkX := x / CHUNK_SIZE in
    let chunkZ := z / CHUNK_SIZE in
    let chunkKey := chunkKey chunkX chunkZ in
    match chunks w !! chunkKey with
    | None => w
    | Some chunk =>
        let localX := Z.rem x CHUNK_SIZE in
        let localZ := Z.rem z CHUNK_SIZE in
        let adjustedLocalX :=
          if localX <? 0 then localX + CHUNK_SIZE else localX in
        let adjustedLocalZ :=
          if localZ <? 0 then localZ + CHUNK_SIZE else localZ in
        let w1 :=
          withChunk w chunkKey
            (Chunk_setBlock (self w chunkKey) chunk
               adjustedLocalX y adjustedLocalZ type) in
        updateNeighborChunksIfNeeded w1 x y z
    end.

Section Raycast.

(** [THREE.Vector3.normalize], a method of the library. *)
Variable normalize : Vector3 -> Vector3.

(** The loop of [raycast], with [steps] iterations left. *)
Fixpoint raycastLoop (w : World) (ray : Vector3) (step : Q) (steps : nat)
    (currentPos : Vector3) : option Hit :=
  match steps with
  | O => None
  | S steps' =>
      let x := Qfloor (vx currentPos) in
      let y := Qfloor (vy currentPos) in
      let z := Qfloor (vz currentPos) in
      let blockType := World_getBlock w x y z in
      if decide (blockType <> AIR) then
        let previousPos :=
          Vector3_sub currentPos (Vector3_multiplyScalar ray step) in
        let dx := Qfloor (vx previousPos) - x in
        let dy := Qfloor (vy previousPos) - y in
        let dz := Qfloor (vz previousPos) - z in
        let normal := mkVector3 (inject_Z dx) (inject_Z dy) (inject_Z dz) in
        Some (mkHit (mkVector3 (inject_Z x) (inject_Z y) (inject_Z z))
                    normal blockType)
      else
        raycastLoop w ray step steps'
          (Vector3_add currentPos (Vector3_multiplyScalar ray step))
  end.

(** [World.raycast]. The loop [for (i = 0; i < maxSteps; i++)] runs
    [ceil(maxSteps)] times. *)
Definition raycast (w : World) (origin direction : Vector3)
    (maxDistance : Q) : option Hit :=
  let step := 0.1%Q in
  let maxSteps := (maxDistance / step)%Q in
  let ray := normalize direction in
  raycastLoop w ray step (Z.to_nat (Qceiling maxSteps)) origin.

End Raycast.

Section Streaming.

Variable random : nat -> Q.

(** [generateChunk]: the new chunk is put in the map before its terrain is
    generated. *)
Definition generateChunk (chunkX chunkZ : Z) (st : World * nat)
    : World * nat :=
  let '(w, n) := st in
  let chunkKey := chunkKey chunkX chunkZ in
  match chunks w !! chunkKey with
  | Some _ => (w, n)
  | None =>
      let '(chunk, n1) :=
        Chunk_new random chunkX chunkZ CHUNK_SIZE WORLD_HEIGHT n in
      let '(chunk', n2) :=
        Chunk_generate random (self w chunkKey) chunk n1 in
      (withChunk w chunkKey chunk', n2)
  end.

(** [generateInitialChunks], on the empty map of the constructor. *)
Definition generateInitialChunks (st : World * nat) : World * nat :=
  fold_left (fun st x =>
    fold_left (fun st z => generateChunk x z st)
      (seqZ (- RENDER_DISTANCE) (RENDER_DISTANCE - (- RENDER_DISTANCE) + 1))
      st)
    (seqZ (- RENDER_DISTANCE) (RENDER_DISTANCE - (- RENDER_DISTANCE) + 1))
    st.

(** The first loops of [update]: the set [requiredChunks] and the list
    [chunksToLoad]. *)
Definition requiredAndToLoad (w : World) (cx cz : Z)
    : gset string * list (Z * Z) :=
  fold_left (fun acc x =>
    fold_left (fun acc z =>
      let chunkKey := chunkKey x z in
      if decide (is_Some (chunks w !! chunkKey))
      then ({[ chunkKey ]} ∪ acc.1, acc.2)
      else ({[ chunkKey ]} ∪ acc.1, acc.2 ++ [(x, z)]))
      (seqZ (cz - RENDER_DISTANCE)
            (cz + RENDER_DISTANCE - (cz - RENDER_DISTANCE) + 1))
      acc)
    (seqZ (cx - RENDER_DISTANCE)
          (cx + RENDER_DISTANCE - (cx - RENDER_DISTANCE) + 1))
    (∅, []).

(** [World.update]. The last loop disposes and deletes every chunk whose
    key is not required; what stays in the map is the rest. *)
Definition World_update (playerPos : Vector3) (st : World * nat)
    : World * nat :=
  let '(w, n) := st in
  let currentPlayerChunkX := Qfloor (vx playerPos / inject_Z CHUNK_SIZE) in
  let currentPlayerChunkZ := Qfloor (vz playerPos / inject_Z CHUNK_SIZE) in
  let '(requiredChunks, chunksToLoad) :=
    requiredAndToLoad w currentPlayerChunkX currentPlayerChunkZ in
  let '(w1, n1) :=
    fold_left (fun st xz => generateChunk xz.1 xz.2 st) chunksToLoad (w, n) in
  (mkWorld (filter (fun kc => kc.1 ∈ requiredChunks) (chunks w1)), n1).

End Streaming.

(** ** Chunk.ts: the vertex data of [updateMesh] *)

(** One entry of the map [blockFaceGeometries]: the four arrays of a batch. *)
Record FaceGeometry := mkFaceGeometry {
  positions : list Q;
  normals : list Q;
  uvs : list Q;
  indices : list Z
}.

(** [{ positions: [], normals: [], uvs: [], indices: [] }] *)
Definition emptyGeometry : FaceGeometry := mkFaceGeometry [] [] [] [].

(** The tangent and the bitangent [updateMesh] picks for a direction, before
    they are scaled. *)
Definition faceTangents (dx dy : Z) : (Q * Q * Q) * (Q * Q * Q) :=
  if Qltb 0.5 (Qabs (inject_Z dy)) then ((1, 0, 0), (0, 0, 1))%Q
  else if Qltb 0.5 (Qabs (inject_Z dx)) then ((0, 0, 1), (0, 1, 0))%Q
  else ((1, 0, 0), (0, 1, 0))%Q.

(** The twelve numbers pushed to [geo.positions] for one face. *)
Definition facePositions (x y z dx dy dz : Z) : list Q :=
  let fx := (inject_Z x + 0.5 + inject_Z dx * 0.5)%Q in
  let fy := (inject_Z y + 0.5 + inject_Z dy * 0.5)%Q in
  let fz := (inject_Z z + 0.5 + inject_Z dz * 0.5)%Q in
  let '((tx, ty, tz), (bx, by', bz)) := faceTangents dx dy in
  let tx := (tx * 0.5)%Q in let ty := (ty * 0.5)%Q in
  let tz := (tz * 0.5)%Q in
  let bx := (bx * 0.5)%Q in let by' := (by' * 0.5)%Q in
  let bz := (bz * 0.5)%Q in
  if 0 <? dy then
    [ fx - tx - bx; fy; fz - tz - bz;
      fx + tx - bx; fy; fz + tz - bz;
      fx + tx + bx; fy; fz + tz + bz;
      fx - tx + bx; fy; fz - tz + bz ]%Q
  else if dy <? 0 then
    [ fx - tx - bx; fy; fz - tz - bz;
      fx - tx + bx; fy; fz - tz + bz;
      fx + tx + bx; fy; fz + tz + bz;
      fx + tx - bx; fy; fz + tz - bz ]%Q
  else
    [ fx - tx - bx; fy - ty - by'; fz - tz - bz;
      fx + tx - bx; fy + ty - by'; fz + tz - bz;
      fx + tx + bx; fy + ty + by'; fz + tz + bz;
      fx - tx + bx; fy - ty + by'; fz - tz + bz ]%Q.

(** The twelve numbers pushed to [geo.normals]. *)
Definition faceNormals (dx dy dz : Z) : list Q :=
  if Qltb 0.5 (Qabs (inject_Z dx)) then
    mjoin (replicate 4 [inject_Z dx; 0; 0]%Q)
  else if Qltb 0.5 (Qabs (inject_Z dy)) then
    mjoin (replicate 4 [0; inject_Z dy; 0]%Q)
  else
    mjoin (replicate 4 [0; 0; inject_Z dz]%Q).

(** The eight numbers pushed to [geo.uvs]. *)
Definition faceUvs (dy : Z) : list Q :=
  if 0 <? dy then [0; 0; 1; 0; 1; 1; 0; 1]%Q
  else if dy <? 0 then [0; 0; 0; 1; 1; 1; 1; 0]%Q
  else [0; 0; 1; 0; 1; 1; 0; 1]%Q.

(** The six numbers pushed to [geo.indices]. *)
Definition faceIndices (vOffset dy : Z) : list Z :=
  if 0 <? dy then
    [ vOffset; vOffset + 1; vOffset + 2; vOffset; vOffset + 2; vOffset + 3 ]
  else if dy <? 0 then
    [ vOffset; vOffset + 3; vOffset + 2; vOffset; vOffset + 2; vOffset + 1 ]
  else
    [ vOffset; vOffset + 1; vOffset + 2; vOffset; vOffset + 2; vOffset + 3 ].

(** What the body of the face loop of [updateMesh] appends to the batch [geo]
    for a visible face of the voxel [(x, y, z)]. [geo.positions.length / 3]
    is an integer: the length is a multiple of 12. *)
Definition pushFace (geo : FaceGeometry) (x y z dx dy dz : Z) : FaceGeometry :=
  let vOffset := Z.of_nat (length (positions geo)) / 3 in
  mkFaceGeometry
    (positions geo ++ facePositions x y z dx dy dz)
    (normals geo ++ faceNormals dx dy dz)
    (uvs geo ++ faceUvs dy)
    (indices geo ++ faceIndices vOffset dy).

(** [blockFaceGeometries], a [Map] in insertion order; the key
    [`${blockType}_${i}`] is the pair of its two parts. *)
Definition GeometryMap : Type := list ((BlockType * Z) * FaceGeometry).

(** [Map.get] *)
Fixpoint geometryGet (m : GeometryMap) (key : BlockType * Z)
    : option FaceGeometry :=
  match m with
  | [] => None
  | (k, geo) :: m' => if decide (k = key) then Some geo else geometryGet m' key
  end.

(** [Map.set]: an entry that exists keeps its place, a new one goes last. *)
Fixpoint geometrySet (m : GeometryMap) (key : BlockType * Z)
    (geo : FaceGeometry) : GeometryMap :=
  match m with
  | [] => [(key, geo)]
  | (k, g) :: m' =>
      if decide (k = key) then (k, geo) :: m'
      else (k, g) :: geometrySet m' key geo
  end.

(** The step of the face loop for one emitted quad. *)
Definition pushQuad (m : GeometryMap) (q : Quad) : GeometryMap :=
  match nth_Z directions (quadFace q) with
  | Some (dx, dy, dz) =>
      let geoKey := (quadBlock q, quadFace q) in
      let m1 :=
        match geometryGet m geoKey with
        | Some _ => m
        | None => geometrySet m geoKey emptyGeometry
        end in
      let geo := default emptyGeometry (geometryGet m1 geoKey) in
      geometrySet m1 geoKey
        (pushFace geo (quadX q) (quadY q) (quadZ q) dx dy dz)
  | None => m
  end.

(** The map [blockFaceGeometries] at the end of the loops of [updateMesh]. *)
Definition faceGeometries (W : option World) (c : Chunk) : GeometryMap :=
  fold_left pushQuad (buildQuads W c) [].

(** The batches that become meshes of the chunk group: the last loop of
    [updateMesh] skips a batch without positions. *)
Definition meshBatches (W : option World) (c : Chunk) : GeometryMap :=
  filter (fun kg => length (positions kg.2) <> 0%nat) (faceGeometries W c).

(** ** TextureManager: colours *)

Module TextureManager.

(** [lightenColor]; a colour is the integer [0xRRGGBB]. *)
Definition lightenColor (color percent : Z) : Z :=
  let r := Z.min 255 (Z.land (Z.shiftr color 16) 255 + percent) in
  let g := Z.min 255 (Z.land (Z.shiftr color 8) 255 + percent) in
  let b := Z.min 255 (Z.land color 255 + percent) in
  Z.lor (Z.lor (Z.shiftl r 16) (Z.shiftl g 8)) b.

(** [darkenColor] *)
Definition darkenColor (color percent : Z) : Z :=
  let r := Z.max 0 (Z.land (Z.shiftr color 16) 255 - percent) in
  let g := Z.max 0 (Z.land (Z.shiftr color 8) 255 - percent) in
  let b := Z.max 0 (Z.land color 255 - percent) in
  Z.lor (Z.lor (Z.shiftl r 16) (Z.shiftl g 8)) b.

(** The conversion of a colour to its three channels in
    [createColoredTexture] and [createBicolorTexture]. *)
Definition rgb (color : Z) : Z * Z * Z :=
  let r := Z.land (Z.shiftr color 16) 255 in
  let g := Z.land (Z.shiftr color 8) 255 in
  let b := Z.land color 255 in
  (r, g, b).

End TextureManager.

(** ** FirstPersonControls.ts *)

(** [THREE.Box3], as far as the sources use it: the two corners. *)
Module Box3.
Record t := mk { min : Vector3; max : Vector3 }.
End Box3.

Module FirstPersonControls.

(** The fields of [class FirstPersonControls] that the handlers below read
    or write. [yawPosition] is [yawObject.position]. The camera, the DOM
    element, the rotations of the camera rig and the field [direction]
    (written by [update] and never read) are not modelled. *)
Record t := mk {
  moveForward : bool;
  moveBackward : bool;
  moveLeft : bool;
  moveRight : bool;
  moveUp : bool;
  moveDown : bool;
  canJump : bool;
  velocity : Vector3;
  flyMode : bool;
  mouseLook : bool;
  selectedBlock : option Hit;
  selectedBlockType : BlockType;
  yawPosition : Vector3
}.

Definition gravity : Q := 9.8.
Definition playerHeight : Q := 1.8.
Definition jumpSpeed : Q := 5.
Definition playerWidth : Q := 0.6.
Definition MOVEMENT_SPEED : Q := 1.5.

(** The state the field initialisers and the constructor leave. *)
Definition new : t :=
  mk false false false false false false false
     (mkVector3 0 0 0) false false None DIRT (mkVector3 0 20 0).

Definition withVelocityY (s : t) (y : Q) : t :=
  mk (moveForward s) (moveBackward s) (moveLeft s) (moveRight s)
     (moveUp s) (moveDown s) (canJump s)
     (mkVector3 (vx (velocity s)) y (vz (velocity s)))
     (flyMode s) (mouseLook s) (selectedBlock s) (selectedBlockType s)
     (yawPosition s).

Definition withCanJump (s : t) (b : bool) : t :=
  mk (moveForward s) (moveBackward s) (moveLeft s) (moveRight s)
     (moveUp s) (moveDown s) b (velocity s)
     (flyMode s) (mouseLook s) (selectedBlock s) (selectedBlockType s)
     (yawPosition s).

Definition withMoves (s : t) (f b l r u d : bool) : t :=
  mk f b l r u d (canJump s) (velocity s)
     (flyMode s) (mouseLook s) (selectedBlock s) (selectedBlockType s)
     (yawPosition s).

Definition withFlyMode (s : t) (b : bool) : t :=
  mk (moveForward s) (moveBackward s) (moveLeft s) (moveRight s)
     (moveUp s) (moveDown s) (canJump s) (velocity s)
     b (mouseLook s) (selectedBlock s) (selectedBlockType s)
     (yawPosition s).

Definition withSelectedBlockType (s : t) (k : BlockType) : t :=
  mk (moveForward s) (moveBackward s) (moveLeft s) (moveRight s)
     (moveUp s) (moveDown s) (canJump s) (velocity s)
     (flyMode s) (mouseLook s) (selectedBlock s) k (yawPosition s).

(** [onPointerLockChange]; [locked] is
    [document.pointerLockElement === this.domElement]. *)
Definition onPointerLockChange (locked : bool) (s : t) : t :=
  mk (moveForward s) (moveBackward s) (moveLeft s) (moveRight s)
     (moveUp s) (moveDown s) (canJump s) (velocity s)
     (flyMode s) (if locked then true else false)
     (selectedBlock s) (selectedBlockType s) (yawPosition s).

(** The table [blockTypes] of [onKeyDown]. *)
Definition blockTypes : list BlockType :=
  [DIRT; GRASS; STONE; WOOD; LEAVES; WATER; SAND; GLASS; BRICK].

(** [parseInt(event.code.replace('Digit', ''))] on the nine case labels
    ['Digit1'] to ['Digit9']; [None] on any other code. *)
Definition digitIndex (code : string) : option Z :=
  if String.eqb code "Digit1" then Some 1
  else if String.eqb code "Digit2" then Some 2
  else if String.eqb code "Digit3" then Some 3
  else if String.eqb code "Digit4" then Some 4
  else if String.eqb code "Digit5" then Some 5
  else if String.eqb code "Digit6" then Some 6
  else if String.eqb code "Digit7" then Some 7
  else if String.eqb code "Digit8" then Some 8
  else if String.eqb code "Digit9" then Some 9
  else None.

(** [onKeyDown]; [code] is [event.code]. *)
Definition onKeyDown (code : string) (s : t) : t :=
  if String.eqb code "KeyW" then
    withMoves s true (moveBackward s) (moveLeft s) (moveRight s)
              (moveUp s) (moveDown s)
  else if String.eqb code "KeyS" then
    withMoves s (moveForward s) true (moveLeft s) (moveRight s)
              (moveUp s) (moveDown s)
  else if String.eqb code "KeyA" then
    withMoves s (moveForward s) (moveBackward s) true (moveRight s)
              (moveUp s) (moveDown s)
  else if String.eqb code "KeyD" then
    withMoves s (moveForward s) (moveBackward s) (moveLeft s) true
              (moveUp s) (moveDown s)
  else if String.eqb code "Space" then
    let s1 :=
      if canJump s && negb (flyMode s)
      then withCanJump (withVelocityY s jumpSpeed) false
      else s in
    if flyMode s1
    then withMoves s1 (moveForward s1) (moveBackward s1) (moveLeft s1)
                   (moveRight s1) true (moveDown s1)
    else s1
  else if String.eqb code "ShiftLeft" then
    if flyMode s
    then withMoves s (moveForward s) (moveBackward s) (moveLeft s)
                   (moveRight s) (moveUp s) true
    else s
  else if String.eqb code "KeyF" then
    let s1 := withFlyMode s (negb (flyMode s)) in
    if flyMode s1 then withVelocityY s1 0 else s1
  else
    match digitIndex code with
    | Some index =>
        if index <=? Z.of_nat (length blockTypes)
        then withSelectedBlockType s
               (default (selectedBlockType s) (nth_Z blockTypes (index - 1)))
        else s
    | None => s
    end.

(** [onKeyUp] *)
Definition onKeyUp (code : string) (s : t) : t :=
  if String.eqb code "KeyW" then
    withMoves s false (moveBackward s) (moveLeft s) (moveRight s)
              (moveUp s) (moveDown s)
  else if String.eqb code "KeyS" then
    withMoves s (moveForward s) false (moveLeft s) (moveRight s)
              (moveUp s) (moveDown s)
  else if String.eqb code "KeyA" then
    withMoves s (moveForward s) (moveBackward s) false (moveRight s)
              (moveUp s) (moveDown s)
  else if String.eqb code "KeyD" then
    withMoves s (moveForward s) (moveBackward s) (moveLeft s) false
              (moveUp s) (moveDown s)
  else if String.eqb code "Space" then
    withMoves s (moveForward s) (moveBackward s) (moveLeft s) (moveRight s)
              false (moveDown s)
  else if String.eqb code "ShiftLeft" then
    withMoves s (moveForward s) (moveBackward s) (moveLeft s) (moveRight s)
              (moveUp s) false
  else s.

(** [this.world.setBlock(v.x, v.y, v.z, type)] for a vector whose
    components hold integers. *)
Definition setBlockAtVector (w : World) (v : Vector3) (type : BlockType)
    : World :=
  World_setBlock w (Qfloor (vx v)) (Qfloor (vy v)) (Qfloor (vz v)) type.

Section MouseDown.

(** [THREE.Box3.intersectsBox], a method of the library. *)
Variable intersectsBox : Box3.t -> Box3.t -> bool.

(** [onMouseDown]; [button] is [event.button]. The handler changes the
    world and leaves the controls as they are. *)
Definition onMouseDown (button : Z) (s : t) (w : World) : World :=
  if negb (mouseLook s) then w
  else
    let w1 :=
      if button =? 0 then
        match selectedBlock s with
        | Some sb => setBlockAtVector w (position sb) AIR
        | None => w
        end
      else w in
    if button =? 2 then
      match selectedBlock s with
      | Some sb =>
          let newPos := Vector3_add (position sb) (normal sb) in
          let playerPos := yawPosition s in
          let playerBoundingBox :=
            Box3.mk
              (mkVector3 (vx playerPos - 0.3) (vy playerPos - playerHeight)
                         (vz playerPos - 0.3))
              (mkVector3 (vx playerPos + 0.3) (vy playerPos)
                         (vz playerPos + 0.3)) in
          let blockBoundingBox :=
            Box3.mk
              (mkVector3 (vx newPos) (vy newPos) (vz newPos))
              (mkVector3 (vx newPos + 1) (vy newPos + 1) (vz newPos + 1)) in
          if negb (intersectsBox playerBoundingBox blockBoundingBox)
          then setBlockAtVector w1 newPos (selectedBlockType s)
          else w1
      | None => w1
      end
    else w1.

End MouseDown.

(** The test of [checkBlockCollision] on a block kind. *)
Definition blocksMovement (blockType : BlockType) : bool :=
  bool_decide (blockType <> AIR) && bool_decide (blockType <> WATER)
  && bool_decide (blockType <> GLASS) && bool_decide (blockType <> LEAVES).

(** The points [checkBlockCollision] probes: the eight corners of the
    player's box and the point below the feet. *)
Definition corners (position : Vector3) : list Vector3 :=
  let halfWidth := (playerWidth * 0.5)%Q in
  let halfHeight := (playerHeight * 0.5)%Q in
  [ mkVector3 (vx position - halfWidth) (vy position - halfHeight)
              (vz position - halfWidth);
    mkVector3 (vx position - halfWidth) (vy position - halfHeight)
              (vz position + halfWidth);
    mkVector3 (vx position + halfWidth) (vy position - halfHeight)
              (vz position - halfWidth);
    mkVector3 (vx position + halfWidth) (vy position - halfHeight)
              (vz position + halfWidth);
    mkVector3 (vx position - halfWidth) (vy position + halfHeight)
              (vz position - halfWidth);
    mkVector3 (vx position - halfWidth) (vy position + halfHeight)
              (vz position + halfWidth);
    mkVector3 (vx position + halfWidth) (vy position + halfHeight)
              (vz position - halfWidth);
    mkVector3 (vx position + halfWidth) (vy position + halfHeight)
              (vz position + halfWidth) ]
  ++ [ mkVector3 (vx position) (vy position - halfHeight - 0.1)
                 (vz position) ].

(** [checkBlockCollision] *)
Definition checkBlockCollision (w : World) (position : Vector3) : bool :=
  existsb (fun corner =>
    let blockX := Qfloor (vx corner) in
    let blockY := Qfloor (vy corner) in
    let blockZ := Qfloor (vz corner) in
    let blockType := World_getBlock w blockX blockY blockZ in
    blocksMovement blockType) (corners position).

Definition withMotion (s : t) (canJump : bool) (velocity yawPosition : Vector3)
    : t :=
  mk (moveForward s) (moveBackward s) (moveLeft s) (moveRight s)
     (moveUp s) (moveDown s) canJump velocity
     (flyMode s) (mouseLook s) (selectedBlock s) (selectedBlockType s)
     yawPosition.

(** [handleCollisions] *)
Definition handleCollisions (w : World) (delta : Q) (s : t) : t :=
  let playerPos := yawPosition s in
  let originalX := vx playerPos in
  let originalY := vy playerPos in
  let originalZ := vz playerPos in
  let v := velocity s in
  (* X *)
  let posX := mkVector3 (vx playerPos + vx v * delta) (vy playerPos)
                        (vz playerPos) in
  let '(playerPos, v) :=
    if checkBlockCollision w posX
    then (mkVector3 originalX (vy posX) (vz posX),
          mkVector3 0 (vy v) (vz v))
    else (posX, v) in
  (* Z *)
  let posZ := mkVector3 (vx playerPos) (vy playerPos)
                        (vz playerPos + vz v * delta) in
  let '(playerPos, v) :=
    if checkBlockCollision w posZ
    then (mkVector3 (vx posZ) (vy posZ) originalZ,
          mkVector3 (vx v) (vy v) 0)
    else (posZ, v) in
  (* Y *)
  let posY := mkVector3 (vx playerPos) (vy playerPos + vy v * delta)
                        (vz playerPos) in
  if checkBlockCollision w posY then
    let canJump' := if Qltb (vy v) 0 then true else canJump s in
    withMotion s canJump' (mkVector3 (vx v) 0 (vz v))
               (mkVector3 (vx posY) originalY (vz posY))
  else
    let canJump' :=
      if negb (flyMode s) && negb (Qeq_bool (vy v) 0)
      then false else canJump s in
    withMotion s canJump' v posY.

(** [getPosition] *)
Definition getPosition (s : t) : Vector3 := yawPosition s.

End FirstPersonControls.

(** ** Sky.ts *)

Module Sky.

(** The positions of the children of [this.clouds]. The texture, the
    material and the rotation of a cloud are not modelled. *)
Record t := mk { clouds : list Vector3 }.

Section Clouds.

Variable random : nat -> Q.



End Clouds.



End Sky.

(** ** main.ts *)

Module Game.

(** The loop of [positionPlayerAboveTerrain] (the version that spawns at the
    centre of the first chunk) from [checkY] down to [0]: the first height
    whose block is neither air nor water nor leaves. *)
Fixpoint findSurface (w : World) (x z : Z) (steps : nat) (checkY : Z)
    : option Z :=
  match steps with
  | O => None
  | S steps' =>
      let blockType := World_getBlock w x checkY z in
      if bool_decide (blockType <> AIR) && bool_decide (blockType <> WATER)
         && bool_decide (blockType <> LEAVES)
      then Some checkY
      else findSurface w x z steps' (checkY - 1)
  end.

(** [positionPlayerAboveTerrain]: the position given to the player. *)
Definition positionPlayerAboveTerrain (w : World) : Vector3 :=
  let x := 8 in
  let z := 8 in
  let y :=
    match findSurface w x z 101 100 with
    | Some checkY => checkY + 2
    | None => 20
    end in
  mkVector3 (inject_Z x) (inject_Z y) (inject_Z z).

End Game.

(** * Notions used to state the properties *)

(** ** Coordinates *)

(** The decomposition [getBlock] and [setBlock] compute inline: the chunk
    coordinate [Math.floor(x / CHUNK_SIZE)] and the adjusted local coordinate
    [Math.floor(x % CHUNK_SIZE)], plus [CHUNK_SIZE] when negative. *)
Definition chunkOf (x : Z) : Z := x / CHUNK_SIZE.

Definition localOf (x : Z) : Z :=
  let localX := Z.rem x CHUNK_SIZE in
  if localX <? 0 then localX + CHUNK_SIZE else localX.

(** A string without a comma, as the decimal rendering of an integer is. *)
Fixpoint commaFree (s : string) : bool :=
  match s with
  | EmptyString => true
  | String a s' => negb (Ascii.eqb a ","%char) && commaFree s'
  end.

(** ** Well-formed block arrays, chunks and worlds *)

(** The shape the constructor gives [blocks]: [size] planes of [height] rows
    of [size] cells. *)
Definition wfBlocks (size height : Z) (b : list (list (list BlockType)))
    : Prop :=
  length b = Z.to_nat size
  /\ Forall (fun plane =>
       length plane = Z.to_nat height
       /\ Forall (fun row : list BlockType => length row = Z.to_nat size) plane)
     b.

Global Instance wfBlocks_dec size height b : Decision (wfBlocks size height b).
Proof. unfold wfBlocks. apply _. Defined.

(** A chunk as [generateChunk] stores it: under the key of its own
    coordinates, with the dimensions of the world. *)
Definition chunkOk (key : string) (c : Chunk) : Prop :=
  key = chunkKey (chunkX c) (chunkZ c)
  /\ size c = CHUNK_SIZE
  /\ height c = WORLD_HEIGHT
  /\ wfBlocks (size c) (height c) (blocks c).

Global Instance chunkOk_dec key c : Decision (chunkOk key c).
Proof. unfold chunkOk. apply _. Defined.

Definition wfWorld (w : World) : Prop := map_Forall chunkOk (chunks w).

Global Instance wfWorld_dec w : Decision (wfWorld w).
Proof. unfold wfWorld. apply _. Defined.

(** The authoritative state of a chunk: everything but the derived geometry
    and the ghost counter. *)
Definition voxelData (c : Chunk)
    : Z * Z * Z * Z * list (list (list BlockType)) * SimplexNoise.t :=
  (chunkX c, chunkZ c, size c, height c, blocks c, simplex c).

Definition sameVoxels (w w' : World) : Prop :=
  forall k, voxelData <$> (chunks w !! k) = voxelData <$> (chunks w' !! k).

(** ** Streaming *)

(** A chunk that [generateChunk] has just created for [(x, z)]: a new chunk
    object, seeded by a draw, whose terrain and mesh were generated while it
    sat in the map of some world. *)
Definition freshlyGenerated (random : nat -> Q) (x z : Z) (c : Chunk) : Prop :=
  exists (w0 : World) (n0 : nat),
    c = (Chunk_generate random (self w0 (chunkKey x z))
           (Chunk_new random x z CHUNK_SIZE WORLD_HEIGHT n0).1 (S n0)).1.

(** The loop [chunksToLoad.forEach(generateChunk)] of [update]. *)
Definition loadChunks (random : nat -> Q) (l : list (Z * Z))
    (st : World * nat) : World * nat :=
  fold_left (fun st xz => generateChunk random xz.1 xz.2 st) l st.

(** The chunk coordinate of the observer, as [update] computes it. *)
Definition playerChunkX (p : Vector3) : Z :=
  Qfloor (vx p / inject_Z CHUNK_SIZE).
Definition playerChunkZ (p : Vector3) : Z :=
  Qfloor (vz p / inject_Z CHUNK_SIZE).

(** Chebyshev distance at most [RENDER_DISTANCE] from the chunk of the
    observer. *)
Definition withinRenderDistance (p : Vector3) (x z : Z) : Prop :=
  Z.max (Z.abs (x - playerChunkX p)) (Z.abs (z - playerChunkZ p))
  <= RENDER_DISTANCE.

(** The body of the inner loop of [requiredAndToLoad]. *)
Definition requiredStep (w : World) (x : Z)
    (acc : gset string * list (Z * Z)) (z : Z) : gset string * list (Z * Z) :=
  if decide (is_Some (chunks w !! chunkKey x z))
  then ({[ chunkKey x z ]} ∪ acc.1, acc.2)
  else ({[ chunkKey x z ]} ∪ acc.1, acc.2 ++ [(x, z)]).

(** The states of a world and of [Math.random()] that the constructor,
    [setBlock] and [update] lead to. *)
Inductive reachable (random : nat -> Q) : World * nat -> Prop :=
  | reachable_new n :
      reachable random (generateInitialChunks random (mkWorld ∅, n))
  | reachable_setBlock w n x y z k :
      reachable random (w, n) ->
      reachable random (World_setBlock w x y z k, n)
  | reachable_update w n p :
      reachable random (w, n) ->
      reachable random (World_update random p (w, n)).

(** ** Mesh rebuilds *)

(** The number of [updateMesh] calls the chunk object under [key] has seen. *)
Definition builds (w : World) (key : string) : option nat :=
  meshBuilds <$> chunks w !! key.

(** The chunk under [key] was remeshed between [w] and [w']. *)
Definition rebuiltBetween (w w' : World) (key : string) : Prop :=
  exists n n', builds w key = Some n /\ builds w' key = Some n'
               /\ (n < n')%nat.

(** The test of [updateNeighborChunksIfNeeded], on the unadjusted
    remainders. *)
Definition onChunkBoundary (x z : Z) : bool :=
  let localX := Z.rem x CHUNK_SIZE in
  let localZ := Z.rem z CHUNK_SIZE in
  (localX =? 0) || (localX =? CHUNK_SIZE - 1)
  || (localZ =? 0) || (localZ =? CHUNK_SIZE - 1).

(** The keys [updateNeighborChunksIfNeeded] looks up, in its order. *)
Definition neighborKeys (cx cz : Z) : list string :=
  [ chunkKey (cx + -1) (cz + 0); chunkKey (cx + 1) (cz + 0);
    chunkKey (cx + 0) (cz + -1); chunkKey (cx + 0) (cz + 1) ].

(** C4 as the specification states it, for one write: the west neighbour is
    remeshed if loaded, and no loaded chunk other than the two chunks that
    share the edge is remeshed. *)
Definition boundaryClaimAsStated (w : World) (x y z : Z) (k : BlockType)
    : Prop :=
  0 <= y < WORLD_HEIGHT ->
  is_Some (chunks w !! chunkKey (chunkOf x) (chunkOf z)) ->
  localOf x = 0 ->
  let w' := World_setBlock w x y z k in
  (is_Some (chunks w !! chunkKey (chunkOf x - 1) (chunkOf z)) ->
   rebuiltBetween w w' (chunkKey (chunkOf x - 1) (chunkOf z)))
  /\ (forall cx cz,
        is_Some (chunks w !! chunkKey cx cz) ->
        (cx, cz) <> (chunkOf x, chunkOf z) ->
        (cx, cz) <> (chunkOf x - 1, chunkOf z) ->
        ~ rebuiltBetween w w' (chunkKey cx cz)).

(** ** Geometry *)

(** The quads of face [i] of the local voxel [(x, y, z)]. *)
Definition quadAt (i x y z : Z) (q : Quad) : Prop :=
  quadFace q = i /\ quadX q = x /\ quadY q = y /\ quadZ q = z.

Global Instance quadAt_dec i x y z q : Decision (quadAt i x y z q).
Proof. unfold quadAt. apply _. Defined.

(** The quads that the geometry of a world holds for face [i] of the world
    voxel [(x, y, z)]: those of the mesh [updateMesh] builds for the chunk
    that owns the voxel. *)
Definition emittedQuads (w : World) (x y z i : Z) : list Quad :=
  let key := chunkKey (chunkOf x) (chunkOf z) in
  match chunks w !! key with
  | None => []
  | Some c =>
      filter (quadAt i (localOf x) y (localOf z))
             (mesh (updateMesh (self w key c) c))
  end.

(** The index in [directions] of the opposite direction. *)
Definition oppositeFace (i : Z) : Z :=
  if i =? 0 then 1 else if i =? 1 then 0
  else if i =? 2 then 3 else if i =? 3 then 2
  else if i =? 4 then 5 else 4.

(** The two branches of [isFaceVisible] apply one rule to the kind of the
    voxel and the kind of its neighbour. *)
Definition visibleAgainst (current adjacent : BlockType) : bool :=
  bool_decide (adjacent = AIR)
  || (bool_decide (current <> adjacent) && isTransparent adjacent).

(** ** The ray of the flat-column scenario *)

(** Straight down from [(0.5, 60, 0.5)]. *)
Definition downRay : Vector3 := mkVector3 0 (-1) 0.
Definition columnOrigin : Vector3 := mkVector3 0.5 60 0.5.

(** The position after [i] steps of [0.1] down the ray, up to the
    representation of the fractions. *)
Definition onColumnRay (i : nat) (pos : Vector3) : Prop :=
  (vx pos == 1 # 2)%Q
  /\ (vy pos == 60 - inject_Z (Z.of_nat i) / 10)%Q
  /\ (vz pos == 1 # 2)%Q.

(** C7 as the specification states it, for one world and one maximum
    distance. *)
Definition flatColumnClaimAsStated (normalize : Vector3 -> Vector3)
    (w : World) (maxDistance : Q) : Prop :=
  (forall y, 0 <= y < WORLD_HEIGHT ->
     World_getBlock w 0 y 0 = if y =? 50 then AIR else STONE) ->
  raycast normalize w columnOrigin downRay maxDistance =
  Some (mkHit (mkVector3 0 49 0) (mkVector3 0 1 0) STONE).

(** ** Terrain *)

(** The block array of a fresh chunk after [generate]: the chunk is built by
    the constructor at draw [n] (the seed of its noise source) and generated
    from draw [S n] on. *)
Definition generatedBlocks (random : nat -> Q) (chunkX chunkZ size height : Z)
    (n : nat) : list (list (list BlockType)) :=
  (generateBlocks random (Chunk_new random chunkX chunkZ size height n).1
     (S n)).1.

(** Two generation states that hold the same blocks and have consumed the
    same number of draws since [n1], respectively [n2]. *)
Definition inStep (n1 n2 : nat)
    (st1 st2 : list (list (list BlockType)) * nat) : Prop :=
  st1.1 = st2.1 /\ exists k, st1.2 = (n1 + k)%nat /\ st2.2 = (n2 + k)%nat.

(** Two generation states that hold the same blocks, past the draws [n1],
    respectively [n2], whatever the number of draws consumed. *)
Definition sameBlocksAfter (n1 n2 : nat)
    (st1 st2 : list (list (list BlockType)) * nat) : Prop :=
  st1.1 = st2.1 /\ (n1 < st1.2)%nat /\ (n2 < st2.2)%nat.

(** C1 as the specification states it: with the same seed for the noise
    source and the same chunk coordinates, the voxel arrays are the same,
    whatever else [Math.random()] returns. *)
Definition generationClaimAsStated (random1 random2 : nat -> Q)
    (chunkX chunkZ : Z) (n1 n2 : nat) : Prop :=
  random1 n1 = random2 n2 ->
  generatedBlocks random1 chunkX chunkZ CHUNK_SIZE WORLD_HEIGHT n1
  = generatedBlocks random2 chunkX chunkZ CHUNK_SIZE WORLD_HEIGHT n2.

(** The surface rule of the specification: sand below 12, stone above 24,
    grass otherwise. *)
Definition surfaceBlock (terrainHeight : Q) : BlockType :=
  if Qltb terrainHeight 12 then SAND
  else if Qltb 24 terrainHeight then STONE
  else GRASS.

(** ** Concrete worlds *)

Module Examples.

(** [Math.random()] returning [1009/32768] first (the seed of the noise
    source of the first chunk) and [1/2] ever after: no tree is planted. *)
Definition drawsNoTree (n : nat) : Q :=
  match n with O => 1009 # 32768 | S _ => 1 # 2 end.

(** The same seed, and [3/4] ever after. *)
Definition drawsNoTree' (n : nat) : Q :=
  match n with O => 1009 # 32768 | S _ => 3 # 4 end.

(** The same seed, and [0] ever after: every grass column that can hold a
    tree gets one, with a trunk of height 4. *)
Definition drawsTrees (n : nat) : Q :=
  match n with O => 1009 # 32768 | S _ => 0 end.

(** A chunk as the constructor leaves it: all air, no geometry yet. *)
Definition airChunk (chunkX chunkZ : Z) : Chunk :=
  (Chunk_new drawsNoTree chunkX chunkZ CHUNK_SIZE WORLD_HEIGHT 0).1.

(** Three loaded chunks in a row, all air. *)
Definition airWorld : World :=
  mkWorld (<[chunkKey (-1) 0 := airChunk (-1) 0]>
           (<[chunkKey 0 0 := airChunk 0 0]>
            (<[chunkKey 1 0 := airChunk 1 0]> ∅))).

(** The chunk [(0, 0)] with the column [(0, _, 0)] filled by [kind]. *)
Definition columnChunk (kind : Z -> BlockType) : Chunk :=
  withBlocks (airChunk 0 0)
    (fold_left (fun b y => setBlockAt b 0 y 0 (kind y))
               (seqZ 0 WORLD_HEIGHT) (blocks (airChunk 0 0))).

(** The column of the scenario as the specification words it: stone at
    every height but [y = 50]. *)
Definition stoneColumnWorld : World :=
  mkWorld {[ chunkKey 0 0 :=
               columnChunk (fun y => if y =? 50 then AIR else STONE) ]}.

(** Stone below [y = 50], air from there up. *)
Definition groundColumnWorld : World :=
  mkWorld {[ chunkKey 0 0 :=
               columnChunk (fun y => if y <? 50 then STONE else AIR) ]}.

(** [normalize] on the vectors of length 1, which it leaves as they are. *)
Definition normalizeUnit (v : Vector3) : Vector3 := v.

End Examples.

(** ** The noise source and terrain generation *)

(** The seeds on which the bit operations of [seed] stay in the range of
    32-bit integers and yield non-negative table entries. *)
Definition seedInRange (s : Q) : Prop := (0 <= s)%Q /\ (s < 2147483648)%Q.

(** [Math.random()] returns values in [[0, 1)]. *)
Definition unitDraws (random : nat -> Q) : Prop :=
  forall n, (0 <= random n)%Q /\ (random n < 1)%Q.

(** The terrain height [generate] computes for the column [(x, z)] of a
    chunk. *)
Definition columnHeight (c : Chunk) (x z : Z) : Q :=
  getTerrainHeight c (chunkX c * size c + x) (chunkZ c * size c + z).

(** A column in which [generateTree] plants a tree: at least two columns
    away from every side of the chunk. *)
Definition treeSite (c : Chunk) (x z : Z) : Prop :=
  2 <= x < size c - 2 /\ 2 <= z < size c - 2.

(** The column [(x, z)] is visited by the loops of [generate] together with
    the column [(x0, z0)] or after it. *)
Definition columnOrder (x0 z0 x z : Z) : Prop :=
  x0 < x \/ (x0 = x /\ z0 <= z).

(** Wood or leaves at [(x0, y0, z0)], written by a tree of a column that is
    visited no earlier and lies at most two columns away. *)
Definition treeCell (c : Chunk) (x0 y0 z0 : Z) (k : BlockType) : Prop :=
  (k = WOOD \/ k = LEAVES) /\ 1 <= y0 <= 84
  /\ exists x z, treeSite c x z /\ columnOrder x0 z0 x z
                 /\ Z.abs (x - x0) <= 2 /\ Z.abs (z - z0) <= 2.

(** What a voxel of a generated chunk can hold. *)
Definition generatedCell (c : Chunk) (x0 y0 z0 : Z) (k : BlockType) : Prop :=
  k = terrainBlock y0 (columnHeight c x0 z0) \/ treeCell c x0 y0 z0 k.

(** The array [b'] is [b] with wood or leaves written to some of the voxels
    that satisfy [P]. *)
Definition paints (P : Z -> Z -> Z -> Prop)
    (b b' : list (list (list BlockType))) : Prop :=
  forall x y z,
    blockAt b' x y z = blockAt b x y z
    \/ (P x y z /\ (blockAt b' x y z = WOOD \/ blockAt b' x y z = LEAVES)).

(** The voxels a tree planted at [(x, y, z)] can write to. *)
Definition treeBox (c : Chunk) (x y z : Z) : Z -> Z -> Z -> Prop :=
  fun x' y' z' =>
    treeSite c x z /\ Z.abs (x - x') <= 2 /\ Z.abs (z - z') <= 2
    /\ y <= y' <= y + 8.

(** ** Streaming, continued *)

(** The chunk map holds exactly the chunks within [RENDER_DISTANCE] of the
    chunk [(cx, cz)]. *)
Definition settledAround (w : World) (cx cz : Z) : Prop :=
  forall k, is_Some (chunks w !! k) <->
    exists x z, k = chunkKey x z
                /\ Z.max (Z.abs (x - cx)) (Z.abs (z - cz)) <= RENDER_DISTANCE.

(** The chunk coordinates [generateInitialChunks] visits, in its order. *)
Definition initialCoordinates : list (Z * Z) :=
  x ← seqZ (- RENDER_DISTANCE) (RENDER_DISTANCE - (- RENDER_DISTANCE) + 1);
  z ← seqZ (- RENDER_DISTANCE) (RENDER_DISTANCE - (- RENDER_DISTANCE) + 1);
  [(x, z)].

(** ** Stored geometry *)


(** ** Ray casts, in general *)

(** The position of the ray marcher after [i] steps. *)
Definition rayPoint (ray : Vector3) (step : Q) (origin : Vector3) (i : nat)
    : Vector3 :=
  Nat.iter i (fun p => Vector3_add p (Vector3_multiplyScalar ray step)) origin.

(** The voxel a point lies in, and the block kind the world holds there. *)
Definition voxelOf (p : Vector3) : Z * Z * Z :=
  (Qfloor (vx p), Qfloor (vy p), Qfloor (vz p)).

Definition kindAt (w : World) (v : Z * Z * Z) : BlockType :=
  World_getBlock w v.1.1 v.1.2 v.2.

(** The result [raycast] builds for a hit at the point [p]. *)
Definition hitAt (w : World) (ray : Vector3) (step : Q) (p : Vector3) : Hit :=
  let previousPos := Vector3_sub p (Vector3_multiplyScalar ray step) in
  mkHit (mkVector3 (inject_Z (Qfloor (vx p))) (inject_Z (Qfloor (vy p)))
                   (inject_Z (Qfloor (vz p))))
        (mkVector3 (inject_Z (Qfloor (vx previousPos) - Qfloor (vx p)))
                   (inject_Z (Qfloor (vy previousPos) - Qfloor (vy p)))
                   (inject_Z (Qfloor (vz previousPos) - Qfloor (vz p))))
        (kindAt w (voxelOf p)).

(** The number of iterations of the loop of [raycast]. *)
Definition raySteps (maxDistance : Q) : nat :=
  Z.to_nat (Qceiling (maxDistance / 0.1)).

(** ** Controls *)

(** The states of the controls that the constructor and the handlers lead
    to. *)
Inductive controlsReachable : FirstPersonControls.t -> Prop :=
  | controls_new : controlsReachable FirstPersonControls.new
  | controls_keyDown code s :
      controlsReachable s ->
      controlsReachable (FirstPersonControls.onKeyDown code s)
  | controls_keyUp code s :
      controlsReachable s ->
      controlsReachable (FirstPersonControls.onKeyUp code s)
  | controls_pointerLock locked s :
      controlsReachable s ->
      controlsReachable (FirstPersonControls.onPointerLockChange locked s)
  | controls_collisions w delta s :
      controlsReachable s ->
      controlsReachable (FirstPersonControls.handleCollisions w delta s).

(** ** Vertex data *)

(** The batch key of a quad. *)
Definition quadKey (q : Quad) : BlockType * Z := (quadBlock q, quadFace q).

(** The number of quads of a batch. *)
Definition quadCount (key : BlockType * Z) (qs : list Quad) : nat :=
  length (filter (fun q => quadKey q = key) qs).

(** A batch that holds [n] quads: four vertices and two triangles each, and
    indices that point at its own vertices. *)
Definition batchOf (n : nat) (geo : FaceGeometry) : Prop :=
  length (positions geo) = (12 * n)%nat
  /\ length (normals geo) = (12 * n)%nat
  /\ length (uvs geo) = (8 * n)%nat
  /\ length (indices geo) = (6 * n)%nat
  /\ Forall (fun i => 0 <= i < 4 * Z.of_nat n) (indices geo).

(** What the map holds under [key] once the quads [qs] are pushed. *)
Definition batchesOf (qs : list Quad) (m : GeometryMap) : Prop :=
  NoDup m.*1
  /\ forall key,
       match geometryGet m key with
       | Some geo => (0 < quadCount key qs)%nat /\ batchOf (quadCount key qs) geo
       | None => quadCount key qs = 0%nat
       end.

(** The vertices of a position or normal array: its numbers three by
    three. *)
Fixpoint vertices (l : list Q) : list (Q * Q * Q) :=
  match l with
  | a :: b :: c :: l' => (a, b, c) :: vertices l'
  | _ => []
  end.

(** A coordinate of a corner of the unit cube at [c]: on the side the
    direction [d] points to, or on either side when [d] is [0]. *)
Definition cornerOn (c d : Z) (p : Q) : Prop :=
  if d =? 0 then (p == inject_Z c)%Q \/ (p == inject_Z c + 1)%Q
  else if 0 <? d then (p == inject_Z c + 1)%Q
  else (p == inject_Z c)%Q.

(** A corner of the face of the voxel [(x, y, z)] that looks in the direction
    [(dx, dy, dz)]. *)
Definition isFaceCorner (x y z dx dy dz : Z) (v : Q * Q * Q) : Prop :=
  cornerOn x dx v.1.1 /\ cornerOn y dy v.1.2 /\ cornerOn z dz v.2.

(** Two vertices at the same place. *)
Definition sameVertex (u v : Q * Q * Q) : Prop :=
  (u.1.1 == v.1.1)%Q /\ (u.1.2 == v.1.2)%Q /\ (u.2 == v.2)%Q.

(** Vertices at pairwise different places. *)
Fixpoint distinctVertices (l : list (Q * Q * Q)) : Prop :=
  match l with
  | [] => True
  | v :: l' => Forall (fun u => ~ sameVertex v u) l' /\ distinctVertices l'
  end.

(** The triangles of an index array: its indices three by three, each
    looked up among the vertices. *)
Fixpoint triangles (vs : list (Q * Q * Q)) (idx : list Z)
    : list ((Q * Q * Q) * (Q * Q * Q) * (Q * Q * Q)) :=
  match idx with
  | i :: j :: k :: idx' =>
      match nth_Z vs i, nth_Z vs j, nth_Z vs k with
      | Some a, Some b, Some c => (a, b, c) :: triangles vs idx'
      | _, _, _ => triangles vs idx'
      end
  | _ => []
  end.

(** The orientation of a triangle [(a, b, c)] by the right-hand rule:
    [(b - a) x (c - a)]. *)
Definition triangleNormal (t : (Q * Q * Q) * (Q * Q * Q) * (Q * Q * Q))
    : Q * Q * Q :=
  let '(a, b, c) := t in
  let u := (b.1.1 - a.1.1, b.1.2 - a.1.2, b.2 - a.2)%Q in
  let v := (c.1.1 - a.1.1, c.1.2 - a.1.2, c.2 - a.2)%Q in
  (u.1.2 * v.2 - u.2 * v.1.2,
   u.2 * v.1.1 - u.1.1 * v.2,
   u.1.1 * v.1.2 - u.1.2 * v.1.1)%Q.

(** ** Sky and spawn *)


(** A block the spawn search stops at: neither air nor water nor leaves. *)
Definition solidGround (k : BlockType) : Prop :=
  k <> AIR /\ k <> WATER /\ k <> LEAVES.

(** * Proofs *)

(** Unfolding is left to the proofs. *)
Global Arguments Chunk_generate : simpl never.
Global Arguments generateBlocks : simpl never.
Global Arguments Chunk_new : simpl never.
Global Arguments updateMesh : simpl never.
Global Arguments buildQuads : simpl never.
Global Arguments Chunk_setBlock : simpl never.
Global Arguments World_setBlock : simpl never.
Global Arguments World_getBlock : simpl never.
Global Arguments chunkKey : simpl never.
Global Arguments SimplexNoise.new : simpl never.
Global Arguments generateChunk : simpl never.
Global Arguments loadChunks : simpl never.

(** ** Numbers *)

Lemma Qltb_lt a b : Qltb a b = true <-> (a < b)%Q.
Proof.
  unfold Qltb. rewrite negb_true_iff. split.
  - intros H. apply Qnot_le_lt. intros Hle.
    apply Qle_bool_iff in Hle. congruence.
  - intros H. destruct (Qle_bool b a) eqn:E; [|done].
    apply Qle_bool_iff in E. exfalso. eapply Qlt_not_le; eauto.
Qed.

Lemma Qltb_ge a b : Qltb a b = false <-> (b <= a)%Q.
Proof.
  unfold Qltb. rewrite negb_false_iff. apply Qle_bool_iff.
Qed.

Lemma nth_Z_Some {A} (l : list A) i v :
  nth_Z l i = Some v <-> 0 <= i /\ l !! Z.to_nat i = Some v.
Proof.
  unfold nth_Z. destruct (Z.ltb_spec i 0); [|tauto].
  split; [done|lia].
Qed.

Lemma nth_Z_set_eq {A} (l : list A) i v :
  0 <= i < Z.of_nat (length l) -> nth_Z (set_Z l i v) i = Some v.
Proof.
  intros [H0 H1]. unfold nth_Z, set_Z.
  destruct (Z.ltb_spec i 0); [lia|].
  apply list_lookup_insert_eq. lia.
Qed.

Lemma nth_Z_set_ne {A} (l : list A) i j v :
  i <> j -> nth_Z (set_Z l i v) j = nth_Z l j.
Proof.
  intros Hne. unfold nth_Z, set_Z.
  destruct (Z.ltb_spec j 0); [done|].
  destruct (Z.ltb_spec i 0); [done|].
  apply list_lookup_insert_ne. lia.
Qed.

Lemma length_set_Z {A} (l : list A) i v : length (set_Z l i v) = length l.
Proof. unfold set_Z. destruct (i <? 0); [done|]. apply length_insert. Qed.

(** ** Coordinates *)

Lemma World_getBlock_unfold w x y z :
  World_getBlock w x y z =
  if (y <? 0) || (y >=? WORLD_HEIGHT) then AIR
  else match chunks w !! chunkKey (chunkOf x) (chunkOf z) with
       | None => AIR
       | Some chunk => Chunk_getBlock chunk (localOf x) y (localOf z)
       end.
Proof. reflexivity. Qed.

Lemma World_setBlock_unfold w x y z type :
  World_setBlock w x y z type =
  if (y <? 0) || (y >=? WORLD_HEIGHT) then w
  else
    let key := chunkKey (chunkOf x) (chunkOf z) in
    match chunks w !! key with
    | None => w
    | Some chunk =>
        updateNeighborChunksIfNeeded
          (withChunk w key
             (Chunk_setBlock (self w key) chunk (localOf x) y (localOf z) type))
          x y z
    end.
Proof. reflexivity. Qed.

Lemma localOf_mod x : localOf x = x mod CHUNK_SIZE.
Proof.
  unfold localOf, CHUNK_SIZE.
  pose proof (Z.quot_rem' x 16) as Hq.
  destruct (Z.ltb_spec (Z.rem x 16) 0) as [Hneg|Hpos].
  - assert (x < 0) as Hx.
    { destruct (Z.lt_ge_cases x 0) as [|Hge]; [done|].
      pose proof (Z.rem_bound_pos_pos x 16 ltac:(lia) Hge). lia. }
    pose proof (Z.rem_bound_pos_neg x 16 ltac:(lia) ltac:(lia)).
    apply (Z.mod_unique_pos x 16 (x ÷ 16 - 1)); lia.
  - destruct (Z.lt_ge_cases x 0) as [Hx|Hx].
    + pose proof (Z.rem_bound_pos_neg x 16 ltac:(lia) ltac:(lia)).
      apply (Z.mod_unique_pos x 16 (x ÷ 16)); lia.
    + pose proof (Z.rem_bound_pos_pos x 16 ltac:(lia) Hx).
      apply (Z.mod_unique_pos x 16 (x ÷ 16)); lia.
Qed.

Lemma localOf_bound x : 0 <= localOf x < CHUNK_SIZE.
Proof. rewrite localOf_mod. apply Z.mod_pos_bound. done. Qed.

Lemma chunk_local_eq x : chunkOf x * CHUNK_SIZE + localOf x = x.
Proof.
  rewrite localOf_mod. unfold chunkOf.
  pose proof (Z.div_mod x CHUNK_SIZE ltac:(done)). lia.
Qed.

(** The chunk and the local coordinate of a recomposed coordinate. *)
Lemma chunkOf_compose cx lx :
  0 <= lx < CHUNK_SIZE -> chunkOf (cx * CHUNK_SIZE + lx) = cx.
Proof.
  intros H. unfold chunkOf. symmetry.
  apply (Z.div_unique_pos _ _ cx lx); [done|lia].
Qed.

Lemma localOf_compose cx lx :
  0 <= lx < CHUNK_SIZE -> localOf (cx * CHUNK_SIZE + lx) = lx.
Proof.
  intros H. rewrite localOf_mod. symmetry.
  apply (Z.mod_unique_pos _ _ cx lx); [done|lia].
Qed.

(** C2. Coordinate round-trip: for every integer world coordinate [(x, z)]
    the chunk coordinate is the floored quotient, the local coordinate is the
    floored modulo and lies in [[0, CHUNK_SIZE)], and chunk times
    [CHUNK_SIZE] plus local gives the coordinate back; negative coordinates
    included. *)
Theorem coordinate_round_trip (x z : Z) :
  (chunkOf x * CHUNK_SIZE + localOf x = x
   /\ chunkOf z * CHUNK_SIZE + localOf z = z)
  /\ (0 <= localOf x < CHUNK_SIZE /\ 0 <= localOf z < CHUNK_SIZE)
  /\ (chunkOf x = x / CHUNK_SIZE /\ localOf x = x mod CHUNK_SIZE)
  /\ (chunkOf z = z / CHUNK_SIZE /\ localOf z = z mod CHUNK_SIZE).
Proof.
  repeat split;
    auto using chunk_local_eq, localOf_mod;
    apply localOf_bound.
Qed.

(** ** Chunk keys *)

(** The key [`${chunkX},${chunkZ}`] determines the chunk coordinates: the
    decimal rendering of an integer has no comma. *)
Lemma commaFree_pretty_N_go x s :
  commaFree s = true -> commaFree (pretty_N_go x s) = true.
Proof.
  revert s. induction (N.lt_wf_0 x) as [x _ IH]; intros s Hs.
  destruct (decide (x = 0%N)) as [->|Hx].
  - by rewrite pretty_N_go_0.
  - rewrite pretty_N_go_step by lia.
    apply IH.
    + apply N.div_lt; lia.
    + simpl. rewrite Hs, andb_true_r.
      unfold pretty_N_char. by repeat case_match.
Qed.

Lemma commaFree_pretty_Z (x : Z) : commaFree (pretty x) = true.
Proof.
  assert (forall p : positive, commaFree (pretty p) = true) as Hpos.
  { intros p. unfold pretty, pretty_positive, pretty, pretty_N.
    case_decide; [done|]. by apply commaFree_pretty_N_go. }
  destruct x as [|p|p]; [done|apply Hpos|].
  unfold pretty, pretty_Z. simpl. apply Hpos.
Qed.

Lemma comma_split s1 s2 t1 t2 :
  commaFree s1 = true -> commaFree s2 = true ->
  s1 +:+ "," +:+ t1 = s2 +:+ "," +:+ t2 -> s1 = s2 /\ t1 = t2.
Proof.
  revert s2. induction s1 as [|a s1 IH]; intros [|b s2] H1 H2 Heq;
    simpl in *.
  - by simplify_eq.
  - injection Heq as <- _. by rewrite Ascii.eqb_refl in H2.
  - injection Heq as -> _. by rewrite Ascii.eqb_refl in H1.
  - apply andb_true_iff in H1 as [_ H1]. apply andb_true_iff in H2 as [_ H2].
    injection Heq as -> Heq. destruct (IH s2 H1 H2 Heq) as [-> ->]. done.
Qed.

Lemma chunkKey_inj x1 z1 x2 z2 :
  chunkKey x1 z1 = chunkKey x2 z2 -> x1 = x2 /\ z1 = z2.
Proof.
  unfold chunkKey. intros Heq.
  apply comma_split in Heq as [Hx Hz]; auto using commaFree_pretty_Z.
  split; by apply (inj pretty).
Qed.

Lemma chunkKey_ne x1 z1 x2 z2 :
  x1 <> x2 \/ z1 <> z2 -> chunkKey x1 z1 <> chunkKey x2 z2.
Proof. intros H Heq. apply chunkKey_inj in Heq. lia. Qed.

(** X2. The key of a chunk names its coordinates and nothing else. *)
Theorem chunk_key_injective (x1 z1 x2 z2 : Z) :
  chunkKey x1 z1 = chunkKey x2 z2 <-> x1 = x2 /\ z1 = z2.
Proof.
  split; [apply chunkKey_inj|]. by intros [-> ->].
Qed.

(** ** Block arrays *)

Section BlockArrays.

Implicit Types b : list (list (list BlockType)).

Lemma nth_Z_is_Some {A} (l : list A) i :
  0 <= i < Z.of_nat (length l) -> is_Some (nth_Z l i).
Proof.
  intros [H0 H1]. unfold nth_Z.
  destruct (Z.ltb_spec i 0); [lia|].
  apply lookup_lt_is_Some. lia.
Qed.

Lemma nth_Z_elem_of {A} (l : list A) i v : nth_Z l i = Some v -> v ∈ l.
Proof.
  intros [_ H]%nth_Z_Some. by eapply list_elem_of_lookup_2.
Qed.

Lemma wfBlocks_cell size height b x y z :
  wfBlocks size height b ->
  0 <= x < size -> 0 <= y < height -> 0 <= z < size ->
  exists plane row v,
    nth_Z b x = Some plane /\ nth_Z plane y = Some row
    /\ nth_Z row z = Some v
    /\ length plane = Z.to_nat height /\ length row = Z.to_nat size.
Proof.
  intros [Hlen Hall] Hx Hy Hz.
  destruct (nth_Z_is_Some b x) as [plane Hp]; [lia|].
  pose proof (nth_Z_elem_of _ _ _ Hp) as Hin.
  rewrite Forall_forall in Hall. destruct (Hall _ Hin) as [Hl Hrows].
  destruct (nth_Z_is_Some plane y) as [row Hr]; [lia|].
  pose proof (nth_Z_elem_of _ _ _ Hr) as Hin'.
  rewrite Forall_forall in Hrows. pose proof (Hrows _ Hin') as Hl'.
  destruct (nth_Z_is_Some row z) as [v Hv]; [lia|].
  by exists plane, row, v.
Qed.

Lemma blockAt_setBlockAt_eq size height b x y z v :
  wfBlocks size height b ->
  0 <= x < size -> 0 <= y < height -> 0 <= z < size ->
  blockAt (setBlockAt b x y z v) x y z = v.
Proof.
  intros Hwf Hx Hy Hz.
  destruct (wfBlocks_cell _ _ _ _ _ _ Hwf Hx Hy Hz)
    as (plane & row & v0 & Hp & Hr & Hv & Hl & Hl').
  destruct Hwf as [Hlen _].
  unfold setBlockAt, blockAt. rewrite Hp, Hr.
  rewrite nth_Z_set_eq by lia. simpl.
  rewrite nth_Z_set_eq by lia. simpl.
  rewrite nth_Z_set_eq by lia. done.
Qed.

Lemma nth_Z_bound {A} (l : list A) i v :
  nth_Z l i = Some v -> 0 <= i < Z.of_nat (length l).
Proof.
  intros [H0 H]%nth_Z_Some. apply lookup_lt_Some in H. lia.
Qed.

Lemma blockAt_setBlockAt_ne b x y z v x' y' z' :
  (x, y, z) <> (x', y', z') ->
  blockAt (setBlockAt b x y z v) x' y' z' = blockAt b x' y' z'.
Proof.
  intros Hne. unfold setBlockAt.
  destruct (nth_Z b x) as [plane|] eqn:Hp; [|done].
  destruct (nth_Z plane y) as [row|] eqn:Hr; [|done].
  unfold blockAt.
  destruct (decide (x = x')) as [<-|Hx]; [|by rewrite nth_Z_set_ne].
  rewrite nth_Z_set_eq by (by eapply nth_Z_bound).
  rewrite Hp. simpl.
  destruct (decide (y = y')) as [<-|Hy]; [|by rewrite nth_Z_set_ne].
  rewrite nth_Z_set_eq by (by eapply nth_Z_bound).
  rewrite Hr. simpl.
  destruct (decide (z = z')) as [<-|Hz]; [congruence|].
  by rewrite nth_Z_set_ne.
Qed.

Lemma Forall_set_Z {A} (P : A -> Prop) (l : list A) i v :
  Forall P l -> P v -> Forall P (set_Z l i v).
Proof.
  intros Hl Hv. unfold set_Z. destruct (i <? 0); [done|].
  by apply Forall_insert.
Qed.

Lemma wfBlocks_setBlockAt size height b x y z v :
  wfBlocks size height b -> wfBlocks size height (setBlockAt b x y z v).
Proof.
  intros [Hlen Hall]. unfold setBlockAt.
  destruct (nth_Z b x) as [plane|] eqn:Hp; [|done].
  destruct (nth_Z plane y) as [row|] eqn:Hr; [|done].
  pose proof (nth_Z_elem_of _ _ _ Hp) as Hin.
  pose proof Hall as Hall'. rewrite Forall_forall in Hall'.
  destruct (Hall' _ Hin) as [Hl Hrows].
  pose proof (nth_Z_elem_of _ _ _ Hr) as Hin'.
  pose proof Hrows as Hrows'. rewrite Forall_forall in Hrows'.
  split; [by rewrite length_set_Z|].
  apply Forall_set_Z; [done|].
  split; [by rewrite length_set_Z|].
  apply Forall_set_Z; [done|].
  rewrite length_set_Z. auto.
Qed.

Lemma wfBlocks_replicate size height :
  wfBlocks size height
    (replicate (Z.to_nat size)
       (replicate (Z.to_nat height) (replicate (Z.to_nat size) AIR))).
Proof.
  split; [by rewrite length_replicate|].
  apply Forall_replicate. split; [by rewrite length_replicate|].
  apply Forall_replicate. by rewrite length_replicate.
Qed.

End BlockArrays.

(** ** Voxel data and what the mesh rebuilds leave alone *)

Lemma chunks_withChunk w key c :
  chunks (withChunk w key c) = <[key := c]> (chunks w).
Proof. reflexivity. Qed.

Lemma sameVoxels_refl w : sameVoxels w w.
Proof. done. Qed.

Lemma sameVoxels_trans w1 w2 w3 :
  sameVoxels w1 w2 -> sameVoxels w2 w3 -> sameVoxels w1 w3.
Proof. intros H1 H2 k. by rewrite H1. Qed.

Lemma voxelData_updateMesh W c : voxelData (updateMesh W c) = voxelData c.
Proof. done. Qed.

Lemma Chunk_getBlock_voxelData c c' x y z :
  voxelData c = voxelData c' -> Chunk_getBlock c x y z = Chunk_getBlock c' x y z.
Proof.
  unfold voxelData, Chunk_getBlock. intros [= _ _ -> -> ->]. done.
Qed.


Lemma sameVoxels_updateMeshAt w key : sameVoxels w (updateMeshAt w key).
Proof.
  intros k. unfold updateMeshAt.
  destruct (chunks w !! key) as [c|] eqn:Hc; [|done].
  simpl. destruct (decide (key = k)) as [<-|Hne].
  - by rewrite lookup_insert_eq, Hc.
  - by rewrite lookup_insert_ne.
Qed.

Lemma sameVoxels_updateNeighborChunksIfNeeded w x y z :
  sameVoxels w (updateNeighborChunksIfNeeded w x y z).
Proof.
  unfold updateNeighborChunksIfNeeded. case_match; [|done].
  simpl.
  repeat (eapply sameVoxels_trans; [|apply sameVoxels_updateMeshAt]).
  done.
Qed.

(** The keys of the map are left alone by the mesh rebuilds. *)
Lemma updateMeshAt_lookup_ne w key k :
  key <> k -> chunks (updateMeshAt w key) !! k = chunks w !! k.
Proof.
  intros Hne. unfold updateMeshAt.
  destruct (chunks w !! key); [|done]. simpl. by rewrite lookup_insert_ne.
Qed.

Lemma updateMeshAt_lookup_eq w key :
  chunks (updateMeshAt w key) !! key
  = (fun c => updateMesh (self w key c) c) <$> chunks w !! key.
Proof.
  unfold updateMeshAt.
  destruct (chunks w !! key) eqn:Hc; simpl; [|by rewrite Hc].
  by rewrite lookup_insert_eq.
Qed.

(** ** Invariants of the world *)

Lemma chunkOk_voxelData key c c' :
  voxelData c = voxelData c' -> chunkOk key c -> chunkOk key c'.
Proof.
  unfold voxelData, chunkOk. intros [= -> -> -> -> -> _]. done.
Qed.

Lemma wfWorld_sameVoxels w w' : sameVoxels w w' -> wfWorld w -> wfWorld w'.
Proof.
  intros Hs Hwf k c' Hc'. specialize (Hs k). rewrite Hc' in Hs.
  destruct (chunks w !! k) as [c|] eqn:Hc; [|done].
  eapply (chunkOk_voxelData _ c); [simpl in Hs; congruence|]. by eapply Hwf.
Qed.

Lemma wfWorld_lookup w cx cz c :
  wfWorld w -> chunks w !! chunkKey cx cz = Some c ->
  chunkX c = cx /\ chunkZ c = cz /\ size c = CHUNK_SIZE
  /\ height c = WORLD_HEIGHT /\ wfBlocks CHUNK_SIZE WORLD_HEIGHT (blocks c).
Proof.
  intros Hwf Hc. destruct (Hwf _ _ Hc) as (Hk & Hs & Hh & Hb).
  apply chunkKey_inj in Hk as [-> ->]. rewrite Hs, Hh in Hb. done.
Qed.

Lemma wfWorld_withChunk w key c :
  wfWorld w -> chunkOk key c -> wfWorld (withChunk w key c).
Proof. intros Hwf Hc. by apply map_Forall_insert_2. Qed.

Lemma chunkOk_setBlock view key c x y z type :
  chunkOk key c -> chunkOk key (Chunk_setBlock view c x y z type).
Proof.
  intros Hok. unfold Chunk_setBlock. case_match; [done|].
  destruct Hok as (Hk & Hs & Hh & Hb).
  split; [done|]. split; [done|]. split; [done|].
  simpl. by apply wfBlocks_setBlockAt.
Qed.

Lemma wfWorld_setBlock w x y z type :
  wfWorld w -> wfWorld (World_setBlock w x y z type).
Proof.
  intros Hwf. rewrite World_setBlock_unfold.
  case_match; [done|]. simpl.
  destruct (chunks w !! _) as [c|] eqn:Hc; [|done].
  eapply wfWorld_sameVoxels;
    [apply sameVoxels_updateNeighborChunksIfNeeded|].
  apply wfWorld_withChunk; [done|].
  apply chunkOk_setBlock. by eapply Hwf.
Qed.

(** ** Reads and writes *)

Lemma Chunk_getBlock_in c x y z :
  0 <= x < size c -> 0 <= y < height c -> 0 <= z < size c ->
  Chunk_getBlock c x y z = blockAt (blocks c) x y z.
Proof.
  intros Hx Hy Hz. unfold Chunk_getBlock.
  destruct (Z.ltb_spec x 0); [lia|]. destruct (Z.geb_spec x (size c)); [lia|].
  destruct (Z.ltb_spec y 0); [lia|]. destruct (Z.geb_spec y (height c)); [lia|].
  destruct (Z.ltb_spec z 0); [lia|]. destruct (Z.geb_spec z (size c)); [lia|].
  done.
Qed.

Lemma Chunk_setBlock_in view c x y z type :
  0 <= x < size c -> 0 <= y < height c -> 0 <= z < size c ->
  Chunk_setBlock view c x y z type =
  let c1 := withBlocks c (setBlockAt (blocks c) x y z type) in
  updateMesh (view c1) c1.
Proof.
  intros Hx Hy Hz. unfold Chunk_setBlock.
  destruct (Z.ltb_spec x 0); [lia|]. destruct (Z.geb_spec x (size c)); [lia|].
  destruct (Z.ltb_spec y 0); [lia|]. destruct (Z.geb_spec y (height c)); [lia|].
  destruct (Z.ltb_spec z 0); [lia|]. destruct (Z.geb_spec z (size c)); [lia|].
  done.
Qed.

Lemma heightCheck_in y :
  0 <= y < WORLD_HEIGHT -> (y <? 0) || (y >=? WORLD_HEIGHT) = false.
Proof.
  intros Hy. destruct (Z.ltb_spec y 0); [lia|].
  destruct (Z.geb_spec y WORLD_HEIGHT); [lia|]. done.
Qed.

Lemma heightCheck_out y :
  y < 0 \/ WORLD_HEIGHT <= y -> (y <? 0) || (y >=? WORLD_HEIGHT) = true.
Proof.
  intros Hy. destruct (Z.ltb_spec y 0); [done|].
  destruct (Z.geb_spec y WORLD_HEIGHT); [done|lia].
Qed.

(** A read in a loaded, well-formed chunk is a read of its array. *)
Lemma World_getBlock_loaded w x y z c :
  wfWorld w -> 0 <= y < WORLD_HEIGHT ->
  chunks w !! chunkKey (chunkOf x) (chunkOf z) = Some c ->
  World_getBlock w x y z = blockAt (blocks c) (localOf x) y (localOf z).
Proof.
  intros Hwf Hy Hc. rewrite World_getBlock_unfold, heightCheck_in, Hc by done.
  destruct (wfWorld_lookup _ _ _ _ Hwf Hc) as (_ & _ & Hs & Hh & _).
  apply Chunk_getBlock_in; rewrite ?Hs, ?Hh; auto using localOf_bound.
Qed.

(** What [setBlock] leaves in the block array of the owning chunk. *)
Lemma World_setBlock_owner w x y z type c :
  wfWorld w -> 0 <= y < WORLD_HEIGHT ->
  chunks w !! chunkKey (chunkOf x) (chunkOf z) = Some c ->
  exists c',
    chunks (World_setBlock w x y z type) !! chunkKey (chunkOf x) (chunkOf z)
    = Some c'
    /\ blocks c' = setBlockAt (blocks c) (localOf x) y (localOf z) type.
Proof.
  intros Hwf Hy Hc.
  destruct (wfWorld_lookup _ _ _ _ Hwf Hc) as (_ & _ & Hs & Hh & _).
  rewrite World_setBlock_unfold, heightCheck_in by done. simpl. rewrite Hc.
  set (key := chunkKey (chunkOf x) (chunkOf z)).
  set (c1 := Chunk_setBlock _ _ _ _ _ _).
  pose proof (sameVoxels_updateNeighborChunksIfNeeded
                (withChunk w key c1) x y z key) as Hs'.
  simpl in Hs'. rewrite lookup_insert_eq in Hs'. simpl in Hs'.
  destruct (chunks (updateNeighborChunksIfNeeded _ x y z) !! key)
    as [c'|]; [|done].
  exists c'. split; [done|].
  assert (blocks c' = blocks c1) as ->
    by (simpl in Hs'; unfold voxelData in Hs'; congruence).
  unfold c1. rewrite Chunk_setBlock_in;
    rewrite ?Hs, ?Hh; auto using localOf_bound.
Qed.

(** C9. Write/read consistency: for every in-bounds world coordinate
    [(x, y, z)] whose owning chunk is loaded, and every kind [k],
    [setBlock(x, y, z, k)] followed by [getBlock(x, y, z)] returns [k];
    negative coordinates included. *)
Theorem write_read_consistency (w : World) (x y z : Z) (k : BlockType) :
  wfWorld w ->
  0 <= y < WORLD_HEIGHT ->
  is_Some (chunks w !! chunkKey (chunkOf x) (chunkOf z)) ->
  World_getBlock (World_setBlock w x y z k) x y z = k.
Proof.
  intros Hwf Hy [c Hc].
  destruct (World_setBlock_owner w x y z k c Hwf Hy Hc) as (c' & Hc' & Hb).
  rewrite (World_getBlock_loaded _ _ _ _ c');
    [|by apply wfWorld_setBlock|done|done].
  rewrite Hb.
  destruct (wfWorld_lookup _ _ _ _ Hwf Hc) as (_ & _ & _ & _ & Hwfb).
  eapply blockAt_setBlockAt_eq; eauto using localOf_bound.
Qed.

(** C8. Out-of-range degradation: when [y] is outside [[0, WORLD_HEIGHT)] or
    the owning chunk is missing, [World.getBlock] returns air, also after a
    write to that coordinate, and [World.setBlock] leaves the world (voxel
    data and geometry of every chunk) as it was; when a local coordinate is
    outside the chunk, [Chunk.getBlock] returns air, also after a write, and
    [Chunk.setBlock] leaves the chunk as it was. *)
Theorem out_of_range_degradation
    (w : World) (view : Chunk -> option World) (c : Chunk)
    (x y z : Z) (k : BlockType) :
  ((y < 0 \/ WORLD_HEIGHT <= y
    \/ chunks w !! chunkKey (chunkOf x) (chunkOf z) = None) ->
   World_getBlock w x y z = AIR
   /\ World_setBlock w x y z k = w
   /\ World_getBlock (World_setBlock w x y z k) x y z = AIR)
  /\ ((x < 0 \/ size c <= x \/ y < 0 \/ height c <= y
       \/ z < 0 \/ size c <= z) ->
      Chunk_getBlock c x y z = AIR
      /\ Chunk_setBlock view c x y z k = c
      /\ Chunk_getBlock (Chunk_setBlock view c x y z k) x y z = AIR).
Proof.
  split.
  - intros H.
    assert (World_getBlock w x y z = AIR /\ World_setBlock w x y z k = w)
      as [Hg Hs].
    { rewrite World_getBlock_unfold, World_setBlock_unfold.
      destruct (decide (y < 0 \/ WORLD_HEIGHT <= y)) as [Hy|Hy].
      - by rewrite heightCheck_out.
      - rewrite heightCheck_in by lia. simpl.
        destruct H as [?|[?|Hn]]; [lia|lia|by rewrite Hn]. }
    by rewrite Hs.
  - intros H.
    assert (Chunk_getBlock c x y z = AIR /\ Chunk_setBlock view c x y z k = c)
      as [Hg Hs].
    { unfold Chunk_getBlock, Chunk_setBlock.
      destruct (Z.ltb_spec x 0); [done|].
      destruct (Z.geb_spec x (size c)); [done|].
      destruct (Z.ltb_spec y 0); [done|].
      destruct (Z.geb_spec y (height c)); [done|].
      destruct (Z.ltb_spec z 0); [done|].
      destruct (Z.geb_spec z (size c)); [done|].
      lia. }
    by rewrite Hs.
Qed.

(** ** Generation keeps the shape of the block array *)

Section GenerationShape.

Variable random : nat -> Q.
Implicit Types b : list (list (list BlockType)).

Lemma fold_left_preserves {A B} (P : A -> Prop) (f : A -> B -> A) l a :
  (forall a x, P a -> P (f a x)) -> P a -> P (fold_left f l a).
Proof.
  intros Hf. revert a. induction l as [|x l IH]; intros a Ha; simpl; auto.
Qed.

Lemma wfBlocks_fillColumn s h c x z th b :
  wfBlocks s h b -> wfBlocks s h (fillColumn c x z th b).
Proof.
  intros Hb. unfold fillColumn.
  apply fold_left_preserves; [|done].
  intros. by apply wfBlocks_setBlockAt.
Qed.

Lemma wfBlocks_treeLeaves s h c x y z trunkHeight b :
  wfBlocks s h b -> wfBlocks s h (treeLeaves c x y z trunkHeight b).
Proof.
  intros Hb. unfold treeLeaves.
  apply fold_left_preserves; [|done]. intros b1 lX Hb1.
  apply fold_left_preserves; [|done]. intros b2 lY Hb2.
  apply fold_left_preserves; [|done]. intros b3 lZ Hb3.
  repeat case_match; try done. by apply wfBlocks_setBlockAt.
Qed.

Lemma wfBlocks_generateTree s h c x y z b n :
  wfBlocks s h b -> wfBlocks s h (generateTree random c x y z (b, n)).1.
Proof.
  intros Hb. unfold generateTree. case_match; [done|]. simpl.
  apply wfBlocks_treeLeaves.
  apply fold_left_preserves; [|done].
  intros. by apply wfBlocks_setBlockAt.
Qed.

Lemma wfBlocks_generateColumn s h c x z st :
  wfBlocks s h st.1 -> wfBlocks s h (generateColumn random c x z st).1.
Proof.
  destruct st as [b n]. simpl. intros Hb. unfold generateColumn.
  pose proof (wfBlocks_fillColumn s h c x z
                (getTerrainHeight c (chunkX c * size c + x)
                                    (chunkZ c * size c + z)) b Hb) as Hf.
  cbv zeta. destruct (decide _); [destruct (Qltb _ _)|]; try done.
  by apply wfBlocks_generateTree.
Qed.

Lemma wfBlocks_generateBlocks s h c n :
  wfBlocks s h (blocks c) -> wfBlocks s h (generateBlocks random c n).1.
Proof.
  intros Hb. unfold generateBlocks.
  apply (fold_left_preserves (fun st => wfBlocks s h st.1)); [|done].
  intros st x Hst.
  apply (fold_left_preserves (fun st => wfBlocks s h st.1)); [|done].
  intros st' z Hst'. by apply wfBlocks_generateColumn.
Qed.

Lemma Chunk_generate_fields view c n :
  let c' := (Chunk_generate random view c n).1 in
  chunkX c' = chunkX c /\ chunkZ c' = chunkZ c /\ size c' = size c
  /\ height c' = height c /\ simplex c' = simplex c
  /\ blocks c' = (generateBlocks random c n).1.
Proof.
  unfold Chunk_generate. destruct (generateBlocks random c n). done.
Qed.

Lemma chunkOk_generated view cx cz n n' :
  chunkOk (chunkKey cx cz)
    (Chunk_generate random view
       (Chunk_new random cx cz CHUNK_SIZE WORLD_HEIGHT n).1 n').1.
Proof.
  set (c0 := (Chunk_new random cx cz CHUNK_SIZE WORLD_HEIGHT n).1).
  destruct (Chunk_generate_fields view c0 n') as (HX & HZ & Hs & Hh & _ & Hb).
  unfold chunkOk. rewrite HX, HZ, Hs, Hh, Hb.
  split; [done|]. split; [done|]. split; [done|].
  apply wfBlocks_generateBlocks. apply wfBlocks_replicate.
Qed.

End GenerationShape.

(** ** Streaming: [generateChunk] and [update] *)

Section StreamingProofs.

Variable random : nat -> Q.

Lemma generateChunk_present x z w n :
  is_Some (chunks w !! chunkKey x z) ->
  generateChunk random x z (w, n) = (w, n).
Proof. intros [c Hc]. unfold generateChunk. by rewrite Hc. Qed.

Lemma generateChunk_absent x z w n :
  chunks w !! chunkKey x z = None ->
  (generateChunk random x z (w, n)).1 =
  withChunk w (chunkKey x z)
    (Chunk_generate random (self w (chunkKey x z))
       (Chunk_new random x z CHUNK_SIZE WORLD_HEIGHT n).1 (S n)).1.
Proof.
  intros Hc. unfold generateChunk. rewrite Hc. unfold Chunk_new.
  cbv beta iota zeta delta [fst snd].
  destruct (Chunk_generate _ _ _ _) as [c' n2]. reflexivity.
Qed.

(** [generateChunk] never touches a chunk that is already in the map. *)
Lemma generateChunk_keeps x z w n k c :
  chunks w !! k = Some c ->
  chunks (generateChunk random x z (w, n)).1 !! k = Some c.
Proof.
  intros Hk. destruct (chunks w !! chunkKey x z) as [c0|] eqn:Hc.
  - by rewrite generateChunk_present.
  - rewrite generateChunk_absent by done. rewrite chunks_withChunk.
    rewrite lookup_insert_ne; [done|]. congruence.
Qed.

Lemma generateChunk_lookup x z w n k :
  is_Some (chunks (generateChunk random x z (w, n)).1 !! k) ->
  is_Some (chunks w !! k) \/ k = chunkKey x z.
Proof.
  destruct (chunks w !! chunkKey x z) as [c0|] eqn:Hc.
  - rewrite generateChunk_present by done. auto.
  - rewrite generateChunk_absent by done. rewrite chunks_withChunk.
    destruct (decide (chunkKey x z = k)) as [<-|Hne]; [auto|].
    rewrite lookup_insert_ne by done. auto.
Qed.

Lemma generateChunk_loaded x z w n :
  exists c,
    chunks (generateChunk random x z (w, n)).1 !! chunkKey x z = Some c
    /\ (chunks w !! chunkKey x z = Some c
        \/ (chunks w !! chunkKey x z = None /\ freshlyGenerated random x z c)).
Proof.
  destruct (chunks w !! chunkKey x z) as [c0|] eqn:Hc.
  - rewrite generateChunk_present by done. eauto.
  - rewrite generateChunk_absent by done. rewrite chunks_withChunk.
    rewrite lookup_insert_eq. eexists. split; [done|]. right.
    split; [done|]. by exists w, n.
Qed.

Lemma wfWorld_generateChunk x z w n :
  wfWorld w -> wfWorld (generateChunk random x z (w, n)).1.
Proof.
  intros Hwf. destruct (chunks w !! chunkKey x z) as [c0|] eqn:Hc.
  - by rewrite generateChunk_present.
  - rewrite generateChunk_absent by done.
    apply wfWorld_withChunk; [done|]. apply chunkOk_generated.
Qed.

Lemma loadChunks_cons x z l st :
  loadChunks random ((x, z) :: l) st = loadChunks random l (generateChunk random x z st).
Proof. reflexivity. Qed.

Lemma loadChunks_keeps l w n k c :
  chunks w !! k = Some c -> chunks (loadChunks random l (w, n)).1 !! k = Some c.
Proof.
  revert w n. induction l as [|[x z] l IH]; intros w n Hk; [done|].
  rewrite loadChunks_cons.
  destruct (generateChunk random x z (w, n)) as [w1 n1] eqn:Hg.
  apply IH. pose proof (generateChunk_keeps x z w n k c Hk) as H.
  by rewrite Hg in H.
Qed.

Lemma loadChunks_lookup l w n k :
  is_Some (chunks (loadChunks random l (w, n)).1 !! k) ->
  is_Some (chunks w !! k) \/ exists xz, xz ∈ l /\ k = chunkKey xz.1 xz.2.
Proof.
  revert w n. induction l as [|[x z] l IH]; intros w n Hk; [auto|].
  rewrite loadChunks_cons in Hk.
  destruct (generateChunk random x z (w, n)) as [w1 n1] eqn:Hg.
  destruct (IH _ _ Hk) as [H1|(xz & Hin & ->)].
  - pose proof (generateChunk_lookup x z w n k) as H. rewrite Hg in H.
    destruct (H H1) as [?| ->]; [auto|].
    right. exists (x, z). split; [left|done].
  - right. exists xz. split; [by right|done].
Qed.

Lemma loadChunks_loaded l w n x z :
  (x, z) ∈ l ->
  exists c,
    chunks (loadChunks random l (w, n)).1 !! chunkKey x z = Some c
    /\ (chunks w !! chunkKey x z = Some c
        \/ (chunks w !! chunkKey x z = None /\ freshlyGenerated random x z c)).
Proof.
  revert w n. induction l as [|[x' z'] l IH]; intros w n Hin.
  { by apply elem_of_nil in Hin. }
  rewrite loadChunks_cons.
  destruct (generateChunk random x' z' (w, n)) as [w1 n1] eqn:Hg.
  destruct (chunks w !! chunkKey x z) as [c0|] eqn:Hc.
  { exists c0. split; [|auto]. apply loadChunks_keeps.
    pose proof (generateChunk_keeps x' z' w n _ _ Hc) as H.
    by rewrite Hg in H. }
  apply elem_of_cons in Hin as [[= <- <-]|Hin].
  - destruct (generateChunk_loaded x z w n) as (c & Hc1 & Hc2).
    rewrite Hg in Hc1. exists c. split; [by apply loadChunks_keeps|].
    by rewrite Hc in Hc2.
  - destruct (chunks w1 !! chunkKey x z) as [c1|] eqn:Hc1.
    + exists c1. split; [by apply loadChunks_keeps|]. right.
      split; [done|].
      assert (chunkKey x z = chunkKey x' z') as Hk.
      { pose proof (generateChunk_lookup x' z' w n (chunkKey x z)) as H.
        rewrite Hg in H. cbn [fst] in H. rewrite Hc1, Hc in H.
        destruct H as [[? ?]|?]; eauto. done. }
      apply chunkKey_inj in Hk as [<- <-].
      destruct (generateChunk_loaded x z w n) as (c & Hc1' & Hc2).
      rewrite Hg in Hc1'. cbn [fst] in Hc1'. rewrite Hc1 in Hc1'.
      rewrite Hc in Hc2.
      destruct Hc2 as [?|[_ ?]]; [done|]. congruence.
    + destruct (IH w1 n1 Hin) as (c & Hl & Hc2). exists c. split; [done|].
      right. rewrite Hc1 in Hc2. destruct Hc2 as [?|[_ ?]]; done.
Qed.

Lemma wfWorld_loadChunks l w n :
  wfWorld w -> wfWorld (loadChunks random l (w, n)).1.
Proof.
  revert w n. induction l as [|[x z] l IH]; intros w n Hwf; [done|].
  rewrite loadChunks_cons.
  destruct (generateChunk random x z (w, n)) as [w1 n1] eqn:Hg.
  apply IH. pose proof (wfWorld_generateChunk x z w n Hwf) as H.
  by rewrite Hg in H.
Qed.

(** X7. [generateChunk] leaves every loaded chunk as it is, its stored mesh
    included: the geometry of a loaded neighbour is not rebuilt when a
    chunk is generated beside it. *)
Theorem generation_leaves_loaded_chunks
    (x z : Z) (w : World) (n : nat) (key : string) (c : Chunk) :
  chunks w !! key = Some c ->
  chunks (generateChunk random x z (w, n)).1 !! key = Some c.
Proof. apply generateChunk_keeps. Qed.

End StreamingProofs.

Section UpdateProofs.

Variable random : nat -> Q.

Lemma required_inner w x zs acc :
  let r := fold_left (requiredStep w x) zs acc in
  (forall k, k ∈ r.1 <-> k ∈ acc.1 \/ exists z, z ∈ zs /\ k = chunkKey x z)
  /\ (forall xz, xz ∈ r.2 <->
        xz ∈ acc.2
        \/ (xz.1 = x /\ xz.2 ∈ zs
            /\ chunks w !! chunkKey xz.1 xz.2 = None)).
Proof.
  revert acc. induction zs as [|z zs IH]; intros acc; simpl.
  - split; intros; [set_solver|].
    split; [auto|]. intros [?|(_ & H & _)]; [done|].
    by apply elem_of_nil in H.
  - destruct (IH (requiredStep w x acc z)) as [IH1 IH2].
    split.
    + intros k. rewrite IH1. unfold requiredStep.
      case_decide; simpl; set_solver.
    + intros [x' z']. rewrite IH2. unfold requiredStep. simpl.
      case_decide as Hs; simpl.
      * split; [intros [?|(-> & ? & ?)]; [auto|]; right; set_solver|].
        intros [?|(-> & Hin & Hn)]; [auto|].
        apply elem_of_cons in Hin as [->|Hin]; [|auto].
        rewrite Hn in Hs. by destruct Hs.
      * rewrite elem_of_app, list_elem_of_singleton.
        split.
        -- intros [[?|[= -> ->]]|(-> & ? & ?)]; [auto| |right; set_solver].
           right. split; [done|]. split; [set_solver|].
           by apply eq_None_not_Some.
        -- intros [?|(-> & Hin & Hn)]; [auto|].
           apply elem_of_cons in Hin as [->|Hin]; auto.
Qed.

Lemma required_outer w xs zs acc :
  let r :=
    fold_left (fun acc x => fold_left (requiredStep w x) zs acc) xs acc in
  (forall k, k ∈ r.1 <->
     k ∈ acc.1 \/ exists x z, x ∈ xs /\ z ∈ zs /\ k = chunkKey x z)
  /\ (forall xz, xz ∈ r.2 <->
        xz ∈ acc.2
        \/ (xz.1 ∈ xs /\ xz.2 ∈ zs
            /\ chunks w !! chunkKey xz.1 xz.2 = None)).
Proof.
  revert acc. induction xs as [|x xs IH]; intros acc; simpl.
  - split; intros; [set_solver|].
    split; [auto|]. intros [?|(H & _)]; [done|].
    by apply elem_of_nil in H.
  - destruct (IH (fold_left (requiredStep w x) zs acc)) as [IH1 IH2].
    destruct (required_inner w x zs acc) as [I1 I2].
    split.
    + intros k. rewrite IH1, I1. set_solver.
    + intros xz. rewrite IH2, I2. set_solver.
Qed.

Lemma requiredAndToLoad_spec w cx cz :
  let r := requiredAndToLoad w cx cz in
  (forall k, k ∈ r.1 <->
     exists x z, k = chunkKey x z
                 /\ Z.max (Z.abs (x - cx)) (Z.abs (z - cz))
                    <= RENDER_DISTANCE)
  /\ (forall x z, (x, z) ∈ r.2 <->
        Z.max (Z.abs (x - cx)) (Z.abs (z - cz)) <= RENDER_DISTANCE
        /\ chunks w !! chunkKey x z = None).
Proof.
  unfold requiredAndToLoad.
  destruct (required_outer w
    (seqZ (cx - RENDER_DISTANCE)
          (cx + RENDER_DISTANCE - (cx - RENDER_DISTANCE) + 1))
    (seqZ (cz - RENDER_DISTANCE)
          (cz + RENDER_DISTANCE - (cz - RENDER_DISTANCE) + 1))
    (∅, [])) as [H1 H2].
  split.
  - intros k. etrans; [apply H1|]. simpl. split.
    + intros [?|(x & z & Hx & Hz & ->)]; [set_solver|].
      apply elem_of_seqZ in Hx, Hz. exists x, z. split; [done|]. lia.
    + intros (x & z & -> & Hd). right. exists x, z.
      rewrite !elem_of_seqZ. split; [lia|]. split; [lia|done].
  - intros x z. etrans; [apply H2|]. simpl.
    rewrite !elem_of_seqZ. split.
    + intros [H|(Hx & Hz & Hn)]; [by apply elem_of_nil in H|].
      split; [lia|done].
    + intros [Hd Hn]. right. split; [lia|]. split; [lia|done].
Qed.

Lemma World_update_unfold p w n :
  World_update random p (w, n) =
  let r := requiredAndToLoad w (playerChunkX p) (playerChunkZ p) in
  let st := loadChunks random r.2 (w, n) in
  (mkWorld (filter (fun kc => kc.1 ∈ r.1) (chunks st.1)), st.2).
Proof.
  unfold World_update, playerChunkX, playerChunkZ, loadChunks.
  destruct (requiredAndToLoad w _ _) as [req load].
  cbv beta iota zeta delta [fst snd].
  by destruct (fold_left _ load (w, n)).
Qed.

(** C3. Streaming convergence: after [update(p)] the keys of the chunk map
    are exactly the keys of the chunk coordinates within Chebyshev distance
    [RENDER_DISTANCE] of the chunk of [p]; every such chunk is in the map,
    either as it was before the call or freshly generated by it. *)
Theorem streaming_convergence (p : Vector3) (w : World) (n : nat) :
  let w' := (World_update random p (w, n)).1 in
  (forall k, k ∈ dom (chunks w') <->
     exists x z, k = chunkKey x z /\ withinRenderDistance p x z)
  /\ (forall x z, withinRenderDistance p x z ->
        exists c, chunks w' !! chunkKey x z = Some c
                  /\ (chunks w !! chunkKey x z = Some c
                      \/ (chunks w !! chunkKey x z = None
                          /\ freshlyGenerated random x z c))).
Proof.
  rewrite World_update_unfold. cbv zeta. cbn [fst chunks].
  destruct (requiredAndToLoad_spec w (playerChunkX p) (playerChunkZ p))
    as [Hreq Hload].
  set (r := requiredAndToLoad w (playerChunkX p) (playerChunkZ p)) in *.
  assert (forall x z, withinRenderDistance p x z ->
            exists c, chunks (loadChunks random r.2 (w, n)).1
                        !! chunkKey x z = Some c
                  /\ (chunks w !! chunkKey x z = Some c
                      \/ (chunks w !! chunkKey x z = None
                          /\ freshlyGenerated random x z c))) as Hpresent.
  { intros x z Hd.
    destruct (decide (is_Some (chunks w !! chunkKey x z))) as [[c Hc]|Hn].
    - exists c. split; [by apply loadChunks_keeps|auto].
    - apply loadChunks_loaded. apply Hload. split; [done|].
      by apply eq_None_not_Some. }
  split.
  - intros k. rewrite elem_of_dom. split.
    + intros [c Hc]. apply map_lookup_filter_Some in Hc as [_ Hk].
      by apply Hreq.
    + intros (x & z & -> & Hd).
      destruct (Hpresent x z Hd) as (c & Hc & _).
      exists c. apply map_lookup_filter_Some. split; [done|].
      apply Hreq. by exists x, z.
  - intros x z Hd. destruct (Hpresent x z Hd) as (c & Hc & Hor).
    exists c. split; [|done].
    apply map_lookup_filter_Some. split; [done|].
    apply Hreq. by exists x, z.
Qed.

(** [update] keeps the invariants of the world. *)
Lemma wfWorld_update p w n :
  wfWorld w -> wfWorld (World_update random p (w, n)).1.
Proof.
  intros Hwf. rewrite World_update_unfold. cbv zeta. cbn [fst].
  intros k c Hc. cbn [chunks] in Hc.
  apply map_lookup_filter_Some in Hc as [Hc _].
  by eapply (wfWorld_loadChunks random).
Qed.

(** [update] leaves a loaded chunk within range in the map, as it was. *)
Lemma World_update_keeps p w n cx cz c :
  withinRenderDistance p cx cz ->
  chunks w !! chunkKey cx cz = Some c ->
  chunks (World_update random p (w, n)).1 !! chunkKey cx cz = Some c.
Proof.
  intros Hd Hc. rewrite World_update_unfold. cbv zeta. cbn [fst chunks].
  apply map_lookup_filter_Some. split; [by apply loadChunks_keeps|].
  apply requiredAndToLoad_spec. by exists cx, cz.
Qed.

(** C10. Edits persist while in range: a chunk that is loaded before
    [update(p)] and whose coordinate lies within [RENDER_DISTANCE] of the
    chunk of [p] is the same chunk object in the same state afterwards
    (not regenerated, not disposed, not remeshed), so every voxel read in
    that chunk returns what it returned before. *)
Theorem edits_persist_in_range
    (p : Vector3) (w : World) (n : nat) (cx cz : Z) (c : Chunk) :
  withinRenderDistance p cx cz ->
  chunks w !! chunkKey cx cz = Some c ->
  let w' := (World_update random p (w, n)).1 in
  chunks w' !! chunkKey cx cz = Some c
  /\ (forall x y z, chunkOf x = cx -> chunkOf z = cz ->
        World_getBlock w' x y z = World_getBlock w x y z).
Proof.
  intros Hd Hc w'.
  pose proof (World_update_keeps p w n cx cz c Hd Hc) as Hc'.
  split; [done|].
  intros x y z <- <-. unfold w'.
  by rewrite !World_getBlock_unfold, Hc, Hc'.
Qed.

(** X3. A voxel written by [setBlock] in a chunk within range is read back
    after [update]. *)
Theorem edit_survives_update
    (p : Vector3) (w : World) (n : nat) (x y z : Z) (k : BlockType) :
  wfWorld w ->
  0 <= y < WORLD_HEIGHT ->
  is_Some (chunks w !! chunkKey (chunkOf x) (chunkOf z)) ->
  withinRenderDistance p (chunkOf x) (chunkOf z) ->
  World_getBlock
    (World_update random p (World_setBlock w x y z k, n)).1 x y z = k.
Proof.
  intros Hwf Hy [c Hc] Hd.
  destruct (World_setBlock_owner w x y z k c Hwf Hy Hc) as (c' & Hc' & Hb).
  pose proof (World_update_keeps p (World_setBlock w x y z k) n
                _ _ c' Hd Hc') as Hkept.
  rewrite (World_getBlock_loaded _ _ _ _ c');
    [|by apply wfWorld_update, wfWorld_setBlock|done|done].
  rewrite Hb.
  destruct (wfWorld_lookup _ _ _ _ Hwf Hc) as (_ & _ & _ & _ & Hwfb).
  eapply blockAt_setBlockAt_eq; eauto using localOf_bound.
Qed.

(** ** Reachable worlds *)

Lemma wfWorld_generateInitialChunks w n :
  wfWorld w -> wfWorld (generateInitialChunks random (w, n)).1.
Proof.
  intros Hwf. unfold generateInitialChunks.
  apply (fold_left_preserves (fun st => wfWorld st.1)); [|done].
  intros st x Hst.
  apply (fold_left_preserves (fun st => wfWorld st.1)); [|done].
  intros [w' n'] z Hst'. by apply wfWorld_generateChunk.
Qed.

(** X1. Every reachable world is well formed: each chunk is stored under the
    key of its own coordinates and has the dimensions of the world. *)
Theorem reachable_world_well_formed (st : World * nat) :
  reachable random st -> wfWorld st.1.
Proof.
  induction 1 as [n|w n x y z k _ IH|w n p _ IH].
  - apply wfWorld_generateInitialChunks. apply map_Forall_empty.
  - by apply wfWorld_setBlock.
  - by apply wfWorld_update.
Qed.

End UpdateProofs.

(** ** Mesh rebuilds triggered by a write *)

Lemma updateNeighborChunksIfNeeded_unfold w x y z :
  updateNeighborChunksIfNeeded w x y z =
  if onChunkBoundary x z
  then fold_left updateMeshAt (neighborKeys (chunkOf x) (chunkOf z)) w
  else w.
Proof. reflexivity. Qed.

Lemma localOf_0_rem x : localOf x = 0 -> Z.rem x CHUNK_SIZE = 0.
Proof.
  unfold localOf. cbv zeta.
  pose proof (Z.rem_bound_abs x CHUNK_SIZE ltac:(done)) as Hb.
  change (Z.abs CHUNK_SIZE) with 16 in Hb.
  destruct (Z.ltb_spec (Z.rem x CHUNK_SIZE) 0); unfold CHUNK_SIZE in *; lia.
Qed.

Lemma onChunkBoundary_local0 x z : localOf x = 0 -> onChunkBoundary x z = true.
Proof.
  intros H. unfold onChunkBoundary. cbv zeta.
  by rewrite (localOf_0_rem x H).
Qed.

Lemma NoDup_neighborKeys cx cz :
  NoDup (neighborKeys cx cz)
  /\ chunkKey cx cz ∉ neighborKeys cx cz.
Proof.
  unfold neighborKeys. split.
  - repeat (apply NoDup_cons; split);
      rewrite ?elem_of_cons, ?elem_of_nil; try apply NoDup_nil_2;
      intros H; repeat destruct H as [H|H];
      try (apply chunkKey_inj in H; lia); done.
  - rewrite !elem_of_cons, elem_of_nil.
    intros H; repeat destruct H as [H|H];
      try (apply chunkKey_inj in H; lia); done.
Qed.

Lemma updateMeshAt_fold_other keys w k :
  k ∉ keys -> chunks (fold_left updateMeshAt keys w) !! k = chunks w !! k.
Proof.
  revert w. induction keys as [|key keys IH]; intros w Hk; [done|].
  simpl. apply not_elem_of_cons in Hk as [Hne Hk].
  rewrite IH by done. by apply updateMeshAt_lookup_ne.
Qed.

Lemma updateMeshAt_fold_builds keys w k n :
  NoDup keys -> k ∈ keys -> builds w k = Some n ->
  builds (fold_left updateMeshAt keys w) k = Some (S n).
Proof.
  revert w. induction keys as [|key keys IH]; intros w Hnd Hk Hb.
  { by apply elem_of_nil in Hk. }
  apply NoDup_cons in Hnd as [Hnotin Hnd]. simpl.
  apply elem_of_cons in Hk as [->|Hk].
  - unfold builds. rewrite updateMeshAt_fold_other by done.
    rewrite updateMeshAt_lookup_eq.
    unfold builds in Hb. destruct (chunks w !! key) as [c|]; [|done].
    simpl in *. by simplify_eq.
  - apply IH; [done|done|].
    unfold builds. rewrite updateMeshAt_lookup_ne; [done|].
    intros ->. done.
Qed.


(** The rebuild counts after a write to a loaded chunk of a well-formed
    world: one for the owning chunk; one for each loaded horizontal neighbour
    when the boundary test succeeds; none elsewhere. *)
Lemma World_setBlock_builds w x y z type key n :
  wfWorld w -> 0 <= y < WORLD_HEIGHT ->
  is_Some (chunks w !! chunkKey (chunkOf x) (chunkOf z)) ->
  builds w key = Some n ->
  builds (World_setBlock w x y z type) key =
  Some (if decide (key = chunkKey (chunkOf x) (chunkOf z)) then S n
        else if onChunkBoundary x z
                && bool_decide (key ∈ neighborKeys (chunkOf x) (chunkOf z))
             then S n
             else n).
Proof.
  intros Hwf Hy [c Hc] Hb.
  destruct (wfWorld_lookup _ _ _ _ Hwf Hc) as (_ & _ & Hs & Hh & _).
  rewrite World_setBlock_unfold, heightCheck_in by done. cbv zeta.
  rewrite Hc, updateNeighborChunksIfNeeded_unfold.
  set (key0 := chunkKey (chunkOf x) (chunkOf z)) in *.
  set (c1 := Chunk_setBlock _ _ _ _ _ _).
  assert (meshBuilds c1 = S (meshBuilds c)) as Hc1.
  { unfold c1. rewrite Chunk_setBlock_in;
      rewrite ?Hs, ?Hh; auto using localOf_bound. }
  destruct (NoDup_neighborKeys (chunkOf x) (chunkOf z)) as [Hnd Hnotin].
  fold key0 in Hnotin.
  assert (builds (withChunk w key0 c1) key
          = Some (if decide (key = key0) then S n else n)) as Hb1.
  { unfold builds. rewrite chunks_withChunk.
    case_decide as Hk.
    - subst key. rewrite lookup_insert_eq. simpl.
      unfold builds in Hb. rewrite Hc in Hb. simpl in Hb. congruence.
    - by rewrite lookup_insert_ne. }
  destruct (onChunkBoundary x z); cbn [andb].
  - case_bool_decide as Hin.
    + case_decide as Hk; [by subst key|].
      by apply updateMeshAt_fold_builds.
    + unfold builds. rewrite updateMeshAt_fold_other by done.
      fold (builds (withChunk w key0 c1) key). rewrite Hb1.
      by case_decide.
  - rewrite Hb1. by case_decide.
Qed.

(** Chunks other than the owning chunk and its four horizontal neighbours
    are not touched by a write. *)
Lemma World_setBlock_other w x y z type key :
  key <> chunkKey (chunkOf x) (chunkOf z) ->
  key ∉ neighborKeys (chunkOf x) (chunkOf z) ->
  chunks (World_setBlock w x y z type) !! key = chunks w !! key.
Proof.
  intros Hne Hnotin. rewrite World_setBlock_unfold.
  case_match; [done|]. cbv zeta.
  destruct (chunks w !! chunkKey (chunkOf x) (chunkOf z)) as [c|]; [|done].
  rewrite updateNeighborChunksIfNeeded_unfold.
  destruct (onChunkBoundary x z).
  - rewrite updateMeshAt_fold_other by done.
    rewrite chunks_withChunk. by rewrite lookup_insert_ne.
  - rewrite chunks_withChunk. by rewrite lookup_insert_ne.
Qed.

(** The voxel data of every chunk but the owning one survives a write. *)
Lemma World_setBlock_voxelData_other w x y z type key :
  key <> chunkKey (chunkOf x) (chunkOf z) ->
  voxelData <$> chunks (World_setBlock w x y z type) !! key
  = voxelData <$> chunks w !! key.
Proof.
  intros Hne. rewrite World_setBlock_unfold.
  case_match; [done|]. cbv zeta.
  destruct (chunks w !! chunkKey (chunkOf x) (chunkOf z)) as [c|]; [|done].
  rewrite <- (sameVoxels_updateNeighborChunksIfNeeded _ x y z key).
  rewrite chunks_withChunk. by rewrite lookup_insert_ne.
Qed.

(** C4, amended. For every in-bounds write at local [x = 0] of a loaded chunk
    [(cx, cz)] of a well-formed world, negative coordinates included,
    [World.setBlock] remeshes once every loaded chunk among the four
    horizontal neighbours [(cx-1, cz)], [(cx+1, cz)], [(cx, cz-1)],
    [(cx, cz+1)], the west one in particular, without changing their voxel
    data; every chunk other than [(cx, cz)] and these four is left as it
    was. *)
Theorem boundary_edit_propagation (w : World) (x y z : Z) (k : BlockType) :
  wfWorld w ->
  0 <= y < WORLD_HEIGHT ->
  is_Some (chunks w !! chunkKey (chunkOf x) (chunkOf z)) ->
  localOf x = 0 ->
  let w' := World_setBlock w x y z k in
  let cx := chunkOf x in
  let cz := chunkOf z in
  (forall dx dz c,
     (dx, dz) ∈ [ (-1, 0); (1, 0); (0, -1); (0, 1) ] ->
     chunks w !! chunkKey (cx + dx) (cz + dz) = Some c ->
     exists c',
       chunks w' !! chunkKey (cx + dx) (cz + dz) = Some c'
       /\ meshBuilds c' = S (meshBuilds c)
       /\ voxelData c' = voxelData c)
  /\ (forall c,
        chunks w !! chunkKey (cx - 1) cz = Some c ->
        rebuiltBetween w w' (chunkKey (cx - 1) cz))
  /\ (forall cx' cz',
        (cx', cz') ∉ [ (cx, cz); (cx - 1, cz); (cx + 1, cz);
                       (cx, cz - 1); (cx, cz + 1) ] ->
        chunks w' !! chunkKey cx' cz' = chunks w !! chunkKey cx' cz').
Proof.
  intros Hwf Hy Hloaded Hx0 w' cx cz.
  pose proof (onChunkBoundary_local0 x z Hx0) as Hbd.
  assert (forall dx dz c,
     (dx, dz) ∈ [ (-1, 0); (1, 0); (0, -1); (0, 1) ] ->
     chunks w !! chunkKey (cx + dx) (cz + dz) = Some c ->
     exists c',
       chunks w' !! chunkKey (cx + dx) (cz + dz) = Some c'
       /\ meshBuilds c' = S (meshBuilds c)
       /\ voxelData c' = voxelData c) as Hneigh.
  { intros dx dz c Hd Hc.
    assert (chunkKey (cx + dx) (cz + dz) ∈ neighborKeys cx cz) as Hin.
    { unfold neighborKeys. rewrite !elem_of_cons in Hd.
      rewrite !elem_of_cons.
      destruct Hd as [[= -> ->]|[[= -> ->]|[[= -> ->]|[[= -> ->]|Hd]]]];
        [auto|auto|auto|auto 6|by apply elem_of_nil in Hd]. }
    assert (chunkKey (cx + dx) (cz + dz) <> chunkKey cx cz) as Hne.
    { intros Heq. rewrite Heq in Hin.
      by apply (NoDup_neighborKeys cx cz) in Hin. }
    pose proof (World_setBlock_builds w x y z k
                  (chunkKey (cx + dx) (cz + dz)) (meshBuilds c)
                  Hwf Hy Hloaded) as Hb.
    unfold builds at 1 in Hb. rewrite Hc in Hb. specialize (Hb eq_refl).
    fold cx cz in Hb. rewrite decide_False in Hb by done.
    rewrite Hbd, bool_decide_eq_true_2 in Hb by done. simpl in Hb.
    pose proof (World_setBlock_voxelData_other w x y z k _ Hne) as Hv.
    rewrite Hc in Hv. unfold builds in Hb. fold w' in Hb, Hv.
    destruct (chunks w' !! chunkKey (cx + dx) (cz + dz)) as [c'|]; [|done].
    exists c'. simpl in Hb, Hv. split; [done|]. split; congruence. }
  split; [done|]. split.
  - intros c Hc.
    destruct (Hneigh (-1) 0 c) as (c' & Hc' & Hb & _); [set_solver| |].
    { by replace (cx + -1) with (cx - 1) by lia;
        replace (cz + 0) with cz by lia. }
    replace (cx + -1) with (cx - 1) in Hc' by lia.
    replace (cz + 0) with cz in Hc' by lia.
    exists (meshBuilds c), (meshBuilds c'). unfold builds.
    rewrite Hc, Hc'. simpl. split; [done|]. split; [done|]. lia.
  - intros cx' cz' Hnotin. rewrite !not_elem_of_cons in Hnotin.
    destruct Hnotin as (H0 & H1 & H2 & H3 & H4 & _).
    apply World_setBlock_other.
    + fold cx cz. intros [-> ->]%chunkKey_inj. done.
    + fold cx cz. unfold neighborKeys. rewrite !not_elem_of_cons.
      repeat split; try apply not_elem_of_nil;
        intros [-> ->]%chunkKey_inj;
        [apply H1|apply H2|apply H3|apply H4]; f_equal; lia.
Qed.

(** X5. At a negative world [x] the remainder [x % CHUNK_SIZE] is not adjusted
    before the boundary test: a write at local [x = CHUNK_SIZE - 1] of a
    chunk left of the origin, away from the [z] edges, remeshes no neighbour;
    every chunk but the owning one is left as it was. *)
Theorem negative_east_edge_not_propagated
    (w : World) (x y z : Z) (k : BlockType) (key : string) :
  x < 0 ->
  localOf x = CHUNK_SIZE - 1 ->
  0 < localOf z < CHUNK_SIZE - 1 ->
  key <> chunkKey (chunkOf x) (chunkOf z) ->
  chunks (World_setBlock w x y z k) !! key = chunks w !! key.
Proof.
  intros Hx Hlx Hlz Hkey.
  assert (onChunkBoundary x z = false) as Hb.
  { unfold onChunkBoundary, localOf, CHUNK_SIZE in *. cbv zeta in *.
    pose proof (Z.rem_bound_pos_neg x 16 ltac:(lia) ltac:(lia)) as Hrx.
    pose proof (Z.rem_bound_abs z 16 ltac:(lia)) as Hrz.
    destruct (Z.ltb_spec (Z.rem x 16) 0); [|lia].
    destruct (Z.ltb_spec (Z.rem z 16) 0);
      repeat match goal with
             | |- context [?a =? ?b] => destruct (Z.eqb_spec a b); try lia
             end; done. }
  rewrite World_setBlock_unfold. case_match; [done|]. cbv zeta.
  destruct (chunks w !! chunkKey (chunkOf x) (chunkOf z)) as [c|]; [|done].
  rewrite updateNeighborChunksIfNeeded_unfold, Hb, chunks_withChunk.
  by rewrite lookup_insert_ne.
Qed.

(** ** Face culling *)

Section Meshing.

Lemma self_loaded w key c :
  chunks w !! key = Some c -> self w key c = Some w.
Proof.
  intros Hc. unfold self, withChunk. destruct w as [m]. simpl in *.
  by rewrite insert_id.
Qed.

Lemma filter_bind_unique {A B} `{EqDecision A}
    (P : B -> Prop) `{forall b, Decision (P b)}
    (f : A -> list B) (l : list A) (a : A) :
  NoDup l ->
  (forall a', a' <> a -> filter P (f a') = []) ->
  filter P (l ≫= f) = if decide (a ∈ l) then filter P (f a) else [].
Proof.
  intros Hnd Hf. induction Hnd as [|a0 l Hnotin Hnd IH].
  - rewrite decide_False; [done|]. apply not_elem_of_nil.
  - rewrite bind_cons, filter_app, IH.
    destruct (decide (a0 = a)) as [->|Hne].
    + rewrite (decide_True (P:=a ∈ a :: l)) by left.
      rewrite decide_False by done. by rewrite app_nil_r.
    + rewrite Hf by done. simpl.
      destruct (decide (a ∈ l)) as [Hin|Hnin].
      * rewrite decide_True; [done|]. by right.
      * rewrite decide_False; [done|].
        rewrite not_elem_of_cons. auto.
Qed.

Lemma filter_none {A} (P : A -> Prop) `{forall a, Decision (P a)} l :
  (forall a, a ∈ l -> ~ P a) -> filter P l = [].
Proof.
  intros Hl. induction l as [|a l IH]; [done|].
  rewrite filter_cons_False; [|apply Hl; left].
  apply IH. intros a' Ha'. apply Hl. by right.
Qed.

(** Every quad of a voxel carries the coordinates and the kind of the
    voxel. *)
Lemma voxelQuads_elem W c x y z q :
  q ∈ voxelQuads W c x y z ->
  quadX q = x /\ quadY q = y /\ quadZ q = z
  /\ quadBlock q = blockAt (blocks c) x y z.
Proof.
  unfold voxelQuads. cbv zeta. case_decide; [by intros ?%elem_of_nil|].
  intros (i & Hq & _)%list_elem_of_bind.
  destruct (nth_Z directions i) as [[[dx dy] dz]|];
    [|by apply elem_of_nil in Hq].
  destruct (isFaceVisible _ _ _ _ _ _ _ _); [|by apply elem_of_nil in Hq].
  apply list_elem_of_singleton in Hq as ->. done.
Qed.

Lemma directions_index i d : nth_Z directions i = Some d -> 0 <= i < 6.
Proof. intros H%nth_Z_bound. simpl in H. lia. Qed.

(** The quads of one face of one voxel. *)
Lemma voxelQuads_face W c x y z i dx dy dz :
  nth_Z directions i = Some (dx, dy, dz) ->
  filter (quadAt i x y z) (voxelQuads W c x y z) =
  if bool_decide (blockAt (blocks c) x y z <> AIR)
     && isFaceVisible W c x y z dx dy dz
  then [mkQuad (blockAt (blocks c) x y z) i x y z]
  else [].
Proof.
  intros Hi. unfold voxelQuads. cbv zeta.
  case_decide as Hair.
  { rewrite bool_decide_eq_false_2 by tauto. done. }
  rewrite bool_decide_eq_true_2 by done. cbn [andb].
  rewrite (filter_bind_unique _ _ _ i); [|apply NoDup_seqZ|].
  - rewrite decide_True
      by (apply elem_of_seqZ; pose proof (directions_index _ _ Hi); lia).
    rewrite Hi. destruct (isFaceVisible _ _ _ _ _ _ _ _); [|done].
    by rewrite filter_cons_True.
  - intros j Hj. apply filter_none. intros q Hq [Hf _].
    destruct (nth_Z directions j) as [[[dx' dy'] dz']|];
      [|by apply elem_of_nil in Hq].
    destruct (isFaceVisible _ _ _ _ _ _ _ _); [|by apply elem_of_nil in Hq].
    apply list_elem_of_singleton in Hq as ->. done.
Qed.

Lemma voxelQuads_elsewhere W c x y z i x' y' z' :
  (x', y', z') <> (x, y, z) ->
  filter (quadAt i x y z) (voxelQuads W c x' y' z') = [].
Proof.
  intros Hne. apply filter_none. intros q Hq (_ & Hx & Hy & Hz).
  apply voxelQuads_elem in Hq as (Hx' & Hy' & Hz' & _). congruence.
Qed.

(** The quads of one voxel in the mesh of a chunk. *)
Lemma buildQuads_voxel W c x y z i :
  filter (quadAt i x y z) (buildQuads W c) =
  if bool_decide (0 <= x < size c /\ 0 <= y < height c /\ 0 <= z < size c)
  then filter (quadAt i x y z) (voxelQuads W c x y z)
  else [].
Proof.
  unfold buildQuads.
  rewrite (filter_bind_unique _ _ _ x); [|apply NoDup_seqZ|].
  2:{ intros x' Hx'. apply filter_none. intros q Hq Hat.
      apply list_elem_of_bind in Hq as (y' & Hq & _).
      apply list_elem_of_bind in Hq as (z' & Hq & _).
      eapply (filter_nil_not_elem_of _ _ q
                (voxelQuads_elsewhere W c x y z i x' y' z' _)); eauto. }
  case_decide as Hx; rewrite elem_of_seqZ in Hx.
  2:{ rewrite bool_decide_eq_false_2; [done|]. lia. }
  rewrite (filter_bind_unique _ _ _ y); [|apply NoDup_seqZ|].
  2:{ intros y' Hy'. apply filter_none. intros q Hq Hat.
      apply list_elem_of_bind in Hq as (z' & Hq & _).
      eapply (filter_nil_not_elem_of _ _ q
                (voxelQuads_elsewhere W c x y z i x y' z' _)); eauto. }
  case_decide as Hy; rewrite elem_of_seqZ in Hy.
  2:{ rewrite bool_decide_eq_false_2; [done|]. lia. }
  rewrite (filter_bind_unique _ _ _ z); [|apply NoDup_seqZ|].
  2:{ intros z' Hz'. apply voxelQuads_elsewhere. congruence. }
  case_decide as Hz; rewrite elem_of_seqZ in Hz.
  2:{ rewrite bool_decide_eq_false_2; [done|]. lia. }
  rewrite bool_decide_eq_true_2 by lia. done.
  Unshelve. all: congruence.
Qed.

Lemma mesh_updateMesh W c : mesh (updateMesh W c) = buildQuads W c.
Proof. reflexivity. Qed.

(** Inside a well-formed world the decision of [isFaceVisible] is the rule
    [visibleAgainst] on the kinds the world holds at the voxel and at its
    neighbour, whether the neighbour is in the same chunk or not. *)
Lemma isFaceVisible_world w cx cz c x y z dx dy dz :
  wfWorld w ->
  chunks w !! chunkKey cx cz = Some c ->
  0 <= x < CHUNK_SIZE -> 0 <= y < WORLD_HEIGHT -> 0 <= z < CHUNK_SIZE ->
  isFaceVisible (Some w) c x y z dx dy dz =
  visibleAgainst
    (blockAt (blocks c) x y z)
    (World_getBlock w (cx * CHUNK_SIZE + x + dx) (y + dy)
                      (cz * CHUNK_SIZE + z + dz)).
Proof.
  intros Hwf Hc Hx Hy Hz.
  destruct (wfWorld_lookup _ _ _ _ Hwf Hc) as (HX & HZ & Hs & Hh & _).
  unfold isFaceVisible. cbv zeta. rewrite HX, HZ, Hs, Hh.
  destruct ((x + dx <? 0) || (x + dx >=? CHUNK_SIZE) || (y + dy <? 0)
            || (y + dy >=? WORLD_HEIGHT) || (z + dz <? 0)
            || (z + dz >=? CHUNK_SIZE)) eqn:Hout.
  - unfold visibleAgainst. case_decide as Hair.
    + by rewrite bool_decide_eq_true_2.
    + rewrite (bool_decide_eq_false_2 (_ = AIR)) by done.
      by destruct (bool_decide _ && isTransparent _).
  - rewrite !orb_false_iff in Hout.
    destruct Hout as (((((H1 & H2) & H3) & H4) & H5) & H6).
    apply Z.ltb_ge in H1, H3, H5.
    rewrite Z.geb_leb in H2, H4, H6. apply Z.leb_gt in H2, H4, H6.
    assert (World_getBlock w (cx * CHUNK_SIZE + x + dx) (y + dy)
              (cz * CHUNK_SIZE + z + dz)
            = blockAt (blocks c) (x + dx) (y + dy) (z + dz)) as ->.
    { replace (cx * CHUNK_SIZE + x + dx)
        with (cx * CHUNK_SIZE + (x + dx)) by lia.
      replace (cz * CHUNK_SIZE + z + dz)
        with (cz * CHUNK_SIZE + (z + dz)) by lia.
      rewrite (World_getBlock_loaded w _ _ _ c); [|done|lia|].
      - by rewrite !localOf_compose by lia.
      - by rewrite !chunkOf_compose by lia. }
    unfold visibleAgainst. case_decide as Hair.
    + by rewrite bool_decide_eq_true_2.
    + rewrite (bool_decide_eq_false_2 (_ = AIR)) by done.
      destruct (bool_decide _), (isTransparent (blockAt _ x y z)),
        (isTransparent (blockAt _ (x + dx) _ _)); done.
Qed.

(** The quads a world holds for one face of one voxel. *)
Lemma emittedQuads_spec w x y z i dx dy dz :
  wfWorld w ->
  nth_Z directions i = Some (dx, dy, dz) ->
  emittedQuads w x y z i =
  let current := World_getBlock w x y z in
  let adjacent := World_getBlock w (x + dx) (y + dy) (z + dz) in
  if bool_decide (current <> AIR) && visibleAgainst current adjacent
  then [mkQuad current i (localOf x) y (localOf z)]
  else [].
Proof.
  intros Hwf Hi. unfold emittedQuads. cbv zeta.
  destruct (chunks w !! chunkKey (chunkOf x) (chunkOf z)) as [c|] eqn:Hc.
  2:{ rewrite (World_getBlock_unfold w x y z), Hc.
      rewrite bool_decide_eq_false_2; [done|].
      destruct ((y <? 0) || (y >=? WORLD_HEIGHT)); tauto. }
  destruct (wfWorld_lookup _ _ _ _ Hwf Hc) as (HX & HZ & Hs & Hh & _).
  rewrite self_loaded, mesh_updateMesh, buildQuads_voxel by done.
  rewrite Hs, Hh.
  destruct (decide (0 <= y < WORLD_HEIGHT)) as [Hy|Hy].
  - rewrite bool_decide_eq_true_2
      by (pose proof (localOf_bound x); pose proof (localOf_bound z); lia).
    rewrite (voxelQuads_face _ _ _ _ _ _ dx dy dz) by done.
    rewrite (isFaceVisible_world w (chunkOf x) (chunkOf z))
      by auto using localOf_bound.
    rewrite !chunk_local_eq.
    by rewrite (World_getBlock_loaded w x y z c).
  - rewrite bool_decide_eq_false_2 by lia.
    rewrite (World_getBlock_unfold w x y z), heightCheck_out by lia.
    by rewrite bool_decide_eq_false_2 by tauto.
Qed.

(** An air voxel has no quads at all. *)
Lemma emittedQuads_air w x y z i :
  wfWorld w -> World_getBlock w x y z = AIR -> emittedQuads w x y z i = [].
Proof.
  intros Hwf Hair. unfold emittedQuads. cbv zeta.
  destruct (chunks w !! chunkKey (chunkOf x) (chunkOf z)) as [c|] eqn:Hc;
    [|done].
  destruct (wfWorld_lookup _ _ _ _ Hwf Hc) as (HX & HZ & Hs & Hh & _).
  rewrite self_loaded, mesh_updateMesh, buildQuads_voxel by done.
  case_bool_decide as Hin; [|done].
  rewrite Hs, Hh in Hin.
  rewrite (World_getBlock_loaded w x y z c) in Hair by tauto.
  unfold voxelQuads. cbv zeta. by rewrite decide_True.
Qed.

Lemma directions_opposite i dx dy dz :
  nth_Z directions i = Some (dx, dy, dz) ->
  nth_Z directions (oppositeFace i) = Some (- dx, - dy, - dz).
Proof.
  intros Hi. pose proof (directions_index _ _ Hi) as Hb.
  assert (i = 0 \/ i = 1 \/ i = 2 \/ i = 3 \/ i = 4 \/ i = 5)
    as [->|[->|[->|[->|[->| ->]]]]] by lia;
    vm_compute in Hi; injection Hi as <- <- <-; reflexivity.
Qed.

Lemma visibleAgainst_same k : k <> AIR -> visibleAgainst k k = false.
Proof.
  intros Hk. unfold visibleAgainst.
  rewrite bool_decide_eq_false_2 by done.
  by rewrite (bool_decide_eq_false_2 (k <> k)) by tauto.
Qed.

Lemma visibleAgainst_air k : visibleAgainst k AIR = true.
Proof. done. Qed.

End Meshing.

(** X6. The face visibility rule: in a well-formed world [isFaceVisible] shows the
    face of a voxel towards a neighbour exactly when the neighbour is air, or
    is of a transparent kind other than the kind of the voxel; the neighbour
    is read in the chunk itself or, across the border, in the world. *)
Theorem face_visibility_rule
    (w : World) (cx cz : Z) (c : Chunk) (x y z dx dy dz : Z) :
  wfWorld w ->
  chunks w !! chunkKey cx cz = Some c ->
  0 <= x < CHUNK_SIZE -> 0 <= y < WORLD_HEIGHT -> 0 <= z < CHUNK_SIZE ->
  let current := World_getBlock w (cx * CHUNK_SIZE + x) y (cz * CHUNK_SIZE + z) in
  let adjacent :=
    World_getBlock w (cx * CHUNK_SIZE + x + dx) (y + dy)
                     (cz * CHUNK_SIZE + z + dz) in
  isFaceVisible (Some w) c x y z dx dy dz = true
  <-> adjacent = AIR
      \/ (current <> adjacent /\ isTransparent adjacent = true).
Proof.
  intros Hwf Hc Hx Hy Hz current adjacent.
  rewrite (isFaceVisible_world w cx cz) by done. fold adjacent.
  assert (blockAt (blocks c) x y z = current) as ->.
  { unfold current. rewrite (World_getBlock_loaded w _ _ _ c); [|done|done|].
    - by rewrite !localOf_compose.
    - by rewrite !chunkOf_compose. }
  unfold visibleAgainst.
  rewrite orb_true_iff, andb_true_iff, !bool_decide_eq_true. tauto.
Qed.

(** C6. Face-culling symmetry, in the geometry [updateMesh] builds in a
    well-formed world. For two adjacent voxels of the same non-transparent
    kind, neither emits the face they share. For a non-transparent voxel
    (a voxel of a kind other than air and the transparent kinds) adjacent to
    air, exactly one quad is emitted for the shared boundary: it belongs to
    the non-transparent voxel, and the air voxel emits no quad at all. *)
Theorem face_culling_symmetry (w : World) (x y z i dx dy dz : Z) :
  wfWorld w ->
  nth_Z directions i = Some (dx, dy, dz) ->
  let current := World_getBlock w x y z in
  let adjacent := World_getBlock w (x + dx) (y + dy) (z + dz) in
  isTransparent current = false ->
  (adjacent = current ->
   emittedQuads w x y z i = []
   /\ emittedQuads w (x + dx) (y + dy) (z + dz) (oppositeFace i) = [])
  /\ (current <> AIR -> adjacent = AIR ->
      emittedQuads w x y z i = [mkQuad current i (localOf x) y (localOf z)]
      /\ forall j, emittedQuads w (x + dx) (y + dy) (z + dz) j = []).
Proof.
  intros Hwf Hi current adjacent Hsolid. split.
  - intros Hsame. split.
    + rewrite (emittedQuads_spec w x y z i dx dy dz) by done. cbv zeta.
      fold current adjacent. rewrite Hsame.
      destruct (decide (current = AIR)) as [Hair|Hair].
      * by rewrite bool_decide_eq_false_2 by tauto.
      * by rewrite visibleAgainst_same, andb_false_r.
    + rewrite (emittedQuads_spec w _ _ _ _ (- dx) (- dy) (- dz))
        by auto using directions_opposite.
      cbv zeta.
      replace (x + dx + - dx) with x by lia.
      replace (y + dy + - dy) with y by lia.
      replace (z + dz + - dz) with z by lia.
      fold current adjacent. rewrite Hsame.
      destruct (decide (current = AIR)) as [Hair|Hair].
      * by rewrite bool_decide_eq_false_2 by tauto.
      * by rewrite visibleAgainst_same, andb_false_r.
  - intros Hne Hair. split.
    + rewrite (emittedQuads_spec w x y z i dx dy dz) by done. cbv zeta.
      fold current adjacent. rewrite Hair.
      by rewrite bool_decide_eq_true_2, visibleAgainst_air.
    + intros j. by apply emittedQuads_air.
Qed.

(** ** Ray casts *)

Section RaycastProofs.

Variable normalize : Vector3 -> Vector3.

(** More iterations do not change a hit. *)
Lemma raycastLoop_more w ray step steps extra pos h :
  raycastLoop w ray step steps pos = Some h ->
  raycastLoop w ray step (steps + extra) pos = Some h.
Proof.
  revert pos. induction steps as [|steps IH]; intros pos; [done|].
  simpl. case_decide; [done|]. apply IH.
Qed.

Lemma onColumnRay_step i pos :
  onColumnRay i pos ->
  onColumnRay (S i)
    (Vector3_add pos (Vector3_multiplyScalar downRay 0.1)).
Proof.
  intros (Hx & Hy & Hz). unfold onColumnRay.
  cbn [Vector3_add Vector3_multiplyScalar downRay vx vy vz].
  rewrite Hx, Hy, Hz, Nat2Z.inj_succ. unfold Z.succ.
  rewrite inject_Z_plus. repeat split; field.
Qed.

Lemma onColumnRay_floor i pos :
  onColumnRay i pos ->
  Qfloor (vx pos) = 0 /\ Qfloor (vz pos) = 0
  /\ ((i <= 100)%nat -> 50 <= Qfloor (vy pos) <= 60)
  /\ (i = 101%nat -> Qfloor (vy pos) = 49).
Proof.
  intros (Hx & Hy & Hz).
  rewrite (Qfloor_comp _ _ Hx), (Qfloor_comp _ _ Hz), (Qfloor_comp _ _ Hy).
  split; [done|]. split; [done|]. split.
  - intros Hi. split.
    + change 50 with (Qfloor (inject_Z 50)). apply Qfloor_resp_le.
      assert (inject_Z (Z.of_nat i) <= inject_Z 100)%Q as Hle
        by (rewrite <- Zle_Qle; lia).
      apply (Qplus_le_l _ _ (inject_Z (Z.of_nat i) / 10)).
      apply (Qle_trans _ (50 + inject_Z 100 / 10)).
      * apply Qplus_le_r. apply Qmult_le_compat_r; done.
      * assert (60 - inject_Z (Z.of_nat i) / 10
                + inject_Z (Z.of_nat i) / 10 == 60)%Q as -> by field.
        done.
    + change 60 with (Qfloor (inject_Z 60)). apply Qfloor_resp_le.
      assert (inject_Z 0 <= inject_Z (Z.of_nat i))%Q as Hle
        by (rewrite <- Zle_Qle; lia).
      apply (Qplus_le_l _ _ (inject_Z (Z.of_nat i) / 10)).
      assert (60 - inject_Z (Z.of_nat i) / 10
              + inject_Z (Z.of_nat i) / 10 == 60)%Q as -> by field.
      apply (Qle_trans _ (inject_Z 60 + inject_Z 0 / 10)); [done|].
      apply Qplus_le_r. apply Qmult_le_compat_r; done.
  - intros ->. done.
Qed.

(** The march of the scenario in any world that is air above the gap and
    stone below it. *)
Lemma raycastLoop_column w k i pos extra :
  (forall y, 50 <= y <= 60 -> World_getBlock w 0 y 0 = AIR) ->
  World_getBlock w 0 49 0 = STONE ->
  (i + k = 101)%nat ->
  onColumnRay i pos ->
  raycastLoop w downRay 0.1 (S k + extra) pos =
  Some (mkHit (mkVector3 0 49 0) (mkVector3 0 1 0) STONE).
Proof.
  intros Hair Hstone. revert i pos.
  induction k as [|k IH]; intros i pos Hik Hpos.
  - assert (i = 101%nat) as -> by lia.
    destruct (onColumnRay_floor _ _ Hpos) as (Hx & Hz & _ & Hy).
    specialize (Hy eq_refl).
    cbn [raycastLoop Nat.add]. rewrite Hx, Hy, Hz, Hstone.
    rewrite decide_True by done.
    destruct Hpos as (Hpx & Hpy & Hpz).
    assert (Qfloor (vx (Vector3_sub pos
              (Vector3_multiplyScalar downRay 0.1))) = 0) as ->.
    { cbn [Vector3_sub Vector3_multiplyScalar downRay vx vy vz].
      rewrite (Qfloor_comp _ (1 # 2)); [done|]. rewrite Hpx. field. }
    assert (Qfloor (vy (Vector3_sub pos
              (Vector3_multiplyScalar downRay 0.1))) = 50) as ->.
    { cbn [Vector3_sub Vector3_multiplyScalar downRay vx vy vz].
      rewrite (Qfloor_comp _ 50); [done|]. rewrite Hpy.
      change (inject_Z (Z.of_nat 101)) with 101%Q. field. }
    assert (Qfloor (vz (Vector3_sub pos
              (Vector3_multiplyScalar downRay 0.1))) = 0) as ->.
    { cbn [Vector3_sub Vector3_multiplyScalar downRay vx vy vz].
      rewrite (Qfloor_comp _ (1 # 2)); [done|]. rewrite Hpz. field. }
    reflexivity.
  - destruct (onColumnRay_floor _ _ Hpos) as (Hx & Hz & Hy & _).
    specialize (Hy ltac:(lia)).
    change (S (S k) + extra)%nat with (S (S k + extra)).
    cbn [raycastLoop]. rewrite Hx, Hz, Hair by done.
    rewrite decide_False by tauto.
    apply (IH (S i)); [lia|]. by apply onColumnRay_step.
Qed.

Lemma onColumnRay_origin : onColumnRay 0 columnOrigin.
Proof. unfold onColumnRay, columnOrigin. simpl. repeat split; reflexivity. Qed.

Lemma steps_sufficient maxDistance :
  (10.1 < maxDistance)%Q ->
  exists extra,
    Z.to_nat (Qceiling (maxDistance / 0.1)) = (S 101 + extra)%nat.
Proof.
  intros Hd.
  assert (101 < Qceiling (maxDistance / 0.1)) as Hc.
  { rewrite Zlt_Qlt. eapply Qlt_le_trans; [|apply Qle_ceiling].
    apply Qlt_shift_div_l; [reflexivity|]. exact Hd. }
  exists (Z.to_nat (Qceiling (maxDistance / 0.1)) - 102)%nat. lia.
Qed.

(** C7, amended. Flat-column ray scenario: in a world whose column
    [(0, _, 0)] is air from [y = 50] up to the origin of the ray and stone
    at [y = 49], [raycast] with origin [(0.5, 60, 0.5)], direction
    [(0, -1, 0)] (a unit vector, which [normalize] returns unchanged) and
    a maximum distance above [10.1] returns the hit with position
    [(0, 49, 0)], kind stone and normal [(0, 1, 0)]. *)
Theorem flat_column_ray (w : World) (maxDistance : Q) :
  normalize downRay = downRay ->
  (forall y, 50 <= y <= 60 -> World_getBlock w 0 y 0 = AIR) ->
  World_getBlock w 0 49 0 = STONE ->
  (10.1 < maxDistance)%Q ->
  raycast normalize w columnOrigin downRay maxDistance =
  Some (mkHit (mkVector3 0 49 0) (mkVector3 0 1 0) STONE).
Proof.
  intros Hn Hair Hstone Hd. unfold raycast. cbv zeta. rewrite Hn.
  destruct (steps_sufficient maxDistance Hd) as [extra ->].
  apply (raycastLoop_column w 101 0); auto using onColumnRay_origin.
Qed.

End RaycastProofs.

(** ** Terrain generation and [Math.random()] *)

Lemma generatedBlocks_generate random view cx cz size height n :
  blocks (Chunk_generate random view
            (Chunk_new random cx cz size height n).1 (S n)).1
  = generatedBlocks random cx cz size height n.
Proof.
  unfold generatedBlocks.
  by destruct (Chunk_generate_fields random view
                 (Chunk_new random cx cz size height n).1 (S n))
    as (_ & _ & _ & _ & _ & ->).
Qed.

Section RandomDraws.

Variables random1 random2 : nat -> Q.
Implicit Types st : list (list (list BlockType)) * nat.

Lemma fold_left_related {A B} (R : A -> A -> Prop) (f g : A -> B -> A)
    (l : list B) a1 a2 :
  (forall a1 a2 x, R a1 a2 -> R (f a1 x) (g a2 x)) ->
  R a1 a2 -> R (fold_left f l a1) (fold_left g l a2).
Proof.
  intros Hfg. revert a1 a2.
  induction l as [|x l IH]; intros a1 a2 HR; simpl; auto.
Qed.

Section SameDraws.

Variables n1 n2 : nat.
Hypothesis same_draws : forall k, random1 (n1 + k) = random2 (n2 + k).

Lemma generateTree_inStep c x y z st1 st2 :
  inStep n1 n2 st1 st2 ->
  inStep n1 n2 (generateTree random1 c x y z st1)
               (generateTree random2 c x y z st2).
Proof.
  destruct st1 as [b1 m1], st2 as [b2 m2].
  intros [Hb (k & Hm1 & Hm2)]. cbn [fst snd] in *. subst.
  unfold generateTree. case_match.
  - split; [done|]. by exists k.
  - rewrite same_draws. split; [done|]. exists (S k). cbn [snd]. lia.
Qed.

Lemma generateColumn_inStep c x z st1 st2 :
  inStep n1 n2 st1 st2 ->
  inStep n1 n2 (generateColumn random1 c x z st1)
               (generateColumn random2 c x z st2).
Proof.
  destruct st1 as [b1 m1], st2 as [b2 m2].
  intros [Hb (k & Hm1 & Hm2)]. cbn [fst snd] in *. subst.
  unfold generateColumn. cbv zeta.
  destruct (decide _).
  - rewrite same_draws. destruct (Qltb _ _).
    + apply generateTree_inStep. split; [done|]. exists (S k).
      cbn [snd]. lia.
    + split; [done|]. exists (S k). cbn [snd]. lia.
  - split; [done|]. by exists k.
Qed.

Lemma generateBlocks_inStep c k :
  inStep n1 n2 (generateBlocks random1 c (n1 + k))
               (generateBlocks random2 c (n2 + k)).
Proof.
  unfold generateBlocks.
  apply fold_left_related; [|split; [done|by exists k]].
  intros st1 st2 x Hst.
  apply fold_left_related; [|done].
  intros st1' st2' z Hst'. by apply generateColumn_inStep.
Qed.

End SameDraws.

Section NoTreeDraws.

Variables n1 n2 : nat.
Hypothesis no_tree1 :
  forall m, (n1 < m)%nat -> Qltb (random1 m) 0.02 = false.
Hypothesis no_tree2 :
  forall m, (n2 < m)%nat -> Qltb (random2 m) 0.02 = false.

Lemma generateColumn_sameBlocks c x z st1 st2 :
  sameBlocksAfter n1 n2 st1 st2 ->
  sameBlocksAfter n1 n2 (generateColumn random1 c x z st1)
                  (generateColumn random2 c x z st2).
Proof.
  destruct st1 as [b1 m1], st2 as [b2 m2].
  intros (Hb & Hm1 & Hm2). cbn [fst snd] in *. subst.
  unfold generateColumn. cbv zeta.
  destruct (decide _); [|done].
  rewrite no_tree1, no_tree2 by done.
  split; [done|]. cbn [snd]. lia.
Qed.

Lemma generateBlocks_sameBlocks c :
  sameBlocksAfter n1 n2 (generateBlocks random1 c (S n1))
                  (generateBlocks random2 c (S n2)).
Proof.
  unfold generateBlocks.
  apply fold_left_related; [|split; cbn [fst snd]; [done|lia]].
  intros st1 st2 x Hst.
  apply fold_left_related; [|done].
  intros st1' st2' z Hst'. by apply generateColumn_sameBlocks.
Qed.

End NoTreeDraws.

(** C1, amended. Terrain generation is deterministic given the noise
    source, the chunk coordinates and the results of [Math.random()]: two
    [generate()] calls on fresh chunks with identical seed produce identical
    voxel arrays when [Math.random()] returns the same values to both, and
    also when it returns no value below 0.02 to either (no tree is
    planted); the voxel arrays depend on random state outside the noise
    source through the tree placement only. *)
Theorem generation_deterministic_given_draws
    (chunkX chunkZ size height : Z) (n1 n2 : nat) :
  random1 n1 = random2 n2 ->
  ((forall k, random1 (n1 + k) = random2 (n2 + k))
   \/ ((forall m, (n1 < m)%nat -> Qltb (random1 m) 0.02 = false)
       /\ (forall m, (n2 < m)%nat -> Qltb (random2 m) 0.02 = false))) ->
  generatedBlocks random1 chunkX chunkZ size height n1
  = generatedBlocks random2 chunkX chunkZ size height n2.
Proof.
  intros Hseed Hdraws. unfold generatedBlocks.
  assert ((Chunk_new random1 chunkX chunkZ size height n1).1
          = (Chunk_new random2 chunkX chunkZ size height n2).1) as ->.
  { unfold Chunk_new. cbn [fst]. by rewrite Hseed. }
  set (c := (Chunk_new random2 chunkX chunkZ size height n2).1).
  destruct Hdraws as [Hsame|[H1 H2]].
  - pose proof (generateBlocks_inStep n1 n2 Hsame c 1) as [Hb _].
    by rewrite !Nat.add_1_r in Hb.
  - by destruct (generateBlocks_sameBlocks n1 n2 H1 H2 c) as [Hb _].
Qed.

End RandomDraws.

(** ** The surface block *)

(** For a terrain height that is not an integer the dirt test
    [y < terrainHeight - 1] succeeds at [y = floor(terrainHeight - 1)], so the
    surface branch is not reached there. *)
Lemma terrainBlock_fractional_height (terrainHeight : Q) :
  (2 <= terrainHeight)%Q ->
  (inject_Z (Qfloor (terrainHeight - 1)) < terrainHeight - 1)%Q ->
  terrainBlock (Qfloor (terrainHeight - 1)) terrainHeight = DIRT.
Proof.
  intros H2 Hfrac. unfold terrainBlock.
  assert (1 <= Qfloor (terrainHeight - 1)) as Hy.
  { change 1 with (Qfloor (inject_Z 1)). apply Qfloor_resp_le.
    apply (Qplus_le_l _ _ 1).
    assert (terrainHeight - 1 + 1 == terrainHeight)%Q as -> by ring.
    done. }
  destruct (Z.eqb_spec (Qfloor (terrainHeight - 1)) 0); [lia|].
  assert (Qltb (inject_Z (Qfloor (terrainHeight - 1))) (terrainHeight - 4)
          = false) as ->.
  { apply Qltb_ge.
    pose proof (Qlt_floor (terrainHeight - 1)) as Hlt.
    rewrite inject_Z_plus in Hlt. apply Qlt_le_weak.
    apply (Qplus_lt_l _ _ (inject_Z 1)).
    eapply Qle_lt_trans; [|apply Hlt].
    apply (Qplus_le_l _ _ (4 - terrainHeight)).
    assert (terrainHeight - 4 + inject_Z 1 + (4 - terrainHeight) == 1)%Q
      as -> by ring.
    assert (terrainHeight - 1 + (4 - terrainHeight) == 3)%Q as -> by ring.
    done. }
  by apply Qltb_lt in Hfrac as ->.
Qed.

(** For an integer terrain height the surface rule applies. *)
Lemma terrainBlock_integer_height (h : Z) :
  2 <= h ->
  terrainBlock (Qfloor (inject_Z h - 1)) (inject_Z h)
  = surfaceBlock (inject_Z h).
Proof.
  intros H2. unfold terrainBlock.
  assert (inject_Z h - 1 == inject_Z (h - 1))%Q as Heq.
  { unfold Z.sub. rewrite inject_Z_plus. reflexivity. }
  rewrite (Qfloor_comp _ _ Heq), Qfloor_Z.
  destruct (Z.eqb_spec (h - 1) 0); [lia|].
  assert (Qltb (inject_Z (h - 1)) (inject_Z h - 4) = false) as ->.
  { apply Qltb_ge. change 4%Q with (inject_Z 4).
    unfold Qminus. rewrite <- inject_Z_opp, <- inject_Z_plus, <- Zle_Qle. lia. }
  assert (Qltb (inject_Z (h - 1)) (inject_Z h - 1) = false) as ->.
  { apply Qltb_ge. rewrite Heq. apply Qle_refl. }
  by rewrite Z.eqb_refl.
Qed.

(** X4. Every terrain height of at least 2 that is not an integer leaves dirt,
    not the surface block, at [y = floor(terrainHeight - 1)]. *)
Theorem surface_is_dirt_at_fractional_heights (terrainHeight : Q) :
  (2 <= terrainHeight)%Q ->
  (inject_Z (Qfloor (terrainHeight - 1)) < terrainHeight - 1)%Q ->
  terrainBlock (Qfloor (terrainHeight - 1)) terrainHeight = DIRT.
Proof. apply terrainBlock_fractional_height. Qed.

(** ** Concrete worlds *)

Lemma airWorld_wf : wfWorld Examples.airWorld.
Proof. refine (@bool_decide_unpack _ (wfWorld_dec _) _). vm_compute. exact I. Qed.

Lemma stoneColumnWorld_wf : wfWorld Examples.stoneColumnWorld.
Proof. refine (@bool_decide_unpack _ (wfWorld_dec _) _). vm_compute. exact I. Qed.

Lemma groundColumnWorld_wf : wfWorld Examples.groundColumnWorld.
Proof. refine (@bool_decide_unpack _ (wfWorld_dec _) _). vm_compute. exact I. Qed.

(** A property of every height of the world, checked height by height. *)
Lemma forall_heights (P : Z -> Prop) `{forall y, Decision (P y)} lo n :
  bool_decide (Forall P (seqZ lo n)) = true ->
  forall y, lo <= y < lo + n -> P y.
Proof.
  intros Hall%bool_decide_eq_true y Hy.
  rewrite Forall_forall in Hall. apply Hall. by apply elem_of_seqZ.
Qed.

Lemma stoneColumnWorld_column y :
  0 <= y < WORLD_HEIGHT ->
  World_getBlock Examples.stoneColumnWorld 0 y 0 = if y =? 50 then AIR else STONE.
Proof.
  apply (forall_heights
           (fun y => World_getBlock Examples.stoneColumnWorld 0 y 0
                     = if y =? 50 then AIR else STONE) 0 WORLD_HEIGHT).
  vm_compute. reflexivity.
Qed.

Lemma groundColumnWorld_air y :
  50 <= y <= 60 -> World_getBlock Examples.groundColumnWorld 0 y 0 = AIR.
Proof.
  intros Hy.
  apply (forall_heights
           (fun y => World_getBlock Examples.groundColumnWorld 0 y 0 = AIR) 50 11);
    [|lia].
  vm_compute. reflexivity.
Qed.


(** ** Counterexamples to the claims as stated *)

(** C1. With the seed [1009/32768] the column [(2, 8)] of the chunk
    [(3, 12)] has terrain height 20 and a grass surface. When the later
    results of [Math.random()] are [1/2] no tree is planted and the voxel
    above the surface is air; when they are [0] a trunk is planted there. The
    two voxel arrays differ although seed and coordinates are the same. *)
Lemma generation_random_counterexample :
  Examples.drawsNoTree 0 = Examples.drawsTrees 0
  /\ getTerrainHeight (Examples.airChunk 3 12) (3 * 16 + 2) (12 * 16 + 8) = 20%Q
  /\ blockAt (generatedBlocks Examples.drawsNoTree 3 12
                CHUNK_SIZE WORLD_HEIGHT 0) 2 20 8 = AIR
  /\ blockAt (generatedBlocks Examples.drawsTrees 3 12
                CHUNK_SIZE WORLD_HEIGHT 0) 2 20 8 = WOOD
  /\ ~ generationClaimAsStated Examples.drawsNoTree Examples.drawsTrees
         3 12 0 0.
Proof.
  assert (blockAt (generatedBlocks Examples.drawsNoTree 3 12
                     CHUNK_SIZE WORLD_HEIGHT 0) 2 20 8 = AIR) as Hair
    by (vm_compute; reflexivity).
  assert (blockAt (generatedBlocks Examples.drawsTrees 3 12
                     CHUNK_SIZE WORLD_HEIGHT 0) 2 20 8 = WOOD) as Hwood
    by (vm_compute; reflexivity).
  split; [reflexivity|]. split; [vm_compute; reflexivity|].
  split; [exact Hair|]. split; [exact Hwood|].
  intros Hclaim. specialize (Hclaim eq_refl).
  rewrite Hclaim in Hair. congruence.
Qed.

(** C4. A write at local [x = 0] of the chunk [(0, 0)] also remeshes the east
    neighbour [(1, 0)], which does not share the west edge. *)
Lemma boundary_claim_counterexample :
  localOf 0 = 0
  /\ builds Examples.airWorld (chunkKey 1 0) = Some 0%nat
  /\ builds (World_setBlock Examples.airWorld 0 5 5 STONE) (chunkKey 1 0)
     = Some 1%nat
  /\ ~ boundaryClaimAsStated Examples.airWorld 0 5 5 STONE.
Proof.
  assert (builds (World_setBlock Examples.airWorld 0 5 5 STONE)
            (chunkKey 1 0) = Some 1%nat) as Hb
    by (vm_compute; reflexivity).
  split; [reflexivity|]. split; [reflexivity|]. split; [exact Hb|].
  intros Hclaim.
  destruct Hclaim as [_ Hno]; [done|by eexists|done|].
  apply (Hno 1 0); [by eexists|done|done|].
  exists 0%nat, 1%nat. split; [reflexivity|]. split; [exact Hb|lia].
Qed.

(** C7. In the column that is stone at every height but [y = 50] the ray
    starts inside the stone voxel at [y = 60]: the first sample is the hit,
    with position [(0, 60, 0)] and normal [(0, 0, 0)]. *)
Lemma flat_column_counterexample :
  raycast Examples.normalizeUnit Examples.stoneColumnWorld
          columnOrigin downRay 20
  = Some (mkHit (mkVector3 0 60 0) (mkVector3 0 0 0) STONE)
  /\ ~ flatColumnClaimAsStated Examples.normalizeUnit
         Examples.stoneColumnWorld 20.
Proof.
  assert (raycast Examples.normalizeUnit Examples.stoneColumnWorld
            columnOrigin downRay 20
          = Some (mkHit (mkVector3 0 60 0) (mkVector3 0 0 0) STONE)) as Hhit
    by (vm_compute; reflexivity).
  split; [done|].
  intros Hclaim. rewrite Hclaim in Hhit.
  - discriminate Hhit.
  - apply stoneColumnWorld_column.
Qed.

(** C5. The chunk [(3, 12)] generated with the seed [1009/32768]: the column
    [(8, 8)] (world [(56, 200)]) has the terrain height
    [929117422/48828125], about 19.03, for which the surface rule gives grass;
    the voxel at [y = floor(h - 1) = 18] is dirt. *)
Theorem surface_block_at_fractional_height :
  let c := Examples.airChunk 3 12 in
  let h := getTerrainHeight c 56 200 in
  h = 929117422 # 48828125
  /\ Qfloor (h - 1) = 18
  /\ surfaceBlock h = GRASS
  /\ blockAt (generatedBlocks Examples.drawsNoTree 3 12
                CHUNK_SIZE WORLD_HEIGHT 0) 8 (Qfloor (h - 1)) 8 = DIRT.
Proof. vm_compute. repeat split; reflexivity. Qed.

(** ** Witnesses: the theorems at concrete inputs *)

(** C1 at the chunk [(3, 12)]: two runs with the same seed in which
    [Math.random()] never returns a value below 0.02. *)
Lemma generation_deterministic_witness :
  Examples.drawsNoTree 0 = Examples.drawsNoTree' 0
  /\ generatedBlocks Examples.drawsNoTree 3 12 CHUNK_SIZE WORLD_HEIGHT 0
     = generatedBlocks Examples.drawsNoTree' 3 12 CHUNK_SIZE WORLD_HEIGHT 0.
Proof.
  split; [reflexivity|].
  apply generation_deterministic_given_draws; [reflexivity|].
  right. split; intros [|m] Hm; (lia || reflexivity).
Defined.

(** C4 at a write to [(0, 5, 5)], local [x = 0] of the chunk [(0, 0)], with
    the west neighbour loaded. *)
Lemma boundary_edit_propagation_witness :
  wfWorld Examples.airWorld
  /\ 0 <= 5 < WORLD_HEIGHT
  /\ is_Some (chunks Examples.airWorld !! chunkKey (chunkOf 0) (chunkOf 5))
  /\ localOf 0 = 0
  /\ rebuiltBetween Examples.airWorld
       (World_setBlock Examples.airWorld 0 5 5 STONE)
       (chunkKey (chunkOf 0 - 1) (chunkOf 5)).
Proof.
  assert (wfWorld Examples.airWorld) as Hwf
    by (refine (@bool_decide_unpack _ (wfWorld_dec _) _); vm_compute; exact I).
  assert (0 <= 5 < WORLD_HEIGHT) as Hy by (unfold WORLD_HEIGHT; lia).
  assert (is_Some (chunks Examples.airWorld
                     !! chunkKey (chunkOf 0) (chunkOf 5))) as Hl
    by (eexists; vm_compute; reflexivity).
  assert (localOf 0 = 0) as Hx by reflexivity.
  split; [exact Hwf|]. split; [exact Hy|]. split; [exact Hl|].
  split; [exact Hx|].
  destruct (boundary_edit_propagation Examples.airWorld 0 5 5 STONE
              Hwf Hy Hl Hx) as (_ & Hwest & _).
  apply (Hwest (Examples.airChunk (-1) 0)). vm_compute. reflexivity.
Defined.

(** C6 in the stone column with the gap at [y = 50]: the stone voxels at
    [y = 10] and [y = 11] share no face, and the stone voxel at [y = 49] has
    one quad towards the gap. *)
Lemma face_culling_symmetry_witness :
  wfWorld Examples.stoneColumnWorld
  /\ nth_Z directions 2 = Some (0, 1, 0)
  /\ (emittedQuads Examples.stoneColumnWorld 0 10 0 2 = []
      /\ emittedQuads Examples.stoneColumnWorld 0 11 0 3 = [])
  /\ (emittedQuads Examples.stoneColumnWorld 0 49 0 2
      = [mkQuad STONE 2 0 49 0]
      /\ forall j, emittedQuads Examples.stoneColumnWorld 0 50 0 j = []).
Proof.
  assert (wfWorld Examples.stoneColumnWorld) as Hwf
    by (refine (@bool_decide_unpack _ (wfWorld_dec _) _); vm_compute; exact I).
  assert (nth_Z directions 2 = Some (0, 1, 0)) as Hd by reflexivity.
  assert (World_getBlock Examples.stoneColumnWorld 0 10 0 = STONE) as H10
    by (vm_compute; reflexivity).
  assert (World_getBlock Examples.stoneColumnWorld 0 (10 + 1) 0 = STONE)
    as H11 by (vm_compute; reflexivity).
  assert (World_getBlock Examples.stoneColumnWorld 0 49 0 = STONE) as H49
    by (vm_compute; reflexivity).
  assert (World_getBlock Examples.stoneColumnWorld 0 (49 + 1) 0 = AIR)
    as H50 by (vm_compute; reflexivity).
  split; [exact Hwf|]. split; [exact Hd|]. split.
  - destruct (face_culling_symmetry Examples.stoneColumnWorld
                0 10 0 2 0 1 0 Hwf Hd) as [Hsame _];
      [by rewrite H10|].
    apply Hsame. change (0 + 0) with 0. by rewrite H10, H11.
  - destruct (face_culling_symmetry Examples.stoneColumnWorld
                0 49 0 2 0 1 0 Hwf Hd) as [_ Hair];
      [by rewrite H49|].
    rewrite H49 in Hair. apply Hair; [done|]. exact H50.
Defined.

(** C7 in the column that is stone below [y = 50] and air above, with a
    maximum distance of 20. *)
Lemma flat_column_ray_witness :
  Examples.normalizeUnit downRay = downRay
  /\ World_getBlock Examples.groundColumnWorld 0 49 0 = STONE
  /\ (10.1 < 20)%Q
  /\ raycast Examples.normalizeUnit Examples.groundColumnWorld
       columnOrigin downRay 20
     = Some (mkHit (mkVector3 0 49 0) (mkVector3 0 1 0) STONE).
Proof.
  assert (World_getBlock Examples.groundColumnWorld 0 49 0 = STONE) as Hs
    by (vm_compute; reflexivity).
  assert (10.1 < 20)%Q as Hd by reflexivity.
  split; [reflexivity|]. split; [exact Hs|]. split; [exact Hd|].
  apply flat_column_ray; [reflexivity| |exact Hs|exact Hd].
  intros y Hy.
  apply (forall_heights
           (fun y => World_getBlock Examples.groundColumnWorld 0 y 0 = AIR)
           50 11); [vm_compute; reflexivity|lia].
Defined.

(** C8 at [y = -1]. *)
Lemma out_of_range_degradation_witness :
  -1 < 0
  /\ (World_getBlock Examples.airWorld 0 (-1) 0 = AIR
      /\ World_setBlock Examples.airWorld 0 (-1) 0 STONE = Examples.airWorld)
  /\ (Chunk_getBlock (Examples.airChunk 0 0) 0 (-1) 0 = AIR
      /\ Chunk_setBlock (fun _ => None) (Examples.airChunk 0 0) 0 (-1) 0 STONE
         = Examples.airChunk 0 0).
Proof.
  assert (-1 < 0) as Hy by lia.
  destruct (out_of_range_degradation Examples.airWorld (fun _ => None)
              (Examples.airChunk 0 0) 0 (-1) 0 STONE) as [Hw Hc].
  destruct (Hw (or_introl Hy)) as (Hw1 & Hw2 & _).
  destruct (Hc (or_intror (or_intror (or_introl Hy)))) as (Hc1 & Hc2 & _).
  split; [exact Hy|]. split; split; assumption.
Defined.

(** C9 at the negative coordinate [(-1, 5, 3)], local [(15, 5, 3)] of the
    chunk [(-1, 0)]. *)
Lemma write_read_consistency_witness :
  wfWorld Examples.airWorld
  /\ 0 <= 5 < WORLD_HEIGHT
  /\ is_Some (chunks Examples.airWorld !! chunkKey (chunkOf (-1)) (chunkOf 3))
  /\ World_getBlock (World_setBlock Examples.airWorld (-1) 5 3 STONE) (-1) 5 3
     = STONE.
Proof.
  assert (wfWorld Examples.airWorld) as Hwf
    by (refine (@bool_decide_unpack _ (wfWorld_dec _) _); vm_compute; exact I).
  assert (0 <= 5 < WORLD_HEIGHT) as Hy by (unfold WORLD_HEIGHT; lia).
  assert (is_Some (chunks Examples.airWorld
                     !! chunkKey (chunkOf (-1)) (chunkOf 3))) as Hl
    by (eexists; vm_compute; reflexivity).
  split; [exact Hwf|]. split; [exact Hy|]. split; [exact Hl|].
  exact (write_read_consistency Examples.airWorld (-1) 5 3 STONE Hwf Hy Hl).
Defined.

(** C10 for an observer at [(8, 30, 8)] and the chunk [(0, 0)]. *)
Lemma edits_persist_in_range_witness :
  withinRenderDistance (mkVector3 8 30 8) 0 0
  /\ chunks Examples.airWorld !! chunkKey 0 0 = Some (Examples.airChunk 0 0)
  /\ chunks (World_update Examples.drawsNoTree (mkVector3 8 30 8)
               (Examples.airWorld, 0%nat)).1 !! chunkKey 0 0
     = Some (Examples.airChunk 0 0).
Proof.
  assert (withinRenderDistance (mkVector3 8 30 8) 0 0) as Hd
    by (vm_compute; discriminate).
  assert (chunks Examples.airWorld !! chunkKey 0 0
          = Some (Examples.airChunk 0 0)) as Hc
    by (vm_compute; reflexivity).
  split; [exact Hd|]. split; [exact Hc|].
  exact (proj1 (edits_persist_in_range Examples.drawsNoTree
                  (mkVector3 8 30 8) Examples.airWorld 0%nat 0 0
                  (Examples.airChunk 0 0) Hd Hc)).
Defined.

(** X3 for a write to [(-1, 5, 3)] that survives an update around
    [(8, 30, 8)]. *)
Lemma edit_survives_update_witness :
  wfWorld Examples.airWorld
  /\ 0 <= 5 < WORLD_HEIGHT
  /\ is_Some (chunks Examples.airWorld !! chunkKey (chunkOf (-1)) (chunkOf 3))
  /\ withinRenderDistance (mkVector3 8 30 8) (chunkOf (-1)) (chunkOf 3)
  /\ World_getBlock
       (World_update Examples.drawsNoTree (mkVector3 8 30 8)
          (World_setBlock Examples.airWorld (-1) 5 3 STONE, 0%nat)).1
       (-1) 5 3 = STONE.
Proof.
  assert (wfWorld Examples.airWorld) as Hwf
    by (refine (@bool_decide_unpack _ (wfWorld_dec _) _); vm_compute; exact I).
  assert (0 <= 5 < WORLD_HEIGHT) as Hy by (unfold WORLD_HEIGHT; lia).
  assert (is_Some (chunks Examples.airWorld
                     !! chunkKey (chunkOf (-1)) (chunkOf 3))) as Hl
    by (eexists; vm_compute; reflexivity).
  assert (withinRenderDistance (mkVector3 8 30 8) (chunkOf (-1)) (chunkOf 3))
    as Hd by (vm_compute; discriminate).
  split; [exact Hwf|]. split; [exact Hy|]. split; [exact Hl|].
  split; [exact Hd|].
  exact (edit_survives_update Examples.drawsNoTree (mkVector3 8 30 8)
           Examples.airWorld 0%nat (-1) 5 3 STONE Hwf Hy Hl Hd).
Defined.

(** X1 for the world of the constructor after one write. *)
Lemma reachable_world_well_formed_witness :
  reachable Examples.drawsNoTree
    (World_setBlock
       (generateInitialChunks Examples.drawsNoTree (mkWorld ∅, 0%nat)).1
       0 5 5 STONE,
     (generateInitialChunks Examples.drawsNoTree (mkWorld ∅, 0%nat)).2)
  /\ wfWorld
       (World_setBlock
          (generateInitialChunks Examples.drawsNoTree (mkWorld ∅, 0%nat)).1
          0 5 5 STONE).
Proof.
  assert (reachable Examples.drawsNoTree
            (World_setBlock
               (generateInitialChunks Examples.drawsNoTree
                  (mkWorld ∅, 0%nat)).1 0 5 5 STONE,
             (generateInitialChunks Examples.drawsNoTree
                (mkWorld ∅, 0%nat)).2)) as Hr.
  { apply reachable_setBlock.
    rewrite <- surjective_pairing. apply reachable_new. }
  split; [exact Hr|].
  exact (reachable_world_well_formed Examples.drawsNoTree _ Hr).
Defined.

(** X4 at the height [39/2]: the voxel at [y = 18] is dirt. *)
Lemma surface_is_dirt_at_fractional_heights_witness :
  (2 <= 39 # 2)%Q
  /\ (inject_Z (Qfloor ((39 # 2) - 1)) < (39 # 2) - 1)%Q
  /\ terrainBlock (Qfloor ((39 # 2) - 1)) (39 # 2) = DIRT.
Proof.
  assert (2 <= 39 # 2)%Q as H2 by (vm_compute; discriminate).
  assert (inject_Z (Qfloor ((39 # 2) - 1)) < (39 # 2) - 1)%Q as Hf
    by reflexivity.
  split; [exact H2|]. split; [exact Hf|].
  exact (surface_is_dirt_at_fractional_heights (39 # 2) H2 Hf).
Defined.

(** X5 at a write to [(-1, 5, 5)], local [x = 15] of the chunk [(-1, 0)]: the east
    neighbour [(0, 0)] is not remeshed. *)
Lemma negative_east_edge_not_propagated_witness :
  -1 < 0
  /\ localOf (-1) = CHUNK_SIZE - 1
  /\ 0 < localOf 5 < CHUNK_SIZE - 1
  /\ chunkKey 0 0 <> chunkKey (chunkOf (-1)) (chunkOf 5)
  /\ chunks (World_setBlock Examples.airWorld (-1) 5 5 STONE) !! chunkKey 0 0
     = chunks Examples.airWorld !! chunkKey 0 0.
Proof.
  assert (-1 < 0) as Hx by lia.
  assert (localOf (-1) = CHUNK_SIZE - 1) as Hlx by reflexivity.
  assert (0 < localOf 5 < CHUNK_SIZE - 1) as Hlz by (vm_compute; split; reflexivity).
  assert (chunkKey 0 0 <> chunkKey (chunkOf (-1)) (chunkOf 5)) as Hk
    by (vm_compute; discriminate).
  split; [exact Hx|]. split; [exact Hlx|]. split; [exact Hlz|].
  split; [exact Hk|].
  exact (negative_east_edge_not_propagated Examples.airWorld (-1) 5 5 STONE
           (chunkKey 0 0) Hx Hlx Hlz Hk).
Defined.

(** X6 at the top face of the stone voxel under the gap of the stone
    column. *)
Lemma face_visibility_rule_witness :
  wfWorld Examples.stoneColumnWorld
  /\ chunks Examples.stoneColumnWorld !! chunkKey 0 0
     = Some (Examples.columnChunk (fun y => if y =? 50 then AIR else STONE))
  /\ (isFaceVisible (Some Examples.stoneColumnWorld)
        (Examples.columnChunk (fun y => if y =? 50 then AIR else STONE))
        0 49 0 0 1 0 = true
      <-> World_getBlock Examples.stoneColumnWorld
            (0 * CHUNK_SIZE + 0 + 0) (49 + 1) (0 * CHUNK_SIZE + 0 + 0) = AIR
          \/ (World_getBlock Examples.stoneColumnWorld
                (0 * CHUNK_SIZE + 0) 49 (0 * CHUNK_SIZE + 0)
              <> World_getBlock Examples.stoneColumnWorld
                   (0 * CHUNK_SIZE + 0 + 0) (49 + 1) (0 * CHUNK_SIZE + 0 + 0)
              /\ isTransparent
                   (World_getBlock Examples.stoneColumnWorld
                      (0 * CHUNK_SIZE + 0 + 0) (49 + 1)
                      (0 * CHUNK_SIZE + 0 + 0)) = true)).
Proof.
  assert (wfWorld Examples.stoneColumnWorld) as Hwf
    by (refine (@bool_decide_unpack _ (wfWorld_dec _) _); vm_compute; exact I).
  assert (chunks Examples.stoneColumnWorld !! chunkKey 0 0
          = Some (Examples.columnChunk
                    (fun y => if y =? 50 then AIR else STONE))) as Hc
    by (vm_compute; reflexivity).
  split; [exact Hwf|]. split; [exact Hc|].
  exact (face_visibility_rule Examples.stoneColumnWorld 0 0 _ 0 49 0 0 1 0
           Hwf Hc ltac:(unfold CHUNK_SIZE; lia)
           ltac:(unfold WORLD_HEIGHT; lia) ltac:(unfold CHUNK_SIZE; lia)).
Defined.

(** X7 for the chunk [(2, 0)] generated beside the loaded chunk [(1, 0)]. *)
Lemma generation_leaves_loaded_chunks_witness :
  chunks Examples.airWorld !! chunkKey 1 0 = Some (Examples.airChunk 1 0)
  /\ chunks (generateChunk Examples.drawsNoTree 2 0
               (Examples.airWorld, 0%nat)).1 !! chunkKey 1 0
     = Some (Examples.airChunk 1 0).
Proof.
  assert (chunks Examples.airWorld !! chunkKey 1 0
          = Some (Examples.airChunk 1 0)) as Hc
    by (vm_compute; reflexivity).
  split; [exact Hc|].
  exact (generation_leaves_loaded_chunks Examples.drawsNoTree 2 0
           Examples.airWorld 0%nat (chunkKey 1 0) (Examples.airChunk 1 0) Hc).
Defined.
(** ** The noise source and the terrain height *)

Lemma frac_lattice (i : Z) : (inject_Z i - inject_Z (Qfloor (inject_Z i)) == 0)%Q.
Proof. rewrite Qfloor_Z. ring. Qed.

Lemma noise_integral n (x y : Q) :
  (x - inject_Z (Qfloor x) == 0)%Q -> (y - inject_Z (Qfloor y) == 0)%Q ->
  SimplexNoise.noise n x y = 0%Q.
Proof.
  intros Hx Hy. unfold SimplexNoise.noise.
  change 0%Q with (Qred 0). apply Qred_complete.
  cbv zeta. unfold SimplexNoise.lerp, SimplexNoise.fade, SimplexNoise.dot.
  cbv zeta. rewrite Hx, Hy. ring.
Qed.

(** X9. For every seed between 0 and 2^31, [noise(x, y)] is 0 at every
    point with integer coordinates. *)
Theorem noise_zero_on_lattice (s : Q) (i j : Z) :
  seedInRange s ->
  SimplexNoise.noise (SimplexNoise.new s) (inject_Z i) (inject_Z j) = 0%Q.
Proof. intros _. apply noise_integral; apply frac_lattice. Qed.

Lemma frac_range (x : Q) :
  (0 <= x - inject_Z (Qfloor x) /\ x - inject_Z (Qfloor x) < 1)%Q.
Proof.
  pose proof (Qfloor_le x). pose proof (Qlt_floor x) as H1.
  rewrite inject_Z_plus in H1. change (inject_Z 1) with 1%Q in H1.
  split; lra.
Qed.

Lemma square_nonneg (a : Q) : (0 <= a * a)%Q.
Proof.
  destruct (Qlt_le_dec a 0) as [H|H].
  - assert (a * a == (- a) * (- a))%Q as -> by ring.
    apply Qmult_le_0_compat; lra.
  - by apply Qmult_le_0_compat.
Qed.

Lemma cube_nonneg (t : Q) : (0 <= t -> 0 <= t * t * t)%Q.
Proof.
  intros H. apply Qmult_le_0_compat; [apply Qmult_le_0_compat|]; done.
Qed.

Lemma fade_range (t : Q) :
  (0 <= t <= 1 -> 0 <= SimplexNoise.fade t <= 1)%Q.
Proof.
  intros [H0 H1]. unfold SimplexNoise.fade.
  pose proof (cube_nonneg t H0) as H3.
  assert (0 <= 1 - t)%Q as H1' by lra.
  pose proof (cube_nonneg (1 - t) H1') as H3'.
  assert (0 <= t * (t * 6 - 15) + 10)%Q as Hp.
  { assert (t * (t * 6 - 15) + 10
            == 6 * ((t - (5 # 4)) * (t - (5 # 4))) + (5 # 8))%Q as -> by ring.
    pose proof (square_nonneg (t - (5 # 4))) as Hs. lra. }
  assert (0 <= 6 * (t * t) + 3 * t + 1)%Q as Hq.
  { pose proof (Qmult_le_0_compat t t H0 H0). lra. }
  split.
  - by apply Qmult_le_0_compat.
  - assert (1 - t * t * t * (t * (t * 6 - 15) + 10)
            == (1 - t) * (1 - t) * (1 - t) * (6 * (t * t) + 3 * t + 1))%Q as He
      by ring.
    pose proof (Qmult_le_0_compat _ _ H3' Hq). lra.
Qed.

Lemma lerp_range (lo hi a b t : Q) :
  (lo <= a <= hi -> lo <= b <= hi -> 0 <= t <= 1 ->
   lo <= SimplexNoise.lerp a b t <= hi)%Q.
Proof.
  intros Ha Hb Ht. unfold SimplexNoise.lerp.
  assert (a + t * (b - a) == (1 - t) * a + t * b)%Q as -> by ring.
  assert (0 <= 1 - t)%Q as Ht' by lra.
  destruct Ha, Hb, Ht.
  assert (0 <= (1 - t) * (a - lo))%Q by (apply Qmult_le_0_compat; lra).
  assert (0 <= t * (b - lo))%Q by (apply Qmult_le_0_compat; lra).
  assert (0 <= (1 - t) * (hi - a))%Q by (apply Qmult_le_0_compat; lra).
  assert (0 <= t * (hi - b))%Q by (apply Qmult_le_0_compat; lra).
  split; lra.
Qed.


Lemma seedInt_nonneg s : (0 <= s)%Q -> 0 <= SimplexNoise.seedInt s.
Proof.
  intros Hs. unfold SimplexNoise.seedInt. cbv zeta.
  assert (forall q, (0 <= q)%Q -> 0 <= Qfloor q) as Hfl.
  { intros q Hq. change 0 with (Qfloor 0). by apply Qfloor_resp_le. }
  assert (forall k, 0 <= k ->
            0 <= (if k <? 256 then Z.lor k (Z.shiftl k 8) else k)) as Hor.
  { intros k Hk. case_match; [|done].
    apply Z.lor_nonneg. split; [done|]. by apply Z.shiftl_nonneg. }
  apply Hor, Hfl. case_match; [|done].
  apply Qmult_le_0_compat; [done|]. done.
Qed.

Lemma permEntry_range sd i : 0 <= sd -> 0 <= i -> 0 <= SimplexNoise.permEntry sd i < 256.
Proof.
  intros Hsd Hi. unfold SimplexNoise.permEntry.
  apply Z.rem_bound_pos; [|lia].
  case_match; apply Z.lxor_nonneg; split; intros; lia.
Qed.

Lemma grad3_entry k :
  0 <= k < 12 -> exists g, nth_Z SimplexNoise.grad3 k = Some g /\ g ∈ SimplexNoise.grad3.
Proof.
  intros Hk. destruct (nth_Z_is_Some SimplexNoise.grad3 k) as [g Hg].
  { simpl. lia. }
  exists g. split; [done|]. by eapply nth_Z_elem_of.
Qed.

Lemma perm_lookup s i :
  0 <= i < 256 ->
  nth_Z (SimplexNoise.perm (SimplexNoise.new s)) i
  = Some (SimplexNoise.permEntry (SimplexNoise.seedInt s) i)
  /\ nth_Z (SimplexNoise.perm (SimplexNoise.new s)) (i + 256)
  = Some (SimplexNoise.permEntry (SimplexNoise.seedInt s) i).
Proof.
  intros Hi. unfold SimplexNoise.new, SimplexNoise.seed. cbn [SimplexNoise.perm].
  set (half := _ <$> seqZ 0 256).
  assert (length half = 256%nat) as Hlen
    by (unfold half; rewrite length_fmap, length_seqZ; done).
  assert (half !! Z.to_nat i = Some (SimplexNoise.permEntry (SimplexNoise.seedInt s) i)) as Hh.
  { unfold half. rewrite list_lookup_fmap.
    rewrite (lookup_seqZ_lt 0 256 (Z.to_nat i)) by lia.
    simpl. do 2 f_equal. lia. }
  unfold nth_Z.
  destruct (Z.ltb_spec i 0); [lia|]. destruct (Z.ltb_spec (i + 256) 0); [lia|].
  split.
  - rewrite lookup_app_l by lia. done.
  - rewrite lookup_app_r by lia.
    replace (Z.to_nat (i + 256) - length half)%nat with (Z.to_nat i) by lia.
    done.
Qed.

Lemma gradP_lookup s i :
  nth_Z (SimplexNoise.gradP (SimplexNoise.new s)) i
  = (fun pi => default [] (nth_Z SimplexNoise.grad3 (Z.rem pi 12)))
    <$> nth_Z (SimplexNoise.perm (SimplexNoise.new s)) i.
Proof.
  unfold SimplexNoise.new, SimplexNoise.seed. cbn [SimplexNoise.perm SimplexNoise.gradP].
  unfold nth_Z. case_match; [done|]. by rewrite list_lookup_fmap.
Qed.

Lemma perm_lookup_range s i :
  (0 <= s)%Q -> 0 <= i < 512 ->
  exists v, nth_Z (SimplexNoise.perm (SimplexNoise.new s)) i = Some v
            /\ 0 <= v < 256.
Proof.
  intros Hs Hi. pose proof (seedInt_nonneg s Hs) as Hsd.
  destruct (decide (i < 256)) as [Hlt|Hge].
  - destruct (perm_lookup s i) as [H _]; [lia|].
    eexists. split; [exact H|]. apply permEntry_range; lia.
  - destruct (perm_lookup s (i - 256)) as [_ H]; [lia|].
    replace (i - 256 + 256) with i in H by lia.
    eexists. split; [exact H|]. apply permEntry_range; lia.
Qed.

(** X8. For a seed between 0 and 2^31 (the seeds [Math.random()] gives
    included), [seed] fills [perm] and [gradP] with 512 entries each; the
    second half of [perm] repeats the first; every entry of [perm] is in
    [0, 256), every entry of [gradP] is one of the twelve vectors of [grad3],
    and the indices [noise] computes for [gradP] are inside the table. *)
Theorem seed_tables_defined (s : Q) :
  seedInRange s ->
  let n := SimplexNoise.new s in
  length (SimplexNoise.perm n) = 512%nat
  /\ length (SimplexNoise.gradP n) = 512%nat
  /\ (forall i, 0 <= i < 256 ->
        SimplexNoise.permAt n (i + 256) = SimplexNoise.permAt n i)
  /\ (forall i, 0 <= i < 512 ->
        0 <= SimplexNoise.permAt n i < 256
        /\ SimplexNoise.gradAt n i ∈ SimplexNoise.grad3)
  /\ (forall X Y, 0 <= Y < 256 ->
        0 <= Z.land (X + SimplexNoise.permAt n Y) 511 < 512
        /\ 0 <= Z.land (X + 1 + SimplexNoise.permAt n (Y + 1)) 511 < 512).
Proof.
  intros [Hs _] n.
  split. { unfold n, SimplexNoise.new, SimplexNoise.seed. cbn [SimplexNoise.perm].
           by rewrite length_app, length_fmap, length_seqZ. }
  split. { unfold n, SimplexNoise.new, SimplexNoise.seed. cbn [SimplexNoise.gradP].
           by rewrite length_fmap, length_app, length_fmap, length_seqZ. }
  split.
  { intros i Hi. unfold SimplexNoise.permAt.
    destruct (perm_lookup s i Hi) as [H1 H2]. unfold n. by rewrite H1, H2. }
  split.
  { intros i Hi. destruct (perm_lookup_range s i Hs Hi) as (v & Hv & Hr).
    unfold SimplexNoise.permAt, SimplexNoise.gradAt, n.
    rewrite gradP_lookup, Hv. simpl. split; [done|].
    destruct (grad3_entry (Z.rem v 12)) as (g & Hg & Hin).
    { apply Z.rem_bound_pos; lia. }
    by rewrite Hg. }
  intros X Y HY.
  assert (forall a, 0 <= Z.land a 511 < 512) as Hland.
  { intros a. change 511 with (Z.ones 9). rewrite Z.land_ones by lia.
    apply Z.mod_pos_bound. lia. }
  split; apply Hland.
Qed.

Lemma gradAt_components s i :
  let g := SimplexNoise.gradAt (SimplexNoise.new s) i in
  -1 <= default 0 (nth_Z g 0) <= 1 /\ -1 <= default 0 (nth_Z g 1) <= 1.
Proof.
  intros g. unfold g, SimplexNoise.gradAt. rewrite gradP_lookup.
  destruct (nth_Z (SimplexNoise.perm _) i) as [v|]; simpl; [|lia].
  destruct (nth_Z SimplexNoise.grad3 (Z.rem v 12)) as [g'|] eqn:Hg; simpl; [|lia].
  apply nth_Z_elem_of in Hg.
  unfold SimplexNoise.grad3 in Hg.
  repeat (apply elem_of_cons in Hg as [->|Hg]; [simpl; lia|]).
  by apply elem_of_nil in Hg.
Qed.

Lemma dot_range s i (a b : Q) :
  (-1 <= a <= 1 -> -1 <= b <= 1 ->
   -2 <= SimplexNoise.dot (SimplexNoise.gradAt (SimplexNoise.new s) i) a b <= 2)%Q.
Proof.
  intros Ha Hb. unfold SimplexNoise.dot. cbv zeta.
  destruct (gradAt_components s i) as [H0 H1].
  set (g0 := default 0 (nth_Z _ 0)) in *.
  set (g1 := default 0 (nth_Z _ 1)) in *.
  assert (g0 = -1 \/ g0 = 0 \/ g0 = 1) as Hg0 by lia.
  assert (g1 = -1 \/ g1 = 0 \/ g1 = 1) as Hg1 by lia.
  destruct Hg0 as [Hg0|[Hg0|Hg0]], Hg1 as [Hg1|[Hg1|Hg1]];
    rewrite Hg0, Hg1;
    change (inject_Z (-1)) with (-1)%Q; change (inject_Z 0) with 0%Q;
    change (inject_Z 1) with 1%Q; lra.
Qed.

Lemma noise_range (s x y : Q) :
  (-2 <= SimplexNoise.noise (SimplexNoise.new s) x y <= 2)%Q.
Proof.
  unfold SimplexNoise.noise. cbv zeta. rewrite Qred_correct.
  pose proof (frac_range x) as Hx. pose proof (frac_range y) as Hy.
  set (x' := (x - inject_Z (Qfloor x))%Q) in *.
  set (y' := (y - inject_Z (Qfloor y))%Q) in *.
  pose proof (fade_range x') as Hfx. pose proof (fade_range y') as Hfy.
  apply lerp_range; [apply lerp_range|apply lerp_range|];
    try apply dot_range; lra.
Qed.

(** X10. For every seed between 0 and 2^31, [noise] returns a value between
    -2 and 2 at every point. *)
Theorem noise_bounded (s x y : Q) :
  seedInRange s ->
  (-2 <= SimplexNoise.noise (SimplexNoise.new s) x y <= 2)%Q.
Proof. intros _. apply noise_range. Qed.

Lemma Qmax_spec a b : (a <= Qmax a b /\ b <= Qmax a b
                       /\ (Qmax a b = a \/ Qmax a b = b))%Q.
Proof.
  unfold Qmax. destruct (Qle_bool a b) eqn:E.
  - apply Qle_bool_iff in E. split; [done|]. split; [apply Qle_refl|by right].
  - split; [apply Qle_refl|]. split; [|by left].
    apply Qlt_le_weak, Qnot_le_lt. intros H. apply Qle_bool_iff in H. congruence.
Qed.

Lemma Qmin_spec a b : (Qmin a b <= a /\ Qmin a b <= b
                       /\ (Qmin a b = a \/ Qmin a b = b))%Q.
Proof.
  unfold Qmin. destruct (Qle_bool a b) eqn:E.
  - apply Qle_bool_iff in E. split; [apply Qle_refl|]. split; [done|by left].
  - split; [|split; [apply Qle_refl|by right]].
    apply Qlt_le_weak, Qnot_le_lt. intros H. apply Qle_bool_iff in H. congruence.
Qed.

Lemma getTerrainHeight_range (c : Chunk) (s : Q) (x z : Z) :
  seedInRange s -> simplex c = SimplexNoise.new s ->
  (1 <= getTerrainHeight c x z)%Q
  /\ (getTerrainHeight c x z <= 76)%Q
  /\ (2 <= height c -> (getTerrainHeight c x z <= inject_Z (height c - 1))%Q).
Proof.
  intros Hs Hn. unfold getTerrainHeight. cbv zeta. rewrite Hn.
  pose proof (noise_range s (inject_Z x * 0.01) (inject_Z z * 0.01)) as H1.
  pose proof (noise_range s (inject_Z x * 0.05) (inject_Z z * 0.05)) as H2.
  pose proof (noise_range s (inject_Z x * 0.2) (inject_Z z * 0.2)) as H3.
  set (t := Qred _).
  assert (t <= 76)%Q as Ht by (unfold t; rewrite Qred_correct; lra).
  destruct (Qmin_spec (inject_Z (height c - 1)) t) as (Hm1 & Hm2 & _).
  destruct (Qmax_spec 1 (Qmin (inject_Z (height c - 1)) t)) as (HM1 & _ & HM).
  split; [done|]. split.
  - destruct HM as [->| ->]; lra.
  - intros Hh. assert (1 <= inject_Z (height c - 1))%Q.
    { rewrite <- (Zle_Qle 1). lia. }
    destruct HM as [->| ->]; lra.
Qed.

(** X11. In a chunk whose noise source has a seed between 0 and 2^31,
    [getTerrainHeight] returns a height between 1 and 76, and at most
    [height - 1] in a chunk at least two voxels high: in a world 128 voxels
    high the upper clamp is never reached. *)
Theorem terrain_height_bounds (c : Chunk) (s : Q) (x z : Z) :
  seedInRange s -> simplex c = SimplexNoise.new s ->
  (1 <= getTerrainHeight c x z)%Q
  /\ (getTerrainHeight c x z <= 76)%Q
  /\ (2 <= height c -> (getTerrainHeight c x z <= inject_Z (height c - 1))%Q).
Proof. apply getTerrainHeight_range. Qed.

Lemma Qfloor_lt_Z (q : Q) (k : Z) : (q < inject_Z k)%Q -> Qfloor q < k.
Proof.
  intros H. pose proof (Qfloor_le q) as Hle.
  rewrite Zlt_Qlt. lra.
Qed.

Lemma Qfloor_ge_Z (q : Q) (k : Z) : (inject_Z k <= q)%Q -> k <= Qfloor q.
Proof.
  intros H. rewrite <- (Qfloor_Z k). by apply Qfloor_resp_le.
Qed.

Lemma Qfloor_le_Z (q : Q) (k : Z) : (q <= inject_Z k)%Q -> Qfloor q <= k.
Proof.
  intros H. rewrite <- (Qfloor_Z k). by apply Qfloor_resp_le.
Qed.

(** ** The voxels [generate] leaves *)

Section Painting.
Implicit Types b : list (list (list BlockType)).

Lemma fold_left_preserves_elem {A B} (P : A -> Prop) (f : A -> B -> A) l a :
  (forall a x, x ∈ l -> P a -> P (f a x)) -> P a -> P (fold_left f l a).
Proof.
  revert a. induction l as [|x l IH]; intros a Hf Ha; simpl; [done|].
  apply IH.
  - intros a' x' Hx'. apply Hf. by right.
  - apply Hf; [by left|done].
Qed.

Lemma fold_left_settle {A B} (Inv : A -> Prop) (Q : A -> Prop)
    (f : A -> B -> A) l1 x l2 a :
  Inv a ->
  (forall a y, Inv a -> Inv (f a y)) ->
  (forall a, Inv a -> Q (f a x)) ->
  (forall a y, y ∈ l2 -> Inv a -> Q a -> Q (f a y)) ->
  Q (fold_left f (l1 ++ x :: l2) a).
Proof.
  intros Ha Hinv Hx Hl2. rewrite fold_left_app. simpl.
  assert (Inv (fold_left f l1 a)) as H1 by by apply fold_left_preserves.
  pose proof (Hx _ H1) as HQ. pose proof (Hinv _ x H1) as HI.
  revert HQ HI. generalize (f (fold_left f l1 a) x). clear H1 Ha a.
  induction l2 as [|y l2 IH]; intros a HQ HI; simpl; [done|].
  apply IH.
  - intros a' y' Hy'. apply Hl2. by right.
  - apply Hl2; [by left|done|done].
  - by apply Hinv.
Qed.

Lemma seqZ_split (n x : Z) :
  0 <= x < n -> seqZ 0 n = seqZ 0 x ++ x :: seqZ (x + 1) (n - x - 1).
Proof.
  intros Hx. replace n with (x + (n - x)) at 1 by lia.
  rewrite seqZ_app by lia. f_equal.
  rewrite (seqZ_cons (0 + x)) by lia.
  replace (0 + x) with x by lia.
  replace (Z.succ x) with (x + 1) by lia.
  replace (Z.pred (n - x)) with (n - x - 1) by lia. done.
Qed.

Lemma elem_of_seqZ_range (m n x : Z) : x ∈ seqZ m n -> m <= x < m + n.
Proof. by intros ?%elem_of_seqZ. Qed.

Lemma blockAt_setBlockAt_cases b x y z v x' y' z' :
  blockAt (setBlockAt b x y z v) x' y' z' = blockAt b x' y' z'
  \/ ((x', y', z') = (x, y, z) /\ blockAt (setBlockAt b x y z v) x' y' z' = v).
Proof.
  destruct (decide ((x, y, z) = (x', y', z'))) as [[= <- <- <-]|Hne];
    [|left; by apply blockAt_setBlockAt_ne].
  unfold setBlockAt.
  destruct (nth_Z b x) as [plane|] eqn:Hp; [|by left].
  destruct (nth_Z plane y) as [row|] eqn:Hr; [|by left].
  unfold blockAt. rewrite nth_Z_set_eq by (by eapply nth_Z_bound). simpl.
  rewrite nth_Z_set_eq by (by eapply nth_Z_bound). simpl.
  rewrite Hp. simpl. rewrite Hr. simpl.
  destruct (decide (0 <= z < Z.of_nat (length row))) as [Hz|Hz].
  - right. split; [done|]. by rewrite nth_Z_set_eq.
  - left. unfold nth_Z, set_Z. destruct (Z.ltb_spec z 0); [done|].
    rewrite list_insert_ge by lia. done.
Qed.

Lemma paints_refl P b : paints P b b.
Proof. intros x y z. by left. Qed.

Lemma paints_trans P b1 b2 b3 : paints P b1 b2 -> paints P b2 b3 -> paints P b1 b3.
Proof.
  intros H12 H23 x y z.
  destruct (H23 x y z) as [H|H]; [|by right].
  rewrite H. apply H12.
Qed.

Lemma paints_set (P : Z -> Z -> Z -> Prop) b x y z k :
  P x y z -> k = WOOD \/ k = LEAVES -> paints P b (setBlockAt b x y z k).
Proof.
  intros HP Hk x' y' z'.
  destruct (blockAt_setBlockAt_cases b x y z k x' y' z') as [H|[[= -> -> ->] H]];
    [by left|].
  right. split; [done|]. rewrite H. done.
Qed.

Lemma paints_weaken (P P' : Z -> Z -> Z -> Prop) b b' :
  (forall x y z, P x y z -> P' x y z) -> paints P b b' -> paints P' b b'.
Proof.
  intros HPP H x y z. destruct (H x y z) as [?|[? ?]]; [by left|].
  right. split; [by apply HPP|done].
Qed.

End Painting.

Section GenerationCells.

Variable random : nat -> Q.
Hypothesis draws : unitDraws random.
Implicit Types b : list (list (list BlockType)).

Lemma fold_column s h b x z (f : Z -> BlockType) ys :
  wfBlocks s h b -> 0 <= x < s -> 0 <= z < s ->
  (forall y, y ∈ ys -> 0 <= y < h) ->
  let b' := fold_left (fun b y => setBlockAt b x y z (f y)) ys b in
  (forall y, y ∈ ys -> blockAt b' x y z = f y)
  /\ (forall x' y' z', (x', z') <> (x, z) ->
        blockAt b' x' y' z' = blockAt b x' y' z').
Proof.
  intros Hwf Hx Hz. induction ys as [|y ys IH] using rev_ind; intros Hys b'.
  { split; [by intros y ?%elem_of_nil|done]. }
  unfold b'. rewrite fold_left_app. simpl.
  set (b1 := fold_left _ ys b).
  assert (wfBlocks s h b1) as Hwf1.
  { apply fold_left_preserves; [|done]. intros. by apply wfBlocks_setBlockAt. }
  destruct IH as [IH1 IH2].
  { intros y' Hy'. apply Hys. apply elem_of_app. by left. }
  fold b1 in IH1, IH2.
  split.
  - intros y0 Hy0. destruct (decide (y0 = y)) as [->|Hne].
    + eapply blockAt_setBlockAt_eq; [exact Hwf1|done| |done].
      apply Hys. apply elem_of_app. right. by left.
    + rewrite blockAt_setBlockAt_ne by congruence. apply IH1.
      apply elem_of_app in Hy0 as [?|Hy0]; [done|].
      apply list_elem_of_singleton in Hy0. done.
  - intros x' y' z' Hne. rewrite blockAt_setBlockAt_ne by congruence.
    by apply IH2.
Qed.

Lemma fillColumn_spec c x z th b :
  wfBlocks (size c) (height c) b -> 0 <= x < size c -> 0 <= z < size c ->
  (forall y, 0 <= y < height c ->
     blockAt (fillColumn c x z th b) x y z = terrainBlock y th)
  /\ (forall x' y' z', (x', z') <> (x, z) ->
        blockAt (fillColumn c x z th b) x' y' z' = blockAt b x' y' z').
Proof.
  intros Hwf Hx Hz. unfold fillColumn.
  destruct (fold_column (size c) (height c) b x z
              (fun y => terrainBlock y th) (seqZ 0 (height c)) Hwf Hx Hz)
    as [H1 H2].
  { intros y Hy%elem_of_seqZ. lia. }
  split; [|done]. intros y Hy. apply H1. apply elem_of_seqZ. lia.
Qed.

Lemma trunkHeight_range n : 4 <= 4 + Qfloor (random n * 3) <= 6.
Proof.
  destruct (draws n) as [H0 H1].
  assert (0 <= Qfloor (random n * 3)).
  { apply Qfloor_ge_Z. change (inject_Z 0) with 0%Q. lra. }
  assert (Qfloor (random n * 3) < 3).
  { apply Qfloor_lt_Z. change (inject_Z 3) with 3%Q. lra. }
  lia.
Qed.

Ltac fold_paints :=
  lazymatch goal with
  | |- paints ?P ?b0 (fold_left ?f ?l ?a) =>
      apply (fold_left_preserves_elem (paints P b0) f l a)
  end.

Lemma generateTree_paints c x y z b n :
  paints (treeBox c x y z) b (generateTree random c x y z (b, n)).1.
Proof.
  unfold generateTree.
  destruct ((x <? 2) || (x >=? size c - 2) || (z <? 2) || (z >=? size c - 2)
            || (y + 5 >=? height c)) eqn:Hc; [apply paints_refl|].
  assert (treeSite c x z) as Hsite by (unfold treeSite; lia).
  pose proof (trunkHeight_range n) as Ht.
  set (trunkHeight := 4 + Qfloor (random n * 3)) in *.
  clearbody trunkHeight. cbn [fst]. eapply paints_trans; cycle 1.
  - unfold treeLeaves. cbv zeta.
    fold_paints; [|apply paints_refl].
    intros a1 lX HlX%elem_of_seqZ Ha1.
    fold_paints; [|done].
    intros a2 lY HlY%elem_of_seqZ Ha2.
    fold_paints; [|done].
    intros a3 lZ HlZ%elem_of_seqZ Ha3.
    repeat case_match; try done.
    eapply paints_trans; [exact Ha3|]. apply paints_set; [|by right].
    unfold treeBox. split; [done|]. lia.
  - fold_paints; [|apply paints_refl].
    intros a tY HtY%elem_of_seqZ Ha.
    eapply paints_trans; [exact Ha|]. apply paints_set; [|by left].
    unfold treeBox. split; [done|]. lia.
Qed.

Section OneChunk.

Variable c : Chunk.
Variable s : Q.
Hypothesis seed_ok : seedInRange s.
Hypothesis simplex_c : simplex c = SimplexNoise.new s.

Lemma columnHeight_floor x z :
  1 <= Qfloor (columnHeight c x z) <= 76.
Proof.
  destruct (getTerrainHeight_range c s (chunkX c * size c + x)
              (chunkZ c * size c + z) seed_ok simplex_c) as (H1 & H2 & _).
  split; [by apply Qfloor_ge_Z|by apply Qfloor_le_Z].
Qed.

Lemma generateColumn_paints x z b n :
  paints (treeBox c x (Qfloor (columnHeight c x z)) z)
    (fillColumn c x z (columnHeight c x z) b)
    (generateColumn random c x z (b, n)).1.
Proof.
  unfold generateColumn. cbv zeta. fold (columnHeight c x z).
  destruct (decide _); [destruct (Qltb _ _)|]; cbn [fst];
    try apply paints_refl.
  apply generateTree_paints.
Qed.

Lemma generateColumn_own x z b n y :
  wfBlocks (size c) (height c) b ->
  0 <= x < size c -> 0 <= z < size c -> 0 <= y < height c ->
  generatedCell c x y z (blockAt (generateColumn random c x z (b, n)).1 x y z).
Proof.
  intros Hwf Hx Hz Hy.
  destruct (fillColumn_spec c x z (columnHeight c x z) b Hwf Hx Hz)
    as [Hfill _].
  pose proof (columnHeight_floor x z) as Hfl.
  destruct (generateColumn_paints x z b n x y z) as [->|[Hbox Hk]].
  - left. by apply Hfill.
  - right. destruct Hbox as (Hsite & _ & _ & Hy').
    split; [done|]. split; [lia|].
    exists x, z. split; [exact Hsite|]. unfold columnOrder. lia.
Qed.

Lemma generateColumn_other x z b n x0 y0 z0 :
  wfBlocks (size c) (height c) b ->
  0 <= x < size c -> 0 <= z < size c ->
  (x0, z0) <> (x, z) -> columnOrder x0 z0 x z ->
  generatedCell c x0 y0 z0 (blockAt b x0 y0 z0) ->
  generatedCell c x0 y0 z0
    (blockAt (generateColumn random c x z (b, n)).1 x0 y0 z0).
Proof.
  intros Hwf Hx Hz Hne Hord Hcell.
  destruct (fillColumn_spec c x z (columnHeight c x z) b Hwf Hx Hz)
    as [_ Hfill].
  pose proof (columnHeight_floor x z) as Hfl.
  destruct (generateColumn_paints x z b n x0 y0 z0) as [->|[Hbox Hk]].
  - by rewrite Hfill.
  - right. destruct Hbox as (Hsite & Hax & Haz & Hy').
    split; [done|]. split; [lia|].
    exists x, z. split; [exact Hsite|]. split; [exact Hord|]. lia.
Qed.

Lemma generateBlocks_cell n x0 y0 z0 :
  wfBlocks (size c) (height c) (blocks c) ->
  0 <= x0 < size c -> 0 <= y0 < height c -> 0 <= z0 < size c ->
  generatedCell c x0 y0 z0 (blockAt (generateBlocks random c n).1 x0 y0 z0).
Proof.
  intros Hwf Hx0 Hy0 Hz0. unfold generateBlocks.
  set (Inv := fun st : list (list (list BlockType)) * nat =>
                wfBlocks (size c) (height c) st.1).
  set (Q := fun st : list (list (list BlockType)) * nat =>
              generatedCell c x0 y0 z0 (blockAt st.1 x0 y0 z0)).
  assert (forall st x z, Inv st -> Inv (generateColumn random c x z st))
    as Hinv by (intros; by apply wfBlocks_generateColumn).
  set (inner := fun (st : list (list (list BlockType)) * nat) (x : Z) =>
                  fold_left (fun st z => generateColumn random c x z st)
                            (seqZ 0 (size c)) st).
  rewrite (seqZ_split (size c) x0) by done.
  apply (fold_left_settle Inv Q); unfold inner; [done| | |].
  - intros st x Hst. apply fold_left_preserves; [|done].
    intros st' z Hst'. by apply Hinv.
  - intros st Hst. rewrite (seqZ_split (size c) z0) by done.
    apply (fold_left_settle Inv Q); [done|by intros; apply Hinv| |].
    + intros [b m] Hb. by apply generateColumn_own.
    + intros [b m] z Hz%elem_of_seqZ Hb HQ.
      apply generateColumn_other; try done; try lia.
      * intros ?; simplify_eq; lia.
      * right. lia.
  - intros st x Hx%elem_of_seqZ Hst HQ.
    apply (fold_left_preserves_elem (fun st => Inv st /\ Q st)); [|done].
    intros [b m] z Hz%elem_of_seqZ [Hb HQ']. split; [by apply Hinv|].
    apply generateColumn_other; try done; try lia.
    + intros ?; simplify_eq; lia.
    + left. lia.
Qed.

End OneChunk.

End GenerationCells.

Lemma terrainBlock_floor th : terrainBlock 0 th = BEDROCK.
Proof. done. Qed.

Lemma terrainBlock_sky y th : (th <= 76)%Q -> 77 <= y -> terrainBlock y th = AIR.
Proof.
  intros Hth Hy. unfold terrainBlock.
  assert (inject_Z 77 <= inject_Z y)%Q as Hq by (by rewrite <- Zle_Qle).
  change (inject_Z 77) with 77%Q in Hq.
  destruct (Z.eqb_spec y 0); [lia|].
  destruct (Qltb _ (th - 4)) eqn:E1; [apply Qltb_lt in E1; lra|].
  destruct (Qltb _ (th - 1)) eqn:E2; [apply Qltb_lt in E2; lra|].
  destruct (Z.eqb_spec y (Qfloor (th - 1))) as [Heq|_].
  { assert (Qfloor (th - 1) <= 75).
    { apply Qfloor_le_Z. change (inject_Z 75) with 75%Q. lra. }
    lia. }
  destruct (Z.ltb_spec y 10); [lia|]. done.
Qed.

Section FreshChunk.

Variable random : nat -> Q.
Hypothesis draws : unitDraws random.
Variables cx cz sz ht : Z.
Variable n : nat.

Lemma unitDraws_seed k : seedInRange (random k).
Proof. destruct (draws k). split; lra. Qed.

Lemma generatedBlocks_cell x y z :
  0 <= x < sz -> 0 <= y < ht -> 0 <= z < sz ->
  generatedCell (Chunk_new random cx cz sz ht n).1 x y z
    (blockAt (generatedBlocks random cx cz sz ht n) x y z).
Proof.
  intros Hx Hy Hz. unfold generatedBlocks.
  apply (generateBlocks_cell random draws _ (random n)); try done.
  - apply unitDraws_seed.
  - apply wfBlocks_replicate.
Qed.

End FreshChunk.


(** X13. When [Math.random()] returns values in [0, 1), [generate] leaves
    bedrock at [y = 0] of every column of the chunk, and air at every height
    from 85 up; trees change neither. *)
Theorem generate_floor_and_sky
    (random : nat -> Q) (cx cz sz ht : Z) (n : nat) (x z : Z) :
  unitDraws random ->
  0 <= x < sz -> 0 <= z < sz ->
  (0 < ht ->
   blockAt (generatedBlocks random cx cz sz ht n) x 0 z = BEDROCK)
  /\ (forall y, 85 <= y < ht ->
        blockAt (generatedBlocks random cx cz sz ht n) x y z = AIR).
Proof.
  intros Hd Hx Hz. split.
  - intros Hh.
    destruct (generatedBlocks_cell random Hd cx cz sz ht n x 0 z)
      as [H|(_ & Hy & _)]; try done; lia.
  - intros y Hy.
    destruct (generatedBlocks_cell random Hd cx cz sz ht n x y z)
      as [H|(_ & Hy' & _)]; try done; try lia.
    rewrite H. apply terrainBlock_sky; [|lia].
    set (c0 := (Chunk_new random cx cz sz ht n).1).
    destruct (getTerrainHeight_range c0 (random n)
                (chunkX c0 * size c0 + x) (chunkZ c0 * size c0 + z))
      as (_ & H76 & _); [by apply unitDraws_seed|done|done].
Qed.

(** X14. When [Math.random()] returns values in [0, 1), the two planes
    [x = size - 2] and [x = size - 1] of a generated chunk hold the terrain
    blocks of their columns and nothing else: the leaves a tree has written
    there are overwritten when the columns are filled, so trees are cut off
    on that side of the chunk. *)
Theorem generate_far_planes_pure_terrain
    (random : nat -> Q) (cx cz sz ht : Z) (n : nat) (x y z : Z) :
  unitDraws random ->
  0 <= x < sz -> sz - 2 <= x ->
  0 <= y < ht -> 0 <= z < sz ->
  blockAt (generatedBlocks random cx cz sz ht n) x y z
  = terrainBlock y (columnHeight (Chunk_new random cx cz sz ht n).1 x z).
Proof.
  intros Hd Hx Hfar Hy Hz.
  destruct (generatedBlocks_cell random Hd cx cz sz ht n x y z)
    as [H|(_ & _ & tx & tz & [Hsite _] & Hord & _)]; try done.
  unfold columnOrder in Hord. unfold Chunk_new in Hsite.
  cbn [fst size] in Hsite. lia.
Qed.

(** ** Worlds that [update] leaves alone *)

Section Settled.

Variable random : nat -> Q.

Lemma World_update_settledAround p w n :
  settledAround (World_update random p (w, n)).1
    (playerChunkX p) (playerChunkZ p).
Proof.
  rewrite World_update_unfold. cbv zeta. cbn [fst chunks].
  destruct (requiredAndToLoad_spec w (playerChunkX p) (playerChunkZ p))
    as [Hreq Hload].
  set (r := requiredAndToLoad w (playerChunkX p) (playerChunkZ p)) in *.
  intros k. split.
  - intros [c Hc]. apply map_lookup_filter_Some in Hc as [_ Hk].
    by apply Hreq.
  - intros (x & z & -> & Hd).
    assert (exists c, chunks (loadChunks random r.2 (w, n)).1
                        !! chunkKey x z = Some c) as [c Hc].
    { destruct (chunks w !! chunkKey x z) as [c|] eqn:Hw.
      - exists c. by apply loadChunks_keeps.
      - destruct (loadChunks_loaded random r.2 w n x z) as (c & Hc & _);
          [by apply Hload|]. by exists c. }
    exists c. apply map_lookup_filter_Some. split; [done|].
    apply Hreq. by exists x, z.
Qed.

Lemma World_update_settled p w n :
  settledAround w (playerChunkX p) (playerChunkZ p) ->
  World_update random p (w, n) = (w, n).
Proof.
  intros Hs. rewrite World_update_unfold. cbv zeta.
  destruct (requiredAndToLoad_spec w (playerChunkX p) (playerChunkZ p))
    as [Hreq Hload].
  set (r := requiredAndToLoad w (playerChunkX p) (playerChunkZ p)) in *.
  assert (r.2 = []) as ->.
  { destruct r.2 as [|[x z] l] eqn:E; [done|]. exfalso.
    assert ((x, z) ∈ (x, z) :: l) as Hin by left.
    apply Hload in Hin as [Hd Hn].
    assert (is_Some (chunks w !! chunkKey x z)) as [c Hc]
      by (apply Hs; by exists x, z).
    congruence. }
  cbn [loadChunks fold_left fst snd]. f_equal.
  destruct w as [m]. cbn [chunks] in *. f_equal.
  apply map_filter_id. intros k c Hc. cbn [fst].
  apply Hreq. apply Hs. by exists c.
Qed.

(** X15. A second [update] while the observer is in the same chunk changes
    nothing: no chunk is loaded or unloaded, and [Math.random()] is not
    called. *)
Theorem update_is_idempotent (p p' : Vector3) (w : World) (n : nat) :
  playerChunkX p' = playerChunkX p ->
  playerChunkZ p' = playerChunkZ p ->
  World_update random p' (World_update random p (w, n))
  = World_update random p (w, n).
Proof.
  intros HX HZ.
  pose proof (World_update_settledAround p w n) as Hs.
  destruct (World_update random p (w, n)) as [w' n'].
  apply World_update_settled. by rewrite HX, HZ.
Qed.

Lemma generateInitialChunks_loadChunks st :
  generateInitialChunks random st = loadChunks random initialCoordinates st.
Proof. reflexivity. Qed.

Lemma elem_of_initialCoordinates x z :
  (x, z) ∈ initialCoordinates
  <-> Z.max (Z.abs (x - 0)) (Z.abs (z - 0)) <= RENDER_DISTANCE.
Proof.
  unfold initialCoordinates. rewrite list_elem_of_bind. split.
  - intros (x' & Hin & Hx). apply list_elem_of_bind in Hin as (z' & Hin & Hz).
    apply list_elem_of_singleton in Hin as [= -> ->].
    apply elem_of_seqZ in Hx, Hz. unfold RENDER_DISTANCE in *. lia.
  - intros Hd. exists x. split.
    + apply list_elem_of_bind. exists z. split; [by left|].
      apply elem_of_seqZ. unfold RENDER_DISTANCE in *. lia.
    + apply elem_of_seqZ. unfold RENDER_DISTANCE in *. lia.
Qed.

Lemma generateInitialChunks_settled n :
  settledAround (generateInitialChunks random (mkWorld ∅, n)).1 0 0.
Proof.
  rewrite generateInitialChunks_loadChunks. intros k. split.
  - intros Hk. apply loadChunks_lookup in Hk as [[c Hc]|([x z] & Hin & ->)].
    + cbn [chunks] in Hc. by rewrite lookup_empty in Hc.
    + exists x, z. split; [done|]. by apply elem_of_initialCoordinates.
  - intros (x & z & -> & Hd).
    destruct (loadChunks_loaded random initialCoordinates (mkWorld ∅) n x z)
      as (c & Hc & _); [by apply elem_of_initialCoordinates|].
    by exists c.
Qed.

(** X16. The constructor of the world loads exactly the chunks
    [(x, z)] with [-RENDER_DISTANCE <= x, z <= RENDER_DISTANCE], and an
    [update] for an observer in the chunk [(0, 0)] leaves that world as it
    is. *)
Theorem constructor_world_is_settled (p : Vector3) (n : nat) :
  playerChunkX p = 0 -> playerChunkZ p = 0 ->
  let st := generateInitialChunks random (mkWorld ∅, n) in
  (forall k, is_Some (chunks st.1 !! k) <->
     exists x z, k = chunkKey x z
                 /\ - RENDER_DISTANCE <= x <= RENDER_DISTANCE
                 /\ - RENDER_DISTANCE <= z <= RENDER_DISTANCE)
  /\ World_update random p st = st.
Proof.
  intros HX HZ st. pose proof (generateInitialChunks_settled n) as Hs.
  fold st in Hs. split.
  - intros k. rewrite (Hs k). split; intros (x & z & -> & Hd);
      exists x, z; (split; [done|]); unfold RENDER_DISTANCE in *; lia.
  - destruct st as [w' n']. apply World_update_settled. by rewrite HX, HZ.
Qed.

End Settled.

(** ** Writes: the other voxels and the stored geometry *)

Lemma World_setBlock_noop w x y z k :
  ~ (0 <= y < WORLD_HEIGHT
     /\ is_Some (chunks w !! chunkKey (chunkOf x) (chunkOf z))) ->
  World_setBlock w x y z k = w.
Proof.
  intros Hn. rewrite World_setBlock_unfold.
  destruct ((y <? 0) || (y >=? WORLD_HEIGHT)) eqn:Hy; [done|]. cbv zeta.
  destruct (chunks w !! _) as [c|] eqn:Hc; [|done].
  exfalso. apply Hn. split; [|by eexists]. unfold WORLD_HEIGHT in *. lia.
Qed.

(** A write changes the voxel it is aimed at and no other. *)
Lemma World_getBlock_setBlock_ne w x y z k x' y' z' :
  wfWorld w -> (x', y', z') <> (x, y, z) ->
  World_getBlock (World_setBlock w x y z k) x' y' z' = World_getBlock w x' y' z'.
Proof.
  intros Hwf Hne.
  destruct (decide (0 <= y < WORLD_HEIGHT
                    /\ is_Some (chunks w !! chunkKey (chunkOf x) (chunkOf z))))
    as [[Hy [c Hc]]|Hn]; [|by rewrite World_setBlock_noop].
  destruct (decide (chunkKey (chunkOf x') (chunkOf z')
                    = chunkKey (chunkOf x) (chunkOf z))) as [Hk|Hk].
  - destruct (World_setBlock_owner w x y z k c Hwf Hy Hc) as (c' & Hc' & Hb).
    rewrite !World_getBlock_unfold.
    destruct ((y' <? 0) || (y' >=? WORLD_HEIGHT)) eqn:Hy'; [done|].
    rewrite Hk, Hc, Hc'.
    pose proof (wfWorld_setBlock w x y z k Hwf) as Hwf'.
    destruct (wfWorld_lookup _ _ _ _ Hwf Hc) as (_ & _ & Hs & Hh & _).
    destruct (wfWorld_lookup _ _ _ _ Hwf' Hc') as (_ & _ & Hs' & Hh' & _).
    rewrite !Chunk_getBlock_in;
      rewrite ?Hs, ?Hh, ?Hs', ?Hh'; auto using localOf_bound;
      try (unfold WORLD_HEIGHT in *; lia).
    rewrite Hb. apply blockAt_setBlockAt_ne.
    apply chunkKey_inj in Hk as [Hcx Hcz].
    intros [= Hlx -> Hlz]. apply Hne.
    pose proof (chunk_local_eq x). pose proof (chunk_local_eq x').
    pose proof (chunk_local_eq z). pose proof (chunk_local_eq z').
    f_equal; [f_equal|]; congruence.
  - rewrite !World_getBlock_unfold.
    destruct ((y' <? 0) || (y' >=? WORLD_HEIGHT)) eqn:Hy'; [done|].
    pose proof (World_setBlock_voxelData_other w x y z k _ Hk) as Hv.
    destruct (chunks (World_setBlock w x y z k) !! _) as [c1|],
             (chunks w !! chunkKey (chunkOf x') (chunkOf z')) as [c2|];
      simpl in Hv; try done.
    apply Chunk_getBlock_voxelData. congruence.
Qed.

(** X17. [World.setBlock(x, y, z, k)] changes no voxel other than
    [(x, y, z)]: every read at another coordinate returns what it returned
    before the write. *)
Theorem write_leaves_other_voxels (w : World) (x y z : Z) (k : BlockType)
    (x' y' z' : Z) :
  wfWorld w -> (x', y', z') <> (x, y, z) ->
  World_getBlock (World_setBlock w x y z k) x' y' z' = World_getBlock w x' y' z'.
Proof. apply World_getBlock_setBlock_ne. Qed.

Section MeshCurrency.









End MeshCurrency.

Section WriteKeepsMeshes.













End WriteKeepsMeshes.


(** ** Ray casts in general *)

Section RaycastGeneral.

Variable normalize : Vector3 -> Vector3.

Lemma rayPoint_S ray step origin i :
  rayPoint ray step (Vector3_add origin (Vector3_multiplyScalar ray step)) i
  = rayPoint ray step origin (S i).
Proof.
  unfold rayPoint.
  exact (eq_sym (Nat.iter_succ_r i
           (fun p => Vector3_add p (Vector3_multiplyScalar ray step)) origin)).
Qed.

Lemma raycastLoop_spec w ray step steps origin :
  match raycastLoop w ray step steps origin with
  | Some h =>
      exists i, (i < steps)%nat
        /\ (forall j, (j < i)%nat ->
              kindAt w (voxelOf (rayPoint ray step origin j)) = AIR)
        /\ kindAt w (voxelOf (rayPoint ray step origin i)) <> AIR
        /\ h = hitAt w ray step (rayPoint ray step origin i)
  | None =>
      forall j, (j < steps)%nat ->
        kindAt w (voxelOf (rayPoint ray step origin j)) = AIR
  end.
Proof.
  revert origin. induction steps as [|steps IH]; intros origin.
  { cbn. intros j Hj. lia. }
  cbn [raycastLoop]. cbv zeta. case_decide as Hk.
  - exists 0%nat. split; [lia|]. split; [intros j Hj; lia|]. done.
  - specialize (IH (Vector3_add origin (Vector3_multiplyScalar ray step))).
    assert (kindAt w (voxelOf (rayPoint ray step origin 0)) = AIR) as H0.
    { destruct (decide (World_getBlock w (Qfloor (vx origin))
                          (Qfloor (vy origin)) (Qfloor (vz origin)) = AIR));
        [done|contradiction]. }
    destruct (raycastLoop _ _ _ _ _) as [h|].
    + destruct IH as (i & Hi & Hair & Hhit & Hh).
      exists (S i). split; [lia|]. rewrite <- rayPoint_S. split; [|done].
      intros [|j] Hj; [done|]. rewrite <- rayPoint_S. apply Hair. lia.
    + intros [|j] Hj; [done|]. rewrite <- rayPoint_S. apply IH. lia.
Qed.

Lemma raycast_unfold w origin direction maxDistance :
  raycast normalize w origin direction maxDistance
  = raycastLoop w (normalize direction) 0.1 (raySteps maxDistance) origin.
Proof. reflexivity. Qed.

(** X19. [raycast] returns the first of its sample points (the origin, then
    steps of 0.1 along the normalized direction) whose voxel is not air:
    the samples before it are in air, and the hit is the one built at that
    sample. It returns [null] exactly when all the samples are in air. *)
Theorem raycast_first_solid_sample
    (w : World) (origin direction : Vector3) (maxDistance : Q) :
  let ray := normalize direction in
  match raycast normalize w origin direction maxDistance with
  | Some h =>
      exists i, (i < raySteps maxDistance)%nat
        /\ (forall j, (j < i)%nat ->
              kindAt w (voxelOf (rayPoint ray 0.1 origin j)) = AIR)
        /\ kindAt w (voxelOf (rayPoint ray 0.1 origin i)) <> AIR
        /\ h = hitAt w ray 0.1 (rayPoint ray 0.1 origin i)
  | None =>
      forall j, (j < raySteps maxDistance)%nat ->
        kindAt w (voxelOf (rayPoint ray 0.1 origin j)) = AIR
  end.
Proof. intros ray. rewrite raycast_unfold. apply raycastLoop_spec. Qed.

Lemma raycast_hit w origin direction maxDistance h :
  raycast normalize w origin direction maxDistance = Some h ->
  exists i, (i < raySteps maxDistance)%nat
    /\ (forall j, (j < i)%nat ->
          kindAt w (voxelOf (rayPoint (normalize direction) 0.1 origin j))
          = AIR)
    /\ kindAt w (voxelOf (rayPoint (normalize direction) 0.1 origin i)) <> AIR
    /\ h = hitAt w (normalize direction) 0.1
             (rayPoint (normalize direction) 0.1 origin i).
Proof.
  intros Hr. rewrite raycast_unfold in Hr.
  pose proof (raycastLoop_spec w (normalize direction) 0.1
                (raySteps maxDistance) origin) as H.
  by rewrite Hr in H.
Qed.

Lemma voxelOf_hit_position w ray step p :
  voxelOf (position (hitAt w ray step p)) = voxelOf p.
Proof.
  unfold voxelOf, hitAt. cbn [position vx vy vz]. by rewrite !Qfloor_Z.
Qed.




End RaycastGeneral.

(** ** The controls *)

Section ControlsProofs.

Import FirstPersonControls.

(** X25. [handleCollisions] never moves the player into a block: if
    [checkBlockCollision] is false at the position before the call, it is
    false at the position after it. *)
Theorem handleCollisions_keeps_player_free (w : World) (delta : Q) (s : t) :
  checkBlockCollision w (yawPosition s) = false ->
  checkBlockCollision w (yawPosition (handleCollisions w delta s)) = false.
Proof.
  intros Hfree. unfold handleCollisions. cbv zeta.
  destruct (yawPosition s) as [px py pz] eqn:Hp. cbn [vx vy vz] in *.
  destruct (checkBlockCollision w (mkVector3 (px + _) py pz)) eqn:HX;
    cbn [vx vy vz];
    (destruct (checkBlockCollision w (mkVector3 _ _ (pz + _))) eqn:HZ;
     cbn [vx vy vz];
     (destruct (checkBlockCollision w (mkVector3 _ (py + _) _)) eqn:HY;
      cbn [vx vy vz withMotion yawPosition]; done)).
Qed.

Lemma World_getBlock_outside w x y z :
  y < 0 \/ WORLD_HEIGHT <= y -> World_getBlock w x y z = AIR.
Proof. intros Hy. unfold World_getBlock. by rewrite heightCheck_out. Qed.

Lemma World_getBlock_not_air w x y z :
  World_getBlock w x y z <> AIR ->
  0 <= y < WORLD_HEIGHT
  /\ is_Some (chunks w !! chunkKey (chunkOf x) (chunkOf z)).
Proof.
  intros Hk. rewrite World_getBlock_unfold in Hk.
  destruct ((y <? 0) || (y >=? WORLD_HEIGHT)) eqn:Hy; [done|].
  destruct (chunks w !! _) as [c|]; [|done].
  split; [unfold WORLD_HEIGHT in *; lia|by eexists].
Qed.

Lemma digitIndex_range code index :
  digitIndex code = Some index -> 1 <= index <= 9.
Proof.
  unfold digitIndex. repeat case_match; intros [= <-]; lia.
Qed.

Lemma selectedBlockType_onKeyDown code s :
  selectedBlockType (onKeyDown code s) = selectedBlockType s
  \/ selectedBlockType (onKeyDown code s) ∈ blockTypes.
Proof.
  unfold onKeyDown. cbv zeta.
  repeat (case_match; try (by left)).
  right. cbn [selectedBlockType withSelectedBlockType].
  match goal with H : digitIndex _ = Some ?index |- _ =>
    apply digitIndex_range in H;
    destruct (nth_Z_is_Some blockTypes (index - 1)) as [k Hk]; [cbn; lia|]
  end.
  rewrite Hk. cbn. by eapply nth_Z_elem_of.
Qed.

(** X26. In every state the controls reach through key presses, key
    releases, pointer-lock changes and collision handling, the selected
    block kind is one of the nine kinds of the table of [onKeyDown]; it is
    never air and never bedrock. *)
Theorem selected_block_type_is_placeable (s : t) :
  controlsReachable s ->
  selectedBlockType s ∈ blockTypes
  /\ selectedBlockType s <> AIR /\ selectedBlockType s <> BEDROCK.
Proof.
  intros Hr.
  assert (selectedBlockType s ∈ blockTypes) as Hin.
  { induction Hr as [|code s _ IH|code s _ IH|locked s _ IH|w delta s _ IH].
    - by left.
    - by destruct (selectedBlockType_onKeyDown code s) as [->|?].
    - unfold onKeyUp. by repeat case_match.
    - done.
    - unfold handleCollisions. cbv zeta. by repeat case_match. }
  split; [done|].
  unfold blockTypes in Hin.
  split; intros Heq; rewrite Heq in Hin;
    repeat (apply elem_of_cons in Hin as [?|Hin]; [done|]);
    by apply elem_of_nil in Hin.
Qed.

Lemma World_getBlock_setBlock_eq w x y z k :
  wfWorld w -> 0 <= y < WORLD_HEIGHT ->
  is_Some (chunks w !! chunkKey (chunkOf x) (chunkOf z)) ->
  World_getBlock (World_setBlock w x y z k) x y z = k.
Proof.
  intros Hwf Hy [c Hc].
  destruct (World_setBlock_owner w x y z k c Hwf Hy Hc) as (c' & Hc' & Hb).
  rewrite (World_getBlock_loaded _ _ _ _ c');
    [|by apply wfWorld_setBlock|done|done].
  rewrite Hb.
  destruct (wfWorld_lookup _ _ _ _ Hwf Hc) as (_ & _ & _ & _ & Hwfb).
  eapply blockAt_setBlockAt_eq; eauto using localOf_bound.
Qed.

(** X27. A left click while the pointer is locked and a block is selected
    (the hit of a [raycast] in a well-formed world) leaves air at the
    position of the hit and changes no other voxel. *)
Theorem left_click_removes_selected_block
    (intersectsBox : Box3.t -> Box3.t -> bool)
    (normalize : Vector3 -> Vector3)
    (w : World) (origin direction : Vector3) (maxDistance : Q)
    (s : t) (h : Hit) :
  wfWorld w -> mouseLook s = true ->
  raycast normalize w origin direction maxDistance = Some h ->
  selectedBlock s = Some h ->
  let w' := onMouseDown intersectsBox 0 s w in
  kindAt w' (voxelOf (position h)) = AIR
  /\ (forall v, v <> voxelOf (position h) -> kindAt w' v = kindAt w v).
Proof.
  intros Hwf Hlook Hray Hsel w'.
  assert (w' = setBlockAtVector w (position h) AIR) as ->.
  { unfold w', onMouseDown. rewrite Hlook, Hsel. reflexivity. }
  destruct (raycast_hit _ _ _ _ _ _ Hray) as (i & _ & _ & Hkind & Hh).
  assert (kindAt w (voxelOf (position h)) <> AIR) as Hk.
  { rewrite Hh, voxelOf_hit_position. exact Hkind. }
  unfold kindAt, voxelOf, setBlockAtVector in *. cbn [fst snd] in *.
  apply World_getBlock_not_air in Hk as [Hy Hl].
  split; [by apply World_getBlock_setBlock_eq|].
  intros [[x y] z] Hne. cbn [fst snd].
  apply World_getBlock_setBlock_ne; [done|]. congruence.
Qed.

End ControlsProofs.

(** ** The batches of [updateMesh] *)

Section Batches.

Lemma geometryGet_set_eq m key geo :
  geometryGet (geometrySet m key geo) key = Some geo.
Proof.
  induction m as [|[k g] m IH]; cbn.
  - by rewrite decide_True.
  - case_decide as Hk; cbn.
    + by rewrite decide_True.
    + by rewrite decide_False.
Qed.

Lemma geometryGet_set_ne m key geo key' :
  key' <> key -> geometryGet (geometrySet m key geo) key' = geometryGet m key'.
Proof.
  intros Hne. induction m as [|[k g] m IH]; cbn.
  - by rewrite decide_False.
  - case_decide as Hk; cbn.
    + subst k. by rewrite !decide_False.
    + case_decide; [done|]. apply IH.
Qed.

Lemma geometrySet_keys m key geo :
  (geometrySet m key geo).*1
  = match geometryGet m key with
    | Some _ => m.*1
    | None => m.*1 ++ [key]
    end.
Proof.
  induction m as [|[k g] m IH]; cbn; [done|].
  case_decide as Hk; cbn; [by subst k|].
  rewrite IH. by destruct (geometryGet m key).
Qed.

Lemma geometryGet_None m key : geometryGet m key = None -> key ∉ m.*1.
Proof.
  induction m as [|[k g] m IH]; cbn; [intros _; apply not_elem_of_nil|].
  case_decide as Hk; [done|]. intros H%IH.
  apply not_elem_of_cons. split; [congruence|done].
Qed.

Lemma geometryGet_elem m key geo :
  NoDup m.*1 -> (key, geo) ∈ m -> geometryGet m key = Some geo.
Proof.
  induction m as [|[k g] m IH]; cbn; [by intros _ ?%elem_of_nil|].
  intros [Hk Hnd]%NoDup_cons Hin.
  apply elem_of_cons in Hin as [[= -> ->]|Hin].
  - by rewrite decide_True.
  - rewrite decide_False; [by apply IH|].
    intros ->. apply Hk. apply list_elem_of_fmap. by exists (key, geo).
Qed.

Lemma NoDup_geometrySet m key geo :
  NoDup m.*1 -> NoDup (geometrySet m key geo).*1.
Proof.
  intros Hnd. rewrite geometrySet_keys.
  destruct (geometryGet m key) eqn:Hg; [done|].
  apply NoDup_app. split; [done|]. split; [|apply NoDup_singleton].
  intros k Hk ->%list_elem_of_singleton.
  by apply geometryGet_None in Hg.
Qed.

Lemma length_facePositions x y z dx dy dz :
  length (facePositions x y z dx dy dz) = 12%nat.
Proof.
  unfold facePositions. cbv zeta.
  destruct (faceTangents dx dy) as [[[tx ty] tz] [[bx by'] bz]].
  by repeat case_match.
Qed.

Lemma length_faceNormals dx dy dz : length (faceNormals dx dy dz) = 12%nat.
Proof. unfold faceNormals. by repeat case_match. Qed.

Lemma length_faceUvs dy : length (faceUvs dy) = 8%nat.
Proof. unfold faceUvs. by repeat case_match. Qed.

Lemma faceIndices_spec vOffset dy :
  length (faceIndices vOffset dy) = 6%nat
  /\ Forall (fun i => vOffset <= i < vOffset + 4) (faceIndices vOffset dy).
Proof.
  unfold faceIndices.
  repeat case_match; (split; [done|]); repeat constructor; lia.
Qed.

Lemma batchOf_pushFace n geo x y z dx dy dz :
  batchOf n geo -> batchOf (S n) (pushFace geo x y z dx dy dz).
Proof.
  intros (Hp & Hn & Hu & Hi & Hall). unfold pushFace. cbv zeta.
  destruct (faceIndices_spec (Z.of_nat (length (positions geo)) / 3) dy)
    as [Hl Hr].
  assert (Z.of_nat (length (positions geo)) / 3 = 4 * Z.of_nat n) as Hoff.
  { rewrite Hp. replace (Z.of_nat (12 * n)) with (4 * Z.of_nat n * 3) by lia.
    by rewrite Z.div_mul. }
  rewrite Hoff in Hl, Hr.
  unfold batchOf. cbn [positions normals uvs indices]. rewrite Hoff.
  rewrite !length_app, length_facePositions, length_faceNormals,
    length_faceUvs, Hl, Hp, Hn, Hu, Hi.
  repeat split; try lia.
  apply Forall_app. split.
  - eapply Forall_impl; [exact Hall|]. intros i ?. cbn beta in *. lia.
  - eapply Forall_impl; [exact Hr|]. intros i ?. cbn beta in *. lia.
Qed.

Lemma batchOf_empty : batchOf 0 emptyGeometry.
Proof. unfold batchOf. cbn. repeat split; constructor. Qed.

Lemma quadCount_snoc key qs q :
  quadCount key (qs ++ [q])
  = if decide (quadKey q = key) then S (quadCount key qs)
    else quadCount key qs.
Proof.
  unfold quadCount. rewrite filter_app, length_app.
  case_decide as Hk.
  - rewrite filter_cons_True by done. cbn. lia.
  - rewrite filter_cons_False by done. cbn. lia.
Qed.

Lemma batchesOf_pushQuad qs m q :
  is_Some (nth_Z directions (quadFace q)) ->
  batchesOf qs m -> batchesOf (qs ++ [q]) (pushQuad m q).
Proof.
  intros [[[dx dy] dz] Hd] [Hnd Hm]. unfold pushQuad. rewrite Hd. cbv zeta.
  fold (quadKey q).
  set (m1 := match geometryGet m (quadKey q) with
             | Some _ => m
             | None => geometrySet m (quadKey q) emptyGeometry
             end).
  assert (NoDup m1.*1) as Hnd1.
  { unfold m1. destruct (geometryGet m (quadKey q)); [done|].
    by apply NoDup_geometrySet. }
  assert (exists geo, geometryGet m1 (quadKey q) = Some geo
                      /\ batchOf (quadCount (quadKey q) qs) geo) as (geo & Hg & Hb).
  { unfold m1. pose proof (Hm (quadKey q)) as Hq.
    destruct (geometryGet m (quadKey q)) as [geo|] eqn:Hg.
    - exists geo. by destruct Hq.
    - exists emptyGeometry. rewrite geometryGet_set_eq, Hq.
      split; [done|apply batchOf_empty]. }
  assert (forall key, key <> quadKey q ->
            geometryGet m1 key = geometryGet m key) as Hother.
  { intros key Hne. unfold m1.
    destruct (geometryGet m (quadKey q)); [done|].
    by apply geometryGet_set_ne. }
  rewrite Hg. cbn [default].
  split; [by apply NoDup_geometrySet|].
  intros key. rewrite quadCount_snoc.
  destruct (decide (quadKey q = key)) as [<-|Hne].
  - rewrite geometryGet_set_eq. split; [lia|]. by apply batchOf_pushFace.
  - rewrite geometryGet_set_ne, Hother by done. apply Hm.
Qed.

Lemma batchesOf_fold qs :
  Forall (fun q => is_Some (nth_Z directions (quadFace q))) qs ->
  batchesOf qs (fold_left pushQuad qs []).
Proof.
  induction qs as [|q qs IH] using rev_ind; intros Hall.
  { split; [constructor|]. intros key. done. }
  apply Forall_app in Hall as [Hqs Hq]. rewrite Forall_singleton in Hq.
  rewrite fold_left_app. cbn [fold_left].
  apply batchesOf_pushQuad; [exact Hq|by apply IH].
Qed.

End Batches.

Section MeshContents.

Lemma filter_all {A} (P : A -> Prop) `{forall a, Decision (P a)} l :
  Forall P l -> filter P l = l.
Proof.
  induction l as [|a l IH]; intros Hl; [done|].
  apply Forall_cons in Hl as [H1 H2].
  rewrite filter_cons_True by done. by rewrite IH.
Qed.

Lemma voxelQuads_elem_visible W c x y z q :
  q ∈ voxelQuads W c x y z ->
  exists dx dy dz,
    nth_Z directions (quadFace q) = Some (dx, dy, dz)
    /\ q = mkQuad (blockAt (blocks c) x y z) (quadFace q) x y z
    /\ blockAt (blocks c) x y z <> AIR
    /\ isFaceVisible W c x y z dx dy dz = true.
Proof.
  unfold voxelQuads. cbv zeta. case_decide as Hair; [by intros ?%elem_of_nil|].
  intros (i & Hq & _)%list_elem_of_bind.
  destruct (nth_Z directions i) as [[[dx dy] dz]|] eqn:Hd;
    [|by apply elem_of_nil in Hq].
  destruct (isFaceVisible _ _ _ _ _ _ _ _) eqn:Hv;
    [|by apply elem_of_nil in Hq].
  apply list_elem_of_singleton in Hq as ->. cbn [quadFace].
  by exists dx, dy, dz.
Qed.

Lemma buildQuads_elem W c q :
  q ∈ buildQuads W c ->
  exists dx dy dz,
    nth_Z directions (quadFace q) = Some (dx, dy, dz)
    /\ 0 <= quadX q < size c /\ 0 <= quadY q < height c
    /\ 0 <= quadZ q < size c
    /\ quadBlock q = blockAt (blocks c) (quadX q) (quadY q) (quadZ q)
    /\ quadBlock q <> AIR
    /\ isFaceVisible W c (quadX q) (quadY q) (quadZ q) dx dy dz = true.
Proof.
  unfold buildQuads.
  intros (x & Hq & Hx%elem_of_seqZ)%list_elem_of_bind.
  apply list_elem_of_bind in Hq as (y & Hq & Hy%elem_of_seqZ).
  apply list_elem_of_bind in Hq as (z & Hq & Hz%elem_of_seqZ).
  apply voxelQuads_elem_visible in Hq as (dx & dy & dz & Hd & -> & Hair & Hv).
  exists dx, dy, dz. cbn [quadFace quadX quadY quadZ quadBlock].
  repeat split; try done; lia.
Qed.

End MeshContents.

(** X21. The geometry [updateMesh] builds holds exactly one quad for every
    visible face of every voxel of the chunk that is not air, and nothing
    else: every quad is a visible face of an in-bounds voxel of its kind. *)
Theorem mesh_one_quad_per_visible_face (W : option World) (c : Chunk) :
  (forall q, q ∈ mesh (updateMesh W c) ->
     exists dx dy dz,
       nth_Z directions (quadFace q) = Some (dx, dy, dz)
       /\ 0 <= quadX q < size c /\ 0 <= quadY q < height c
       /\ 0 <= quadZ q < size c
       /\ quadBlock q = blockAt (blocks c) (quadX q) (quadY q) (quadZ q)
       /\ quadBlock q <> AIR
       /\ isFaceVisible W c (quadX q) (quadY q) (quadZ q) dx dy dz = true)
  /\ (forall x y z i dx dy dz,
        nth_Z directions i = Some (dx, dy, dz) ->
        filter (quadAt i x y z) (mesh (updateMesh W c))
        = if bool_decide (0 <= x < size c /\ 0 <= y < height c
                          /\ 0 <= z < size c)
             && bool_decide (blockAt (blocks c) x y z <> AIR)
             && isFaceVisible W c x y z dx dy dz
          then [mkQuad (blockAt (blocks c) x y z) i x y z]
          else []).
Proof.
  rewrite mesh_updateMesh. split; [apply buildQuads_elem|].
  intros x y z i dx dy dz Hd. rewrite buildQuads_voxel.
  case_bool_decide; cbn [andb]; [|done].
  by rewrite (voxelQuads_face W c x y z i dx dy dz Hd).
Qed.

(** X22. The batches of [updateMesh]: the keys are pairwise different; a
    batch exists exactly for the keys that have a quad; a batch with [n]
    quads holds [12 n] position numbers, [12 n] normal numbers, [8 n] uv
    numbers and [6 n] indices, and every index points at one of the [4 n]
    vertices of the batch; no batch is empty, so the last loop skips
    none. *)
Theorem mesh_batches_well_formed (W : option World) (c : Chunk) :
  NoDup (faceGeometries W c).*1
  /\ meshBatches W c = faceGeometries W c
  /\ (forall key geo, (key, geo) ∈ faceGeometries W c ->
        (0 < quadCount key (buildQuads W c))%nat
        /\ batchOf (quadCount key (buildQuads W c)) geo)
  /\ (forall key, (0 < quadCount key (buildQuads W c))%nat ->
        is_Some (geometryGet (faceGeometries W c) key)).
Proof.
  destruct (batchesOf_fold (buildQuads W c)) as [Hnd Hm].
  { apply Forall_forall. intros q Hq.
    apply buildQuads_elem in Hq as (dx & dy & dz & Hd & _). by eexists. }
  fold (faceGeometries W c) in Hnd, Hm.
  assert (forall key geo, (key, geo) ∈ faceGeometries W c ->
            (0 < quadCount key (buildQuads W c))%nat
            /\ batchOf (quadCount key (buildQuads W c)) geo) as Hall.
  { intros key geo Hin. pose proof (Hm key) as Hk.
    by rewrite (geometryGet_elem _ _ _ Hnd Hin) in Hk. }
  split; [done|]. split; [|split; [done|]].
  - unfold meshBatches.
    apply filter_all, Forall_forall. intros [key geo] Hin. cbn [snd].
    destruct (Hall key geo Hin) as [Hpos (Hp & _)]. lia.
  - intros key Hpos. pose proof (Hm key) as Hk.
    destruct (geometryGet (faceGeometries W c) key); [by eexists|lia].
Qed.

(** ** The vertices of a face *)

Ltac face_compute :=
  repeat match goal with
  | |- context [faceTangents ?a ?b] =>
      let v := eval vm_compute in (faceTangents a b) in
      change (faceTangents a b) with v
  | |- context [Qltb ?a (Qabs (inject_Z ?b))] =>
      let v := eval vm_compute in (Qltb a (Qabs (inject_Z b))) in
      change (Qltb a (Qabs (inject_Z b))) with v
  end;
  cbn [Z.ltb Z.compare Z.eqb vertices mjoin list_join replicate app fst snd];
  change (inject_Z 1) with 1%Q; change (inject_Z 0) with 0%Q;
  change (inject_Z (-1)) with (-1)%Q.

(** X23. For each of the six directions, the four vertices pushed for a face
    of the voxel [(x, y, z)] are the four corners of the face of the unit
    cube at [(x, y, z)] on that side, pairwise different, and the four
    normals pushed are the direction. *)
Theorem face_vertices_are_face_corners (x y z dx dy dz : Z) :
  (dx, dy, dz) ∈ directions ->
  let vs := vertices (facePositions x y z dx dy dz) in
  length vs = 4%nat
  /\ Forall (isFaceCorner x y z dx dy dz) vs
  /\ distinctVertices vs
  /\ Forall (sameVertex (inject_Z dx, inject_Z dy, inject_Z dz))
            (vertices (faceNormals dx dy dz)).
Proof.
  unfold directions. rewrite !elem_of_cons, elem_of_nil.
  intros H. repeat destruct H as [H|H]; try done; injection H as -> -> ->;
    cbv zeta; unfold facePositions, faceNormals; face_compute.
  all: split; [done|].
  all: rewrite !Forall_cons, !Forall_nil.
  all: cbn [distinctVertices]; rewrite ?Forall_cons, ?Forall_nil.
  all: unfold isFaceCorner, cornerOn, sameVertex;
       cbn [Z.eqb Z.ltb Z.compare fst snd];
       change (inject_Z 1) with 1%Q; change (inject_Z (-1)) with (-1)%Q;
       change (inject_Z 0) with 0%Q.
  all: split_and!; try done;
       first [ lra | left; lra | right; lra | intros (? & ? & ?); lra ].
Qed.

Lemma triangles_quad (v0 v1 v2 v3 : Q * Q * Q) :
  triangles [v0; v1; v2; v3] [0; 0 + 1; 0 + 2; 0; 0 + 2; 0 + 3]
  = [(v0, v1, v2); (v0, v2, v3)]
  /\ triangles [v0; v1; v2; v3] [0; 0 + 3; 0 + 2; 0; 0 + 2; 0 + 1]
     = [(v0, v3, v2); (v0, v2, v1)].
Proof. split; reflexivity. Qed.

(** X24. For each of the six directions, the two triangles of a face have the
    same orientation, and by the right-hand rule it is [(-|dx|, -|dy|, |dz|)]:
    the triangles of the left, bottom and front faces are wound along their
    normal, those of the right, top and back faces against it. *)
Theorem face_triangles_orientation (x y z dx dy dz : Z) :
  (dx, dy, dz) ∈ directions ->
  let ts := triangles (vertices (facePositions x y z dx dy dz))
                      (faceIndices 0 dy) in
  length ts = 2%nat
  /\ Forall (fun t =>
       sameVertex (triangleNormal t)
         (inject_Z (- Z.abs dx), inject_Z (- Z.abs dy), inject_Z (Z.abs dz)))
       ts.
Proof.
  unfold directions. rewrite !elem_of_cons, elem_of_nil.
  intros H. repeat destruct H as [H|H]; try done; injection H as -> -> ->;
    cbv zeta; unfold facePositions, faceIndices; face_compute.
  all: rewrite ?(proj1 (triangles_quad _ _ _ _)),
         ?(proj2 (triangles_quad _ _ _ _)).
  all: split; [done|].
  all: rewrite !Forall_cons, !Forall_nil.
  all: unfold sameVertex, triangleNormal; cbn [fst snd Z.abs Z.opp];
       change (inject_Z 1) with 1%Q; change (inject_Z (-1)) with (-1)%Q;
       change (inject_Z 0) with 0%Q.
  all: split_and!; try done.
  all: change (inject_Z (- Z.abs 1)) with (-1)%Q;
       change (inject_Z (- Z.abs (-1))) with (-1)%Q;
       change (inject_Z (- Z.abs 0)) with 0%Q;
       change (inject_Z (Z.abs 1)) with 1%Q;
       change (inject_Z (Z.abs (-1))) with 1%Q;
       change (inject_Z (Z.abs 0)) with 0%Q; ring.
Qed.

(** ** Colours *)

Section Colours.

Import TextureManager.

Lemma land_disjoint a k b :
  0 <= b < 2 ^ k -> 0 <= k -> Z.land (Z.shiftl a k) b = 0.
Proof.
  intros Hb Hk. apply Z.bits_inj'. intros n Hn.
  rewrite Z.land_spec, Z.bits_0.
  destruct (decide (n < k)) as [Hlt|Hge].
  - by rewrite Z.shiftl_spec_low.
  - assert (Z.testbit b n = false) as ->; [|by rewrite andb_false_r].
    destruct (decide (b = 0)) as [->|Hne]; [apply Z.bits_0|].
    apply Z.bits_above_log2; [lia|].
    assert (Z.log2 b < k); [|lia]. apply Z.log2_lt_pow2; lia.
Qed.

Lemma pack_channels r g b :
  0 <= r < 256 -> 0 <= g < 256 -> 0 <= b < 256 ->
  Z.lor (Z.lor (Z.shiftl r 16) (Z.shiftl g 8)) b = r * 65536 + g * 256 + b.
Proof.
  intros Hr Hg Hb.
  assert (Z.lor (Z.shiftl r 16) (Z.shiftl g 8) = r * 65536 + g * 256) as ->.
  { pose proof (Z.add_lor_land (Z.shiftl r 16) (Z.shiftl g 8)) as H.
    replace (Z.shiftl r 16) with (Z.shiftl (Z.shiftl r 8) 8) in H |- *
      by (rewrite Z.shiftl_shiftl by lia; done).
    rewrite Z.land_comm, <- Z.shiftl_land in H.
    rewrite (Z.land_comm g), (land_disjoint r 8 g) in H by lia.
    rewrite Z.shiftl_0_l in H.
    rewrite !Z.shiftl_mul_pow2 in H |- * by lia. lia. }
  pose proof (Z.add_lor_land (r * 65536 + g * 256) b) as H.
  replace (r * 65536 + g * 256) with (Z.shiftl (r * 256 + g) 8) in H |- *
    by (rewrite Z.shiftl_mul_pow2 by lia; lia).
  rewrite land_disjoint in H by lia.
  rewrite Z.shiftl_mul_pow2 in H |- * by lia. lia.
Qed.

Lemma rgb_pack r g b :
  0 <= r < 256 -> 0 <= g < 256 -> 0 <= b < 256 ->
  rgb (r * 65536 + g * 256 + b) = (r, g, b).
Proof.
  intros Hr Hg Hb. unfold rgb. cbv zeta.
  change 255 with (Z.ones 8). rewrite !Z.land_ones by lia.
  rewrite !Z.shiftr_div_pow2 by lia.
  change (2 ^ 16) with 65536. change (2 ^ 8) with 256.
  f_equal; [f_equal|]; Z.to_euclidean_division_equations; lia.
Qed.

Lemma channel_range color k :
  0 <= Z.land (Z.shiftr color k) 255 < 256.
Proof.
  change 255 with (Z.ones 8). rewrite Z.land_ones by lia.
  apply Z.mod_pos_bound. lia.
Qed.

Lemma shaded_channels color percent :
  0 <= percent ->
  let r := Z.land (Z.shiftr color 16) 255 in
  let g := Z.land (Z.shiftr color 8) 255 in
  let b := Z.land color 255 in
  lightenColor color percent
  = Z.min 255 (r + percent) * 65536 + Z.min 255 (g + percent) * 256
    + Z.min 255 (b + percent)
  /\ darkenColor color percent
     = Z.max 0 (r - percent) * 65536 + Z.max 0 (g - percent) * 256
       + Z.max 0 (b - percent)
  /\ 0 <= r < 256 /\ 0 <= g < 256 /\ 0 <= b < 256.
Proof.
  intros Hp r g b.
  pose proof (channel_range color 16) as Hr.
  pose proof (channel_range color 8) as Hg.
  pose proof (channel_range color 0) as Hb.
  rewrite Z.shiftr_0_r in Hb.
  unfold lightenColor, darkenColor. cbv zeta. fold r g b in Hr, Hg, Hb |- *.
  rewrite !pack_channels by lia. done.
Qed.

(** X28. For a colour [0xRRGGBB] and a non-negative amount, [lightenColor]
    and [darkenColor] return a colour in the same range whose three channels
    are the channels of the argument plus, respectively minus, the amount,
    clamped to 255, respectively 0: no channel spills into another. *)
Theorem shaded_colour_channels (color percent : Z) :
  0 <= color < 16777216 -> 0 <= percent ->
  let '(r, g, b) := rgb color in
  rgb (lightenColor color percent)
  = (Z.min 255 (r + percent), Z.min 255 (g + percent),
     Z.min 255 (b + percent))
  /\ rgb (darkenColor color percent)
     = (Z.max 0 (r - percent), Z.max 0 (g - percent), Z.max 0 (b - percent))
  /\ 0 <= lightenColor color percent < 16777216
  /\ 0 <= darkenColor color percent < 16777216.
Proof.
  intros Hc Hp. unfold rgb at 1. cbv zeta.
  destruct (shaded_channels color percent Hp) as (-> & -> & Hr & Hg & Hb).
  rewrite !rgb_pack by lia.
  split; [done|]. split; [done|]. lia.
Qed.

End Colours.

(** ** The clouds *)

Section SkyProofs.

Variable random : nat -> Q.
Hypothesis draws : unitDraws random.



End SkyProofs.


(** ** The spawn point *)

Section Spawn.

Variable random : nat -> Q.
Hypothesis draws : unitDraws random.

Lemma findSurface_spec w x z steps top :
  match Game.findSurface w x z steps top with
  | Some s =>
      top - Z.of_nat steps < s <= top
      /\ solidGround (World_getBlock w x s z)
      /\ forall y, s < y <= top -> ~ solidGround (World_getBlock w x y z)
  | None =>
      forall y, top - Z.of_nat steps < y <= top ->
        ~ solidGround (World_getBlock w x y z)
  end.
Proof.
  revert top. induction steps as [|steps IH]; intros top.
  { cbn. intros y Hy. lia. }
  cbn [Game.findSurface]. cbv zeta.
  destruct (bool_decide _ && bool_decide _ && bool_decide _) eqn:E.
  - apply andb_prop in E as [E E3]. apply andb_prop in E as [E1 E2].
    apply bool_decide_eq_true in E1, E2, E3.
    split; [lia|]. split; [done|]. intros y Hy. lia.
  - assert (~ solidGround (World_getBlock w x top z)) as Htop.
    { intros (H1 & H2 & H3).
      rewrite !bool_decide_eq_true_2 in E by done. done. }
    specialize (IH (top - 1)).
    destruct (Game.findSurface w x z steps (top - 1)) as [s|].
    + destruct IH as (Hs & Hg & Habove). split; [lia|]. split; [done|].
      intros y Hy. destruct (decide (y = top)) as [->|Hne]; [done|].
      apply Habove. lia.
    + intros y Hy. destruct (decide (y = top)) as [->|Hne]; [done|].
      apply IH. lia.
Qed.

(** The voxels of a chunk the constructor of the world has generated. *)
Lemma initial_world_voxel n x y z :
  - RENDER_DISTANCE <= chunkOf x <= RENDER_DISTANCE ->
  - RENDER_DISTANCE <= chunkOf z <= RENDER_DISTANCE ->
  0 <= y < WORLD_HEIGHT ->
  exists n0,
    World_getBlock (generateInitialChunks random (mkWorld ∅, n)).1 x y z
    = blockAt (generatedBlocks random (chunkOf x) (chunkOf z)
                 CHUNK_SIZE WORLD_HEIGHT n0) (localOf x) y (localOf z).
Proof.
  intros Hx Hz Hy.
  pose proof (wfWorld_generateInitialChunks random (mkWorld ∅) n
                (map_Forall_empty _)) as Hwf.
  rewrite generateInitialChunks_loadChunks in Hwf |- *.
  destruct (loadChunks_loaded random initialCoordinates (mkWorld ∅) n
              (chunkOf x) (chunkOf z)) as (c & Hc & Hfresh).
  { apply elem_of_initialCoordinates. unfold RENDER_DISTANCE in *. lia. }
  destruct Hfresh as [Hold|[_ (w0 & n0 & ->)]].
  { cbn [chunks] in Hold. by rewrite lookup_empty in Hold. }
  exists n0. rewrite (World_getBlock_loaded _ _ _ _ _ Hwf Hy Hc).
  by rewrite generatedBlocks_generate.
Qed.

Lemma initial_world_column n x z :
  - RENDER_DISTANCE <= chunkOf x <= RENDER_DISTANCE ->
  - RENDER_DISTANCE <= chunkOf z <= RENDER_DISTANCE ->
  let w := (generateInitialChunks random (mkWorld ∅, n)).1 in
  World_getBlock w x 0 z = BEDROCK
  /\ forall y, 85 <= y -> World_getBlock w x y z = AIR.
Proof.
  intros Hx Hz. cbv zeta.
  pose proof (localOf_bound x) as Hlx. pose proof (localOf_bound z) as Hlz.
  split.
  - destruct (initial_world_voxel n x 0 z Hx Hz) as [n0 ->]; [done|].
    destruct (generatedBlocks_cell random draws (chunkOf x) (chunkOf z)
                CHUNK_SIZE WORLD_HEIGHT n0 (localOf x) 0 (localOf z))
      as [H|(_ & Hy & _)]; try done; lia.
  - intros y Hy. destruct (decide (y < WORLD_HEIGHT)) as [Hlt|Hge].
    + destruct (initial_world_voxel n x y z Hx Hz) as [n0 ->]; [lia|].
      destruct (generatedBlocks_cell random draws (chunkOf x) (chunkOf z)
                  CHUNK_SIZE WORLD_HEIGHT n0 (localOf x) y (localOf z))
        as [H|(_ & Hy' & _)]; try done; try lia.
      rewrite H. apply terrainBlock_sky; [|lia].
      set (c0 := (Chunk_new random (chunkOf x) (chunkOf z)
                    CHUNK_SIZE WORLD_HEIGHT n0).1).
      destruct (getTerrainHeight_range c0 (random n0)
                  (chunkX c0 * size c0 + localOf x)
                  (chunkZ c0 * size c0 + localOf z))
        as (_ & H76 & _); [by apply unitDraws_seed|done|done].
    + apply World_getBlock_outside. lia.
Qed.

(** X30. In the world the constructor builds when [Math.random()] returns
    values in [0, 1), [positionPlayerAboveTerrain] puts the player at
    [(8, s + 2, 8)] (in the version that spawns at the centre of the first
    chunk), where [s], between 0 and 84, is the height of the
    highest block of the column [(8, 8)] that is neither air nor water nor
    leaves; the default height is never used. *)
Theorem spawn_is_above_the_top_block (n : nat) :
  let w := (generateInitialChunks random (mkWorld ∅, n)).1 in
  exists s,
    0 <= s <= 84
    /\ Game.positionPlayerAboveTerrain w
       = mkVector3 (inject_Z 8) (inject_Z (s + 2)) (inject_Z 8)
    /\ solidGround (World_getBlock w 8 s 8)
    /\ forall y, s < y -> ~ solidGround (World_getBlock w 8 y 8).
Proof.
  intros w.
  destruct (initial_world_column n 8 8) as [Hfloor Hsky]; [done|done|].
  cbv zeta in Hfloor, Hsky. fold w in Hfloor, Hsky.
  unfold Game.positionPlayerAboveTerrain. cbv zeta.
  pose proof (findSurface_spec w 8 8 101 100) as Hfind.
  destruct (Game.findSurface w 8 8 101 100) as [s|].
  - destruct Hfind as (Hs & Hground & Habove).
    assert (s <= 84) as Hs84.
    { destruct (decide (s <= 84)); [done|]. exfalso.
      destruct Hground as [Hair _]. apply Hair, Hsky. lia. }
    exists s. split; [lia|]. split; [done|]. split; [done|].
    intros y Hy. destruct (decide (y <= 100)); [apply Habove; lia|].
    intros [Hair _]. apply Hair, Hsky. lia.
  - exfalso. apply (Hfind 0); [lia|]. rewrite Hfloor. by repeat split.
Qed.

End Spawn.

(** * Instances of the further properties *)

Lemma drawsNoTree_unit : unitDraws Examples.drawsNoTree.
Proof. intros [|n]; cbn; split; lra. Qed.

Lemma seedInRange_example : seedInRange (1009 # 32768).
Proof. split; lra. Qed.

(** X8 for the seed [1009/32768]. *)
Lemma seed_tables_defined_witness :
  seedInRange (1009 # 32768)
  /\ length (SimplexNoise.perm (SimplexNoise.new (1009 # 32768))) = 512%nat
  /\ SimplexNoise.gradAt (SimplexNoise.new (1009 # 32768)) 7
     ∈ SimplexNoise.grad3.
Proof.
  assert (seedInRange (1009 # 32768)) as Hs by (split; lra).
  split; [exact Hs|].
  destruct (seed_tables_defined (1009 # 32768) Hs) as (Hl & _ & _ & Hg & _).
  split; [exact Hl|]. apply Hg. lia.
Defined.

(** X9 at the lattice point [(3, 4)]. *)
Lemma noise_zero_on_lattice_witness :
  seedInRange (1009 # 32768)
  /\ SimplexNoise.noise (SimplexNoise.new (1009 # 32768))
       (inject_Z 3) (inject_Z 4) = 0%Q.
Proof.
  assert (seedInRange (1009 # 32768)) as Hs by (split; lra).
  split; [exact Hs|]. exact (noise_zero_on_lattice (1009 # 32768) 3 4 Hs).
Defined.

(** X10 at the point [(1/3, 7/2)]. *)
Lemma noise_bounded_witness :
  seedInRange (1009 # 32768)
  /\ (-2 <= SimplexNoise.noise (SimplexNoise.new (1009 # 32768))
              (1 # 3) (7 # 2) <= 2)%Q.
Proof.
  assert (seedInRange (1009 # 32768)) as Hs by (split; lra).
  split; [exact Hs|]. exact (noise_bounded (1009 # 32768) (1 # 3) (7 # 2) Hs).
Defined.

(** X11 for the chunk [(3, 12)] and the world column [(56, 200)]. *)
Lemma terrain_height_bounds_witness :
  seedInRange (1009 # 32768)
  /\ simplex (Examples.airChunk 3 12) = SimplexNoise.new (1009 # 32768)
  /\ (1 <= getTerrainHeight (Examples.airChunk 3 12) 56 200)%Q
  /\ (getTerrainHeight (Examples.airChunk 3 12) 56 200 <= 76)%Q.
Proof.
  assert (seedInRange (1009 # 32768)) as Hs by (split; lra).
  assert (simplex (Examples.airChunk 3 12) = SimplexNoise.new (1009 # 32768))
    as Hn by reflexivity.
  split; [exact Hs|]. split; [exact Hn|].
  destruct (terrain_height_bounds (Examples.airChunk 3 12) (1009 # 32768)
              56 200 Hs Hn) as (H1 & H2 & _).
  split; [exact H1|exact H2].
Defined.


(** X13 at the column [(5, 9)] of the chunk [(3, 12)], for [y = 0] and
    [y = 100]. *)
Lemma generate_floor_and_sky_witness :
  unitDraws Examples.drawsNoTree
  /\ 0 <= 5 < CHUNK_SIZE /\ 0 <= 9 < CHUNK_SIZE
  /\ blockAt (generatedBlocks Examples.drawsNoTree 3 12
                CHUNK_SIZE WORLD_HEIGHT 0) 5 0 9 = BEDROCK
  /\ blockAt (generatedBlocks Examples.drawsNoTree 3 12
                CHUNK_SIZE WORLD_HEIGHT 0) 5 100 9 = AIR.
Proof.
  assert (0 <= 5 < CHUNK_SIZE) as Hx by (unfold CHUNK_SIZE; lia).
  assert (0 <= 9 < CHUNK_SIZE) as Hz by (unfold CHUNK_SIZE; lia).
  split; [exact drawsNoTree_unit|]. split; [exact Hx|]. split; [exact Hz|].
  destruct (generate_floor_and_sky Examples.drawsNoTree 3 12
              CHUNK_SIZE WORLD_HEIGHT 0 5 9 drawsNoTree_unit Hx Hz)
    as [Hfloor Hsky].
  split; [apply Hfloor|apply Hsky]; unfold WORLD_HEIGHT; lia.
Defined.

(** X14 at the voxel [(15, 40, 9)] of the chunk [(3, 12)]. *)
Lemma generate_far_planes_pure_terrain_witness :
  unitDraws Examples.drawsNoTree
  /\ 0 <= 15 < CHUNK_SIZE /\ CHUNK_SIZE - 2 <= 15
  /\ 0 <= 40 < WORLD_HEIGHT /\ 0 <= 9 < CHUNK_SIZE
  /\ blockAt (generatedBlocks Examples.drawsNoTree 3 12
                CHUNK_SIZE WORLD_HEIGHT 0) 15 40 9
     = terrainBlock 40
         (columnHeight
            (Chunk_new Examples.drawsNoTree 3 12 CHUNK_SIZE WORLD_HEIGHT 0).1
            15 9).
Proof.
  assert (0 <= 15 < CHUNK_SIZE) as Hx by (unfold CHUNK_SIZE; lia).
  assert (CHUNK_SIZE - 2 <= 15) as Hx' by (unfold CHUNK_SIZE; lia).
  assert (0 <= 40 < WORLD_HEIGHT) as Hy by (unfold WORLD_HEIGHT; lia).
  assert (0 <= 9 < CHUNK_SIZE) as Hz by (unfold CHUNK_SIZE; lia).
  split; [exact drawsNoTree_unit|].
  split; [exact Hx|]. split; [exact Hx'|]. split; [exact Hy|].
  split; [exact Hz|].
  exact (generate_far_planes_pure_terrain Examples.drawsNoTree 3 12
           CHUNK_SIZE WORLD_HEIGHT 0 15 40 9 drawsNoTree_unit Hx Hx' Hy Hz).
Defined.

(** X15 for two positions in the chunk [(0, 0)], from the world of three
    air chunks. *)
Lemma update_is_idempotent_witness :
  playerChunkX (mkVector3 9 30 9) = playerChunkX (mkVector3 8 30 8)
  /\ playerChunkZ (mkVector3 9 30 9) = playerChunkZ (mkVector3 8 30 8)
  /\ World_update Examples.drawsNoTree (mkVector3 9 30 9)
       (World_update Examples.drawsNoTree (mkVector3 8 30 8)
          (Examples.airWorld, 0%nat))
     = World_update Examples.drawsNoTree (mkVector3 8 30 8)
         (Examples.airWorld, 0%nat).
Proof.
  assert (playerChunkX (mkVector3 9 30 9) = playerChunkX (mkVector3 8 30 8))
    as Hx by reflexivity.
  assert (playerChunkZ (mkVector3 9 30 9) = playerChunkZ (mkVector3 8 30 8))
    as Hz by reflexivity.
  split; [exact Hx|]. split; [exact Hz|].
  exact (update_is_idempotent Examples.drawsNoTree (mkVector3 8 30 8)
           (mkVector3 9 30 9) Examples.airWorld 0 Hx Hz).
Defined.

(** X16 for an observer at [(8, 30, 8)]. *)
Lemma constructor_world_is_settled_witness :
  playerChunkX (mkVector3 8 30 8) = 0
  /\ playerChunkZ (mkVector3 8 30 8) = 0
  /\ World_update Examples.drawsNoTree (mkVector3 8 30 8)
       (generateInitialChunks Examples.drawsNoTree (mkWorld ∅, 0%nat))
     = generateInitialChunks Examples.drawsNoTree (mkWorld ∅, 0%nat).
Proof.
  assert (playerChunkX (mkVector3 8 30 8) = 0) as Hx by reflexivity.
  assert (playerChunkZ (mkVector3 8 30 8) = 0) as Hz by reflexivity.
  split; [exact Hx|]. split; [exact Hz|].
  exact (proj2 (constructor_world_is_settled Examples.drawsNoTree
                  (mkVector3 8 30 8) 0 Hx Hz)).
Defined.

(** X17 for a write at [(15, 5, 3)] and a read at [(16, 5, 3)] in the world
    of three air chunks. *)
Lemma write_leaves_other_voxels_witness :
  wfWorld Examples.airWorld
  /\ (16, 5, 3) <> (15, 5, 3)
  /\ World_getBlock (World_setBlock Examples.airWorld 15 5 3 STONE) 16 5 3
     = World_getBlock Examples.airWorld 16 5 3.
Proof.
  assert ((16, 5, 3) <> (15, 5, 3)) as Hne by (intros H; discriminate H).
  split; [exact airWorld_wf|]. split; [exact Hne|].
  exact (write_leaves_other_voxels Examples.airWorld 15 5 3 STONE 16 5 3
           airWorld_wf Hne).
Defined.


(** The ray of the instances of X20 and X27: from [(0.5, 50.5, 0.5)]
    straight down into the column that is stone below [y = 50]. *)
Lemma groundColumn_hit :
  raycast Examples.normalizeUnit Examples.groundColumnWorld
    (mkVector3 0.5 50.5 0.5) downRay 5
  = Some (mkHit (mkVector3 0 49 0) (mkVector3 0 1 0) STONE).
Proof. vm_compute. reflexivity. Qed.


(** X23 for the face on the side [(1, 0, 0)] of the voxel [(2, 3, 4)]. *)
Lemma face_vertices_are_face_corners_witness :
  (1, 0, 0) ∈ directions
  /\ length (vertices (facePositions 2 3 4 1 0 0)) = 4%nat
  /\ Forall (isFaceCorner 2 3 4 1 0 0) (vertices (facePositions 2 3 4 1 0 0))
  /\ distinctVertices (vertices (facePositions 2 3 4 1 0 0))
  /\ Forall (sameVertex (inject_Z 1, inject_Z 0, inject_Z 0))
            (vertices (faceNormals 1 0 0)).
Proof.
  assert ((1, 0, 0) ∈ directions) as Hd by (unfold directions; set_solver).
  split; [exact Hd|].
  exact (face_vertices_are_face_corners 2 3 4 1 0 0 Hd).
Defined.

(** X24 for the same face. *)
Lemma face_triangles_orientation_witness :
  (1, 0, 0) ∈ directions
  /\ length (triangles (vertices (facePositions 2 3 4 1 0 0))
                       (faceIndices 0 0)) = 2%nat
  /\ Forall (fun t =>
       sameVertex (triangleNormal t)
         (inject_Z (- Z.abs 1), inject_Z (- Z.abs 0), inject_Z (Z.abs 0)))
       (triangles (vertices (facePositions 2 3 4 1 0 0)) (faceIndices 0 0)).
Proof.
  assert ((1, 0, 0) ∈ directions) as Hd by (unfold directions; set_solver).
  split; [exact Hd|].
  exact (face_triangles_orientation 2 3 4 1 0 0 Hd).
Defined.

(** X25 for the player of a new game, falling at 3 voxels per second in the
    world of three air chunks. *)
Lemma handleCollisions_keeps_player_free_witness :
  FirstPersonControls.checkBlockCollision Examples.airWorld
    (FirstPersonControls.yawPosition
       (FirstPersonControls.withVelocityY FirstPersonControls.new (-3)))
  = false
  /\ FirstPersonControls.checkBlockCollision Examples.airWorld
       (FirstPersonControls.yawPosition
          (FirstPersonControls.handleCollisions Examples.airWorld (1 # 60)
             (FirstPersonControls.withVelocityY FirstPersonControls.new (-3))))
     = false.
Proof.
  assert (FirstPersonControls.checkBlockCollision Examples.airWorld
            (FirstPersonControls.yawPosition
               (FirstPersonControls.withVelocityY FirstPersonControls.new (-3)))
          = false) as Hfree by (vm_compute; reflexivity).
  split; [exact Hfree|].
  exact (handleCollisions_keeps_player_free Examples.airWorld (1 # 60)
           (FirstPersonControls.withVelocityY FirstPersonControls.new (-3))
           Hfree).
Defined.

(** X26 after the key [Digit3] in a new game. *)
Lemma selected_block_type_is_placeable_witness :
  controlsReachable
    (FirstPersonControls.onKeyDown "Digit3" FirstPersonControls.new)
  /\ FirstPersonControls.selectedBlockType
       (FirstPersonControls.onKeyDown "Digit3" FirstPersonControls.new)
     ∈ FirstPersonControls.blockTypes
  /\ FirstPersonControls.selectedBlockType
       (FirstPersonControls.onKeyDown "Digit3" FirstPersonControls.new)
     <> AIR
  /\ FirstPersonControls.selectedBlockType
       (FirstPersonControls.onKeyDown "Digit3" FirstPersonControls.new)
     <> BEDROCK.
Proof.
  assert (controlsReachable
            (FirstPersonControls.onKeyDown "Digit3" FirstPersonControls.new))
    as Hr by (apply controls_keyDown, controls_new).
  split; [exact Hr|].
  exact (selected_block_type_is_placeable _ Hr).
Defined.

(** X27 for the hit of the ray above, with the pointer locked. *)
Lemma left_click_removes_selected_block_witness :
  wfWorld Examples.groundColumnWorld
  /\ raycast Examples.normalizeUnit Examples.groundColumnWorld
       (mkVector3 0.5 50.5 0.5) downRay 5
     = Some (mkHit (mkVector3 0 49 0) (mkVector3 0 1 0) STONE)
  /\ kindAt
       (FirstPersonControls.onMouseDown (fun _ _ => false) 0
          (FirstPersonControls.mk false false false false false false true
             (mkVector3 0 0 0) false true
             (Some (mkHit (mkVector3 0 49 0) (mkVector3 0 1 0) STONE))
             DIRT (mkVector3 0.5 52.3 0.5))
          Examples.groundColumnWorld)
       (voxelOf (mkVector3 0 49 0)) = AIR.
Proof.
  split; [exact groundColumnWorld_wf|]. split; [exact groundColumn_hit|].
  exact (proj1 (left_click_removes_selected_block (fun _ _ => false)
                  Examples.normalizeUnit Examples.groundColumnWorld
                  (mkVector3 0.5 50.5 0.5) downRay 5
                  (FirstPersonControls.mk false false false false false false
                     true (mkVector3 0 0 0) false true
                     (Some (mkHit (mkVector3 0 49 0) (mkVector3 0 1 0) STONE))
                     DIRT (mkVector3 0.5 52.3 0.5))
                  (mkHit (mkVector3 0 49 0) (mkVector3 0 1 0) STONE)
                  groundColumnWorld_wf eq_refl groundColumn_hit eq_refl)).
Defined.

(** X28 for the colour [0x8B4513] and the amount [20]. *)
Lemma shaded_colour_channels_witness :
  0 <= 9127187 < 16777216 /\ 0 <= 20
  /\ TextureManager.rgb (TextureManager.lightenColor 9127187 20)
     = (159, 89, 39)
  /\ TextureManager.rgb (TextureManager.darkenColor 9127187 20)
     = (119, 49, 0).
Proof.
  assert (0 <= 9127187 < 16777216) as Hc by lia.
  assert (0 <= 20) as Hp by lia.
  split; [exact Hc|]. split; [exact Hp|].
  destruct (shaded_colour_channels 9127187 20 Hc Hp) as (Hl & Hd & _).
  split; [exact Hl|exact Hd].
Defined.


(** X30 for the world built from the first draw on. *)
Lemma spawn_is_above_the_top_block_witness :
  unitDraws Examples.drawsNoTree
  /\ exists s,
       0 <= s <= 84
       /\ Game.positionPlayerAboveTerrain
            (generateInitialChunks Examples.drawsNoTree (mkWorld ∅, 0%nat)).1
          = mkVector3 (inject_Z 8) (inject_Z (s + 2)) (inject_Z 8).
Proof.
  split; [exact drawsNoTree_unit|].
  destruct (spawn_is_above_the_top_block Examples.drawsNoTree
              drawsNoTree_unit 0) as (s & Hs & Hp & _).
  exists s. split; [exact Hs|exact Hp].
Defined.
